(** * sho-bond: the alignment and metrics engine

    A shallow embedding of [src/evaluators/metrics.py] and
    [src/evaluators/comparator.py], with the properties of the edit
    distance, of the derived rates and of the error listing.

    Number model.  Python [int] values that count things (lengths, table
    cells, n-gram counts) are [nat]; the running [position] of the
    backtrace, which is decremented, is [Z].  Python [float] values that
    the code obtains by dividing two integers and by the arithmetic of
    [calculate_accuracy] are exact rationals ([Q]): binary rounding of
    the quotient is not modelled.  The score of [_simple_bleu], which goes
    through [math.log] and [math.exp], is a real number ([R]).

    Failure model.  Everything that can raise in Python (indexing a list,
    dividing) returns [option]; [None] stands for the exception. *)

From Stdlib Require Import ZArith QArith Qround Reals Lia Lra.
From Stdlib Require Lqa.
From Stdlib Require Import ROrderedType.
From stdpp Require Import base option list sorting.

Close Scope Q_scope.
Close Scope R_scope.
Open Scope nat_scope.

(** ** Python built-ins used by the two modules *)

Module Py.

(** A [str] is a sequence of Unicode code points. *)
Abbreviation char := N.
Abbreviation str := (list char).

Definition SPACE : char := 32%N.
Definition IDEOGRAPHIC_SPACE : char := 12288%N.   (* '　' *)

(** [str.isspace] on one code point; it is also what [str.split()],
    [str.strip()] and the pattern [\s] of [re] use on [str]. *)
Definition isspace (c : char) : bool :=
  ((9 <=? c) && (c <=? 13)
   || (28 <=? c) && (c <=? 32)
   || (c =? 133) || (c =? 160) || (c =? 5760)
   || (8192 <=? c) && (c <=? 8202)
   || (c =? 8232) || (c =? 8233) || (c =? 8239) || (c =? 8287)
   || (c =? 12288))%N.

(** [text.split()]: the maximal runs of non-blank characters.
    [cur] is the word being read. *)
Fixpoint split_from (cur : str) (s : str) : list str :=
  match s with
  | [] => match cur with [] => [] | _ => [cur] end
  | c :: s' =>
      if isspace c
      then match cur with [] => split_from [] s' | _ => cur :: split_from [] s' end
      else split_from (cur ++ [c]) s'
  end.

Definition split (s : str) : list str := split_from [] s.

(** [sep.join(words)] *)
Fixpoint join (sep : str) (words : list str) : str :=
  match words with
  | [] => []
  | [w] => w
  | w :: ws => w ++ sep ++ join sep ws
  end.

(** [text.replace(old, new)] for one-character [old] and [new]. *)
Definition replace (old new : char) (s : str) : str :=
  map (fun c => if (c =? old)%N then new else c) s.

(** [re.sub(r'\s+', ' ', text)]: every maximal run of blanks becomes
    one space.  [in_run] tells that the run was already replaced. *)
Fixpoint sub_blank_runs (in_run : bool) (s : str) : str :=
  match s with
  | [] => []
  | c :: s' =>
      if isspace c
      then if in_run then sub_blank_runs true s' else SPACE :: sub_blank_runs true s'
      else c :: sub_blank_runs false s'
  end.

Fixpoint lstrip (s : str) : str :=
  match s with
  | [] => []
  | c :: s' => if isspace c then lstrip s' else s
  end.

Fixpoint rstrip (s : str) : str :=
  match s with
  | [] => []
  | c :: s' =>
      match rstrip s' with
      | [] => if isspace c then [] else [c]
      | kept => c :: kept
      end
  end.

(** [text.strip()]: without the blanks at both ends. *)
Definition strip (s : str) : str := rstrip (lstrip s).

(** [enumerate(l)], counting from [k]. *)
Fixpoint enumerate_from {A} (k : nat) (l : list A) : list (nat * A) :=
  match l with
  | [] => []
  | x :: l' => (k, x) :: enumerate_from (S k) l'
  end.

Definition enumerate {A} (l : list A) : list (nat * A) := enumerate_from 0 l.

(** A [for] loop whose body may raise. *)
Fixpoint for_each {St X} (body : St -> X -> option St) (xs : list X) (st : St)
    : option St :=
  match xs with
  | [] => Some st
  | x :: xs' => st' ← body st x; for_each body xs' st'
  end.

(** [a / b] on two [int]: [ZeroDivisionError] is [None].  Python gives
    the double nearest to the quotient; the model keeps the quotient
    itself.  What is stated of such a value is that it is this quotient
    of these two integers, its sign, its comparison with 0 and 1; no
    statement multiplies it back. *)
Definition true_div (a b : nat) : option Q :=
  if b =? 0 then None else Some (inject_Z (Z.of_nat a) / inject_Z (Z.of_nat b))%Q.

(** [max(0.0, x)] *)
Definition max0 (x : Q) : Q := if Qlt_le_dec 0 x then x else 0%Q.

(** Nearest integer, ties to the even one. *)
Definition round_half_even (x : Q) : Z :=
  let f := Qfloor x in
  match ((x - inject_Z f) ?= (1 # 2))%Q with
  | Lt => f
  | Gt => (f + 1)%Z
  | Eq => if Z.even f then f else (f + 1)%Z
  end.

(** [round(x, ndigits)].  Python rounds the double; the model rounds the
    exact value, so the two can differ where the exact value lies
    half-way between two neighbours.  The statements on rounded values
    are bounds that hold on either side of such a tie. *)
Definition round (x : Q) (ndigits : nat) : Q :=
  (inject_Z (round_half_even (x * inject_Z (10 ^ Z.of_nat ndigits)))
     / inject_Z (10 ^ Z.of_nat ndigits))%Q.

(** [l[k]] with Python's negative indices; [IndexError] is [None]. *)
Definition index {X} (l : list X) (k : Z) : option X :=
  if (0 <=? k)%Z then l !! Z.to_nat k
  else if (- Z.of_nat (length l) <=? k)%Z then l !! Z.to_nat (Z.of_nat (length l) + k)
  else None.

(** [t[i][j]] and [t[i][j] = v] on a list of rows, for indices that
    come from a [range] and are not negative. *)
Definition get2 {X} (t : list (list X)) (i j : nat) : option X :=
  row ← t !! i; row !! j.

Definition set2 {X} (t : list (list X)) (i j : nat) (v : X) : option (list (list X)) :=
  row ← t !! i;
  if decide (j < length row) then Some (<[i := <[j := v]> row]> t) else None.

(** [min(l, key=key)]: the first element whose key is the smallest;
    [ValueError] on the empty list is [None]. *)
Fixpoint min_from {X} (key : X -> nat) (best : X) (l : list X) : X :=
  match l with
  | [] => best
  | x :: l' => min_from key (if key x <? key best then x else best) l'
  end.

Definition min_key {X} (key : X -> nat) (l : list X) : option X :=
  match l with
  | [] => None
  | x :: l' => Some (min_from key x l')
  end.

(** A [dict] in insertion order. *)
Abbreviation dict K V := (list (K * V)).

(** [d.get(k, default)] *)
Fixpoint dict_get {K V} `{EqDecision K} (d : dict K V) (k : K) (default : V) : V :=
  match d with
  | [] => default
  | (k', v) :: d' => if decide (k = k') then v else dict_get d' k default
  end.

(** [k in d] *)
Fixpoint dict_in {K V} `{EqDecision K} (k : K) (d : dict K V) : bool :=
  match d with
  | [] => false
  | (k', _) :: d' => if decide (k = k') then true else dict_in k d'
  end.

(** [d[k] = v] *)
Fixpoint dict_set {K V} `{EqDecision K} (d : dict K V) (k : K) (v : V) : dict K V :=
  match d with
  | [] => [(k, v)]
  | (k', v') :: d' => if decide (k = k') then (k, v) :: d' else (k', v') :: dict_set d' k v
  end.

(** What running a loop under a bound on its iterations gives. *)
Inductive outcome (X : Type) : Type :=
| Returns (x : X)
| Raises
| OutOfFuel.
Arguments Returns {X} x.
Arguments Raises {X}.
Arguments OutOfFuel {X}.

(** [x / n] for a [float] [x] and an [int] [n]: [ZeroDivisionError] is
    [None]. *)
Definition div_count (x : Q) (n : nat) : option Q :=
  if n =? 0 then None else Some (x / inject_Z (Z.of_nat n))%Q.

(** The same operations on a [float] that is modelled as a real. *)
Definition div_count_R (x : R) (n : nat) : option R :=
  if n =? 0 then None else Some (x / INR n)%R.

Definition round_half_even_R (x : R) : Z :=
  let f := Int_part x in
  match Rcompare (x - IZR f) (1 / 2) with
  | Lt => f
  | Gt => (f + 1)%Z
  | Eq => if Z.even f then f else (f + 1)%Z
  end.

Definition round_R (x : R) (ndigits : nat) : R :=
  (IZR (round_half_even_R (x * IZR (10 ^ Z.of_nat ndigits)))
   / IZR (10 ^ Z.of_nat ndigits))%R.

End Py.

(** ** The edit distance, as the claims word it *)

(** [alignment s t n]: [s] is turned into [t] by [n] single-token
    insertions, deletions and substitutions, each of cost one; tokens
    that are kept cost nothing. *)
Inductive alignment {A : Type} : list A -> list A -> nat -> Prop :=
| al_nil : alignment [] [] 0
| al_keep a s t n : alignment s t n -> alignment (a :: s) (a :: t) n
| al_substitute a b s t n : alignment s t n -> alignment (a :: s) (b :: t) (S n)
| al_delete a s t n : alignment s t n -> alignment (a :: s) t (S n)
| al_insert b s t n : alignment s t n -> alignment s (b :: t) (S n).

(** [d] is the minimum number of edit operations from [s] to [t]. *)
Definition edit_distance {A : Type} (s t : list A) (d : nat) : Prop :=
  alignment s t d /\ forall n, alignment s t n -> d <= n.

(** The same number, computed by the textbook recursion. *)
Fixpoint lev {A : Type} `{EqDecision A} (s t : list A) : nat :=
  match s with
  | [] => length t
  | a :: s' =>
      (fix lev_s (t : list A) : nat :=
         match t with
         | [] => length s
         | b :: t' =>
             if decide (a = b) then lev s' t'
             else S (Nat.min (Nat.min (lev s' t) (lev_s t')) (lev s' t'))
         end) t
  end.

(** ** [src/evaluators/metrics.py] *)

Module Metrics.
Import Py.

(** The cost that [c1 != c2] adds ([bool] used as [int]). *)
Definition differ {A} `{EqDecision A} (c1 c2 : A) : nat :=
  if decide (c1 = c2) then 0 else 1.

(** Body of the inner loop of [_levenshtein_distance]. *)
Definition row_step {A} `{EqDecision A} (previous_row : list nat) (c1 : A)
    (current_row : list nat) (jc : nat * A) : option (list nat) :=
  let '(j, c2) := jc in
  insertions ← (fun x => x + 1) <$> previous_row !! (j + 1);
  deletions ← (fun x => x + 1) <$> current_row !! j;
  substitutions ← (fun x => x + differ c1 c2) <$> previous_row !! j;
  Some (current_row ++ [Nat.min (Nat.min insertions deletions) substitutions]).

(** Body of the outer loop: the row of [c1] from the previous one. *)
Definition next_row {A} `{EqDecision A} (s2 : list A)
    (previous_row : list nat) (ic : nat * A) : option (list nat) :=
  let '(i, c1) := ic in
  for_each (row_step previous_row c1) (enumerate s2) [i + 1].

(** [_levenshtein_distance] once [len(s1) >= len(s2)] holds. *)
Definition levenshtein_rows {A} `{EqDecision A} (s1 s2 : list A) : option nat :=
  if length s2 =? 0 then Some (length s1)
  else
    previous_row ← for_each (next_row s2) (enumerate s1) (seq 0 (length s2 + 1));
    last previous_row.

(** [_levenshtein_distance(s1, s2)].  The recursive call swaps the
    arguments when the first is the shorter one; in the call it makes
    the test is false, so the recursion has depth one. *)
Definition _levenshtein_distance {A} `{EqDecision A} (s1 s2 : list A) : option nat :=
  if length s1 <? length s2 then levenshtein_rows s2 s1
  else levenshtein_rows s1 s2.

(** *** Optional third-party libraries

    [calculate_wer], [calculate_cer] and [calculate_bleu] use [jiwer]
    and [sacrebleu] when they can be imported and the built-in
    functions otherwise.  What is installed is a parameter. *)
Record Libraries : Type := {
  jiwer_wer : option (str -> str -> option Q);
  jiwer_cer : option (str -> str -> option Q);
  sacrebleu_sentence_score : option (str -> str -> option R)
}.

(** Neither library is importable: the built-in implementations run. *)
Definition builtin : Libraries :=
  {| jiwer_wer := None; jiwer_cer := None; sacrebleu_sentence_score := None |}.

Definition _simple_wer (reference hypothesis : str) : option Q :=
  let ref_words := split reference in
  let hyp_words := split hypothesis in
  match ref_words with
  | [] => Some (match hyp_words with [] => 0%Q | _ => 1%Q end)
  | _ =>
      distance ← _levenshtein_distance (join [SPACE] ref_words) (join [SPACE] hyp_words);
      true_div distance (length ref_words)
  end.

Definition _simple_cer (reference hypothesis : str) : option Q :=
  match reference with
  | [] => Some (match hypothesis with [] => 0%Q | _ => 1%Q end)
  | _ =>
      distance ← _levenshtein_distance reference hypothesis;
      true_div distance (length reference)
  end.

Definition calculate_wer (libs : Libraries) (reference hypothesis : str) : option Q :=
  match jiwer_wer libs with
  | Some wer => wer reference hypothesis
  | None => _simple_wer reference hypothesis
  end.

Definition calculate_cer (libs : Libraries) (reference hypothesis : str) : option Q :=
  match jiwer_cer libs with
  | Some cer => cer reference hypothesis
  | None => _simple_cer reference hypothesis
  end.

Definition calculate_accuracy (libs : Libraries) (reference hypothesis : str) : option Q :=
  match reference with
  | [] => Some (match hypothesis with [] => 100%Q | _ => 0%Q end)
  | _ =>
      cer_value ← calculate_cer libs reference hypothesis;
      let accuracy := max0 ((1 - cer_value) * 100)%Q in
      Some (round accuracy 2)
  end.

(** *** [_simple_bleu] *)

(** The n-grams of [words] in order: [words[i:i+n]] for [i] in
    [range(len(words) - n + 1)]. *)
Definition ngram_list (words : list str) (n : nat) : list (list str) :=
  (fun i => take n (drop i words))
    <$> seq 0 (Z.to_nat (Z.of_nat (length words) - Z.of_nat n + 1)).

Definition get_ngrams (text : str) (n : nat) : dict (list str) nat :=
  foldl (fun ngrams gram => dict_set ngrams gram (dict_get ngrams gram 0 + 1))
    [] (ngram_list (split text) n).

(** The score that one pass of the loop over [n] appends. *)
Definition ngram_score (reference hypothesis : str) (n : nat) : option Q :=
  let ref_ngrams := get_ngrams reference n in
  let hyp_ngrams := get_ngrams hypothesis n in
  match hyp_ngrams with
  | [] => Some 0%Q
  | _ =>
      let match_count :=
        foldl (fun acc '(gram, count) =>
                 if dict_in gram ref_ngrams
                 then acc + Nat.min count (dict_get ref_ngrams gram 0)
                 else acc) 0 hyp_ngrams in
      let total_count := foldl (fun acc '(_, count) => acc + count) 0 hyp_ngrams in
      if 0 <? total_count then true_div match_count total_count else Some 0%Q
  end.

Definition positive (s : Q) : bool := negb (Qle_bool s 0).

Definition _simple_bleu (reference hypothesis : str) : option R :=
  match split hypothesis with
  | [] => Some 0%R
  | _ =>
      scores ← mapM (ngram_score reference hypothesis) (seq 1 4);
      let bleu :=
        if forallb positive scores
        then exp (foldl Rplus 0%R ((fun s => ln (Q2R s)) <$> scores)
                  / INR (length scores))%R
        else 0%R in
      Some (bleu * 100)%R
  end.

Definition calculate_bleu (libs : Libraries) (reference hypothesis : str) : option R :=
  match sacrebleu_sentence_score libs with
  | Some score => score hypothesis reference
  | None => _simple_bleu reference hypothesis
  end.

(** *** [get_error_details] *)

(** The labels ['delete'], ['insert'], ['match'] and ['substitute']. *)
Inductive op_type : Type := delete | insert | match_ | substitute.

#[global] Instance op_type_eq_dec : EqDecision op_type.
Proof. solve_decision. Defined.

(** A cell of [ops]: [None], or the tuple (label, reference character
    or [''], hypothesis character or ['']). *)
Abbreviation op := (op_type * str * str)%type.

Definition DELETION : str := [33073; 33853]%N.            (* '脱落' *)
Definition INSERTION : str := [25407; 20837]%N.           (* '挿入' *)
Definition SUBSTITUTION : str :=                          (* '置換（同音異字の可能性）' *)
  [32622; 25563; 65288; 21516; 38899; 30064; 23383; 12398; 21487; 33021; 24615; 65289]%N.
Definition UNKNOWN : str := [19981; 26126]%N.             (* '不明' *)

Definition _classify_error (t : op_type) (ref_char hyp_char : str) : str :=
  match t with
  | delete => DELETION
  | insert => INSERTION
  | substitute => SUBSTITUTION
  | match_ => UNKNOWN
  end.

(** One entry of the list that [get_error_details] returns. *)
Record error_entry : Type := {
  e_type : op_type;
  e_position : Z;
  e_reference : str;
  e_hypothesis : str;
  e_error_type : str
}.

(** The two tables [dp] and [ops]. *)
Record tables : Type := { dp : list (list nat); ops : list (list (option op)) }.

Definition init_tables (m n : nat) : tables :=
  {| dp := replicate (m + 1) (replicate (n + 1) 0);
     ops := replicate (m + 1) (replicate (n + 1) None) |}.

(** [for i in range(m + 1)]: the first column. *)
Definition init_column (ref_chars : str) (T : tables) (i : nat) : option tables :=
  dp' ← set2 (dp T) i 0 i;
  if 0 <? i then
    c ← ref_chars !! (i - 1);
    ops' ← set2 (ops T) i 0 (Some (delete, [c], []));
    Some {| dp := dp'; ops := ops' |}
  else Some {| dp := dp'; ops := ops T |}.

(** [for j in range(n + 1)]: the first row. *)
Definition init_row (hyp_chars : str) (T : tables) (j : nat) : option tables :=
  dp' ← set2 (dp T) 0 j j;
  if 0 <? j then
    c ← hyp_chars !! (j - 1);
    ops' ← set2 (ops T) 0 j (Some (insert, [], [c]));
    Some {| dp := dp'; ops := ops' |}
  else Some {| dp := dp'; ops := ops T |}.

(** The list [costs] of a cell whose two characters differ: [up] is
    [dp[i-1][j]], [left] is [dp[i][j-1]] and [diag] is [dp[i-1][j-1]]. *)
Definition costs (r h : char) (up left diag : nat) : list (nat * op) :=
  [ (up + 1, (delete, [r], []));
    (left + 1, (insert, [], [h]));
    (diag + 1, (substitute, [r], [h])) ].

(** Body of the inner loop over [j] in [range(1, n + 1)]. *)
Definition fill_cell (ref_chars hyp_chars : str) (i : nat) (T : tables) (j : nat)
    : option tables :=
  r ← ref_chars !! (i - 1);
  h ← hyp_chars !! (j - 1);
  if decide (r = h) then
    diag ← get2 (dp T) (i - 1) (j - 1);
    dp' ← set2 (dp T) i j diag;
    ops' ← set2 (ops T) i j (Some (match_, [r], [h]));
    Some {| dp := dp'; ops := ops' |}
  else
    up ← get2 (dp T) (i - 1) j;
    left ← get2 (dp T) i (j - 1);
    diag ← get2 (dp T) (i - 1) (j - 1);
    '(d, o) ← min_key fst (costs r h up left diag);
    dp' ← set2 (dp T) i j d;
    ops' ← set2 (ops T) i j (Some o);
    Some {| dp := dp'; ops := ops' |}.

(** Body of the outer loop over [i] in [range(1, m + 1)]. *)
Definition fill_row (ref_chars hyp_chars : str) (T : tables) (i : nat) : option tables :=
  for_each (fill_cell ref_chars hyp_chars i) (seq 1 (length hyp_chars)) T.

Definition build_tables (ref_chars hyp_chars : str) : option tables :=
  let m := length ref_chars in
  let n := length hyp_chars in
  T ← for_each (init_column ref_chars) (seq 0 (m + 1)) (init_tables m n);
  T ← for_each (init_row hyp_chars) (seq 0 (n + 1)) T;
  for_each (fill_row ref_chars hyp_chars) (seq 1 m) T.

(** The [while] loop of the backtrace, for at most [fuel] iterations. *)
Fixpoint backtrace (fuel : nat) (ops : list (list (option op)))
    (i j position : Z) (errors : list error_entry) : outcome (list error_entry) :=
  match fuel with
  | 0 => OutOfFuel
  | S fuel =>
      if ((0 <? i) || (0 <? j))%Z then
        match row ← index ops i; index row j with
        | None => Raises
        | Some op =>
            let errors :=
              match op with
              | Some (t, r, h) =>
                  if decide (t <> match_)
                  then errors ++ [ {| e_type := t; e_position := position;
                                      e_reference := r; e_hypothesis := h;
                                      e_error_type := _classify_error t r h |} ]
                  else errors
              | None => errors
              end in
            match op with
            | Some (match_, _, _) | Some (substitute, _, _) =>
                backtrace fuel ops (i - 1) (j - 1) (position - 1) errors
            | Some (delete, _, _) =>
                backtrace fuel ops (i - 1) j (position - 1) errors
            | Some (insert, _, _) =>
                backtrace fuel ops i (j - 1) (position - 1) errors
            | None => Returns errors
            end
        end
      else Returns errors
  end.

Definition get_error_details_within (fuel : nat) (reference hypothesis : str)
    : outcome (list error_entry) :=
  let m := length reference in
  let n := length hypothesis in
  match build_tables reference hypothesis with
  | None => Raises
  | Some T =>
      match backtrace fuel (ops T) (Z.of_nat m) (Z.of_nat n)
              (Z.max (Z.of_nat m) (Z.of_nat n)) [] with
      | Returns errors => Returns (reverse errors)
      | Raises => Raises
      | OutOfFuel => OutOfFuel
      end
  end.

(** [get_error_details(reference, hypothesis)]; every iteration of the
    backtrace decreases [i + j], so [m + n + 1] iterations are enough
    (see [get_error_details_spec]). *)
Definition get_error_details (reference hypothesis : str) : option (list error_entry) :=
  match get_error_details_within (length reference + length hypothesis + 1)
          reference hypothesis with
  | Returns errors => Some errors
  | _ => None
  end.

End Metrics.

(** ** [src/evaluators/comparator.py] *)

Module Comparator.
Import Py Metrics.

Record ErrorDetail : Type := {
  position : Z;
  reference_text : str;
  hypothesis_text : str;
  error_type : str
}.

Record ComparisonResult : Type := {
  reference : str;
  hypothesis : str;
  accuracy : Q;
  wer : Q;
  cer : Q;
  bleu : R;
  errors : list ErrorDetail;
  source_info : option (dict str str)
}.

Record TextComparator : Type := { normalize : bool }.

Definition _normalize_text (self : TextComparator) (text : str) : str :=
  if negb (normalize self) then text
  else
    let text := replace IDEOGRAPHIC_SPACE SPACE text in
    let text := sub_blank_runs false text in
    strip text.

(** The [ErrorDetail] that the list comprehension of [compare] makes
    of an entry [e]. *)
Definition error_detail_of (e : error_entry) : ErrorDetail :=
  {| position := e_position e;
     reference_text := e_reference e;
     hypothesis_text := e_hypothesis e;
     error_type := e_error_type e |}.

Definition compare (libs : Libraries) (self : TextComparator)
    (reference hypothesis : str) (source_info : option (dict str str))
    : option ComparisonResult :=
  let ref_normalized := _normalize_text self reference in
  let hyp_normalized := _normalize_text self hypothesis in
  accuracy ← calculate_accuracy libs ref_normalized hyp_normalized;
  wer ← calculate_wer libs ref_normalized hyp_normalized;
  cer ← calculate_cer libs ref_normalized hyp_normalized;
  bleu ← calculate_bleu libs ref_normalized hyp_normalized;
  error_details_raw ← get_error_details ref_normalized hyp_normalized;
  let errors := error_detail_of <$> error_details_raw in
  Some {| reference := reference; hypothesis := hypothesis;
          accuracy := accuracy; wer := wer; cer := cer; bleu := bleu;
          errors := errors; source_info := source_info |}.

(** [compare_batch(pairs, source_infos)]: [zip] stops at the end of the
    shorter of the two lists. *)
Definition compare_batch (libs : Libraries) (self : TextComparator)
    (pairs : list (str * str)) (source_infos : option (list (option (dict str str))))
    : option (list ComparisonResult) :=
  let source_infos :=
    match source_infos with
    | None => replicate (length pairs) None
    | Some infos => infos
    end in
  for_each (fun results '((ref, hyp), info) =>
              result ← compare libs self ref hyp info;
              Some (results ++ [result]))
    (zip pairs source_infos) [].

(** The dictionary that [summarize] returns. *)
Record Summary : Type := {
  total_items : nat;
  avg_accuracy : Q;
  avg_wer : Q;
  avg_cer : Q;
  avg_bleu : R;
  total_errors : nat;
  error_breakdown : dict str nat
}.

(** The two nested loops of [summarize] over the errors of the results:
    the state is [(error_breakdown, total_errors)]. *)
Definition count_error (st : dict str nat * nat) (error : ErrorDetail) : dict str nat * nat :=
  let '(error_breakdown, total_errors) := st in
  (dict_set error_breakdown (error_type error)
     (dict_get error_breakdown (error_type error) 0 + 1),
   total_errors + 1).

Definition count_errors (results : list ComparisonResult) : dict str nat * nat :=
  foldl (fun st result => foldl count_error st (errors result)) ([], 0) results.

Definition summarize (self : TextComparator) (results : list ComparisonResult)
    : option Summary :=
  match results with
  | [] =>
      Some {| total_items := 0; avg_accuracy := 0; avg_wer := 0; avg_cer := 0;
              avg_bleu := 0; total_errors := 0; error_breakdown := [] |}
  | _ =>
      avg_accuracy ← div_count (foldl Qplus 0%Q (accuracy <$> results)) (length results);
      avg_wer ← div_count (foldl Qplus 0%Q (wer <$> results)) (length results);
      avg_cer ← div_count (foldl Qplus 0%Q (cer <$> results)) (length results);
      avg_bleu ← div_count_R (foldl Rplus 0%R (bleu <$> results)) (length results);
      let '(error_breakdown, total_errors) := count_errors results in
      Some {| total_items := length results;
              avg_accuracy := round avg_accuracy 2;
              avg_wer := round avg_wer 4;
              avg_cer := round avg_cer 4;
              avg_bleu := round_R avg_bleu 2;
              total_errors := total_errors;
              error_breakdown := error_breakdown |}
  end.

End Comparator.

(** ** What the tables of the code hold, stated with [lev] *)

Module Spec.
Import Py Metrics.

(** The row of the rolling-row distance after the prefix [p] of the
    first sequence: the distances to the first [k] prefixes of [s2]. *)
Definition lev_row {A} `{EqDecision A} (p s2 : list A) (k : nat) : list nat :=
  (fun j => lev p (take j s2)) <$> seq 0 k.

(** Cell [(i, j)] of [dp]. *)
Definition dp_spec (ref_chars hyp_chars : str) (i j : nat) : nat :=
  lev (take i ref_chars) (take j hyp_chars).

(** Cell [(i, j)] of [ops]. *)
Definition ops_spec (ref_chars hyp_chars : str) (i j : nat) : option op :=
  if i =? 0 then
    if j =? 0 then None
    else h ← hyp_chars !! (j - 1); Some (insert, [], [h])
  else if j =? 0 then r ← ref_chars !! (i - 1); Some (delete, [r], [])
  else
    r ← ref_chars !! (i - 1);
    h ← hyp_chars !! (j - 1);
    if decide (r = h) then Some (match_, [r], [h])
    else snd <$> min_key fst (costs r h (dp_spec ref_chars hyp_chars (i - 1) j)
                                        (dp_spec ref_chars hyp_chars i (j - 1))
                                        (dp_spec ref_chars hyp_chars (i - 1) (j - 1))).

(** A table has [m + 1] rows of [n + 1] cells. *)
Definition shape {X} (m n : nat) (t : list (list X)) : Prop :=
  length t = S m /\ forall i row, t !! i = Some row -> length row = S n.

(** A table of that shape that holds [spec i j] in the cells that [P]
    selects. *)
Definition table_ok {X} (m n : nat) (spec : nat -> nat -> X)
    (P : nat -> nat -> Prop) (t : list (list X)) : Prop :=
  shape m n t /\
  forall i j, i <= m -> j <= n -> P i j -> get2 t i j = Some (spec i j).

(** Both tables of [get_error_details] hold the specified values in
    the cells selected. *)
Definition tables_ok (ref_chars hyp_chars : str) (Pd Po : nat -> nat -> Prop)
    (T : tables) : Prop :=
  table_ok (length ref_chars) (length hyp_chars) (dp_spec ref_chars hyp_chars) Pd (dp T)
  /\ table_ok (length ref_chars) (length hyp_chars) (ops_spec ref_chars hyp_chars) Po (ops T).

(** The cells that are final when the main loop is about to fill
    cell [(i, j)]. *)
Definition filled (i j i' j' : nat) : Prop :=
  i' = 0 \/ j' = 0 \/ i' < i \/ (i' = i /\ j' < j).

(** The positions of a list of entries. *)
Definition positions (errors : list error_entry) : list Z := e_position <$> errors.

(** The entry that the backtrace appends for a label that is not
    ['match']. *)
Definition entry (position : Z) (t : op_type) (r h : str) : error_entry :=
  {| e_type := t; e_position := position; e_reference := r; e_hypothesis := h;
     e_error_type := _classify_error t r h |}.

(** What the backtrace appends when it starts at a cell that is
    [steps] away from the origin with the counter at [position]: [d]
    entries, in decreasing order of position, all within the last
    [steps] values of the counter. *)
Definition trace_ok (position : Z) (steps d : nat) (new : list error_entry) : Prop :=
  length new = d
  /\ StronglySorted Z.gt (positions new)
  /\ Forall (fun p => position - Z.of_nat steps < p <= position)%Z (positions new).

(** How often [g] occurs in [l]. *)
Fixpoint occurrences {K} `{EqDecision K} (g : K) (l : list K) : nat :=
  match l with
  | [] => 0
  | x :: l' => (if decide (g = x) then 1 else 0) + occurrences g l'
  end.

(** The clipped matches: every distinct n-gram of the hypothesis counts
    as often as it occurs there, but at most as often as it occurs in
    the reference. *)
Definition clipped_matches {K} `{EqDecision K} (ref_grams hyp_grams : list K) : nat :=
  sum_list_with (fun g => Nat.min (occurrences g hyp_grams) (occurrences g ref_grams))
    (remove_dups hyp_grams).

(** What one pass of the loop of [_simple_bleu] computes, over the
    list that [get_ngrams] walks through: clipped matches over the
    number of n-grams of the hypothesis, and 0 when it has none. *)
Definition precision (ref_words hyp_words : list str) (n : nat) : Q :=
  match ngram_list hyp_words n with
  | [] => 0%Q
  | hyp_grams =>
      (inject_Z (Z.of_nat (clipped_matches (ngram_list ref_words n) hyp_grams))
       / inject_Z (Z.of_nat (length hyp_grams)))%Q
  end.

(** The word n-grams of a text as the specification words them: the
    runs of [n] consecutive words, one for every place of the text where
    such a run starts, from left to right ([n] is at least 1). *)
Fixpoint word_ngrams (n : nat) (words : list str) : list (list str) :=
  match words with
  | [] => []
  | _ :: rest =>
      if n <=? length words then take n words :: word_ngrams n rest else []
  end.

(** [gram] occurs in [words] as a run of consecutive words. *)
Definition occurs_in (gram words : list str) : Prop :=
  exists before after, words = before ++ gram ++ after.

(** The modified precision of order [n] over these n-grams: each n-gram
    of the hypothesis counts at most as often as it occurs in the
    reference, the sum is divided by the number of n-grams of the
    hypothesis, and the precision is 0 when the hypothesis has none. *)
Definition modified_precision (ref_words hyp_words : list str) (n : nat) : Q :=
  match word_ngrams n hyp_words with
  | [] => 0%Q
  | hyp_grams =>
      (inject_Z (Z.of_nat (clipped_matches (word_ngrams n ref_words) hyp_grams))
       / inject_Z (Z.of_nat (length hyp_grams)))%Q
  end.

(** Runs of blanks are single spaces: every blank of [s] is a space
    and no blank follows a blank; [after_blank] tells that the
    character before [s] is one. *)
Fixpoint single_spaced (after_blank : bool) (s : str) : Prop :=
  match s with
  | [] => True
  | c :: s' =>
      if isspace c
      then c = SPACE /\ after_blank = false /\ single_spaced true s'
      else single_spaced false s'
  end.

(** [s] does not begin with a blank. *)
Definition no_leading_blank (s : str) : Prop :=
  match s with
  | [] => True
  | c :: _ => isspace c = false
  end.

(** Inputs used to evaluate the code. *)
Definition text_ab : str := [97; 98]%N.                 (* 'ab' *)
Definition text_ba : str := [98; 97]%N.                 (* 'ba' *)
Definition text_cd : str := [99; 100]%N.                (* 'cd' *)
Definition text_abcd : str := [97; 98; 99; 100]%N.      (* 'abcd' *)
Definition text_cdef : str := [99; 100; 101; 102]%N.    (* 'cdef' *)

(** The built-in rates in closed form. *)
Definition cer_closed (reference hypothesis : str) : Q :=
  match reference, hypothesis with
  | [], [] => 0
  | [], _ => 1
  | _, _ => inject_Z (Z.of_nat (lev reference hypothesis))
            / inject_Z (Z.of_nat (length reference))
  end%Q.

Definition wer_closed (reference hypothesis : str) : Q :=
  match split reference, split hypothesis with
  | [], [] => 0
  | [], _ => 1
  | ref_words, hyp_words =>
      inject_Z (Z.of_nat (lev (join [SPACE] ref_words) (join [SPACE] hyp_words)))
      / inject_Z (Z.of_nat (length ref_words))
  end%Q.

Definition accuracy_closed (reference hypothesis : str) : Q :=
  match reference, hypothesis with
  | [], [] => 100
  | [], _ => 0
  | _, _ =>
      round (max0 ((1 - inject_Z (Z.of_nat (lev reference hypothesis))
                        / inject_Z (Z.of_nat (length reference))) * 100)) 2
  end%Q.

(** A reference of 40000 times ['a'] and the hypothesis that differs
    from it in the first character. *)
Definition long_reference : str := 97%N :: replicate (N.to_nat 39999) 97%N.
Definition long_hypothesis : str := 98%N :: replicate (N.to_nat 39999) 97%N.

(** The tables that [get_error_details('ab', 'ba')] builds. *)
Definition tables_ab_ba : tables :=
  {| dp := [[0; 1; 2]; [1; 1; 1]; [2; 1; 2]];
     ops := [ [None; Some (insert, [], [98%N]); Some (insert, [], [97%N])];
              [Some (delete, [97%N], []); Some (substitute, [97%N], [98%N]);
               Some (match_, [97%N], [97%N])];
              [Some (delete, [98%N], []); Some (match_, [98%N], [98%N]);
               Some (delete, [98%N], [])] ] |}.

(** The entries that a backtrace from cell [(i, j)] appends when the
    counter is at [position]: one step per constructor, the last step of
    the alignment first. *)
Inductive edit_trace (ref_chars hyp_chars : str)
    : nat -> nat -> Z -> list error_entry -> Prop :=
| trace_origin position : edit_trace ref_chars hyp_chars 0 0 position []
| trace_delete i j position r new :
    ref_chars !! i = Some r ->
    edit_trace ref_chars hyp_chars i j (position - 1) new ->
    edit_trace ref_chars hyp_chars (S i) j position (entry position delete [r] [] :: new)
| trace_insert i j position h new :
    hyp_chars !! j = Some h ->
    edit_trace ref_chars hyp_chars i j (position - 1) new ->
    edit_trace ref_chars hyp_chars i (S j) position (entry position insert [] [h] :: new)
| trace_substitute i j position r h new :
    ref_chars !! i = Some r -> hyp_chars !! j = Some h -> r <> h ->
    edit_trace ref_chars hyp_chars i j (position - 1) new ->
    edit_trace ref_chars hyp_chars (S i) (S j) position
      (entry position substitute [r] [h] :: new)
| trace_match i j position r new :
    ref_chars !! i = Some r -> hyp_chars !! j = Some r ->
    edit_trace ref_chars hyp_chars i j (position - 1) new ->
    edit_trace ref_chars hyp_chars (S i) (S j) position new.

(** An entry is a deletion of a character of the reference, an
    insertion of a character of the hypothesis, or the substitution of
    one by a different other, with the label of its kind. *)
Definition entry_shape (reference hypothesis : str) (e : error_entry) : Prop :=
  (e_type e = delete /\ e_error_type e = DELETION /\ e_hypothesis e = []
   /\ exists c, e_reference e = [c] /\ c ∈ reference)
  \/ (e_type e = insert /\ e_error_type e = INSERTION /\ e_reference e = []
      /\ exists c, e_hypothesis e = [c] /\ c ∈ hypothesis)
  \/ (e_type e = substitute /\ e_error_type e = SUBSTITUTION
      /\ exists r h, e_reference e = [r] /\ e_hypothesis e = [h] /\ r <> h
                     /\ r ∈ reference /\ h ∈ hypothesis).

(** How many entries of a list have the label [t]. *)
Definition count_type (t : op_type) (errors : list error_entry) : nat :=
  length (filter (fun e => e_type e = t) errors).

(** The characters that the entries take from the reference and the
    characters that they bring from the hypothesis, in list order. *)
Definition reference_chars (errors : list error_entry) : str :=
  errors ≫= e_reference.

Definition hypothesis_chars (errors : list error_entry) : str :=
  errors ≫= e_hypothesis.

(** A word as [split] yields them: not empty and without a blank. *)
Definition is_word (w : str) : Prop := w <> [] /\ Forall (fun c => isspace c = false) w.

(** The last character of [s] is not a blank. *)
Definition no_trailing_blank (s : str) : Prop :=
  match last s with
  | Some c => isspace c = false
  | None => True
  end.

End Spec.

(** * Properties *)

Section Alignment.
Context {A : Type} `{EqDecision A}.
Implicit Types s t : list A.

Lemma for_each_cons {St X} (body : St -> X -> option St) x xs st :
  Py.for_each body (x :: xs) st = body st x ≫= Py.for_each body xs.
Proof. done. Qed.

Lemma alignment_nil_l t : alignment [] t (length t).
Proof. induction t; simpl; [constructor | by apply al_insert]. Qed.

Lemma alignment_nil_r s : alignment s [] (length s).
Proof. induction s; simpl; [constructor | by apply al_delete]. Qed.

Lemma alignment_length_l s t n : alignment s t n -> length s <= length t + n.
Proof. induction 1; simpl; lia. Qed.

Lemma alignment_length_r s t n : alignment s t n -> length t <= length s + n.
Proof. induction 1; simpl; lia. Qed.

Lemma alignment_sym s t n : alignment s t n -> alignment t s n.
Proof. induction 1; by constructor. Qed.

Lemma alignment_app s t n s' t' n' :
  alignment s t n -> alignment s' t' n' -> alignment (s ++ s') (t ++ t') (n + n').
Proof. intros H1 H2. induction H1; simpl; [done | by constructor ..]. Qed.

Lemma alignment_rev s t n : alignment s t n -> alignment (rev s) (rev t) n.
Proof.
  induction 1; simpl.
  - constructor.
  - replace n with (n + 0) by lia. apply alignment_app; [done |].
    apply al_keep, al_nil.
  - replace (S n) with (n + 1) by lia. apply alignment_app; [done |].
    apply al_substitute, al_nil.
  - replace (S n) with (n + 1) by lia.
    rewrite <- (app_nil_r (rev t)). apply alignment_app; [done |].
    apply al_delete, al_nil.
  - replace (S n) with (n + 1) by lia.
    rewrite <- (app_nil_r (rev s)). apply alignment_app; [done |].
    apply al_insert, al_nil.
Qed.

End Alignment.

Section Lev.
Context {A : Type} `{EqDecision A}.
Implicit Types s t : list A.

Lemma lev_nil_l t : lev [] t = length t.
Proof. done. Qed.

Lemma lev_nil_r s : lev s [] = length s.
Proof. by destruct s. Qed.

Lemma lev_cons_eq a s t : lev (a :: s) (a :: t) = lev s t.
Proof. simpl. by rewrite decide_True. Qed.

Lemma lev_cons_ne a b s t :
  a <> b ->
  lev (a :: s) (b :: t)
  = S (Nat.min (Nat.min (lev s (b :: t)) (lev (a :: s) t)) (lev s t)).
Proof. intros Hab. simpl. by rewrite decide_False. Qed.

(** The recursion builds an alignment of its own cost... *)
Lemma lev_alignment s t : alignment s t (lev s t).
Proof.
  revert t. induction s as [|a s IHs]; intros t.
  - apply alignment_nil_l.
  - induction t as [|b t IHt].
    + rewrite lev_nil_r. apply alignment_nil_r.
    + destruct (decide (a = b)) as [->|Hab].
      * rewrite lev_cons_eq. by apply al_keep.
      * rewrite lev_cons_ne by done.
        destruct (Nat.min_spec (lev s (b :: t)) (lev (a :: s) t)) as [[? ->]|[? ->]];
          destruct (Nat.min_spec (lev s (b :: t)) (lev s t)) as [[? E]|[? E]];
          destruct (Nat.min_spec (lev (a :: s) t) (lev s t)) as [[? E']|[? E']];
          rewrite ?E, ?E';
          first [ by apply al_delete | by apply al_insert | by apply al_substitute ].
Qed.

(** Dropping the first token of the target costs at most one more. *)
Lemma alignment_drop_target s b t n :
  alignment s (b :: t) n -> exists m, m <= S n /\ alignment s t m.
Proof.
  intros H0. remember (b :: t) as u eqn:Hu. revert b t Hu.
  induction H0 as [|a s u n H0 IH|a c s u n H0 IH|a s u n H0 IH|c s u n H0 IH];
    intros b t Hu.
  - done.
  - injection Hu as -> ->. exists (S n). split; [lia | by apply al_delete].
  - injection Hu as -> ->. exists (S n). split; [lia | by apply al_delete].
  - destruct (IH _ _ Hu) as (m & Hm & Hal).
    exists (S m). split; [lia | by apply al_delete].
  - injection Hu as -> ->. exists n. split; [lia | done].
Qed.

Lemma alignment_drop_source a s t n :
  alignment (a :: s) t n -> exists m, m <= S n /\ alignment s t m.
Proof.
  intros H0%alignment_sym%alignment_drop_target.
  destruct H0 as (m & Hm & Hal). exists m. split; [done | by apply alignment_sym].
Qed.

(** ... and no alignment is cheaper. *)
Lemma lev_minimal s t n : alignment s t n -> lev s t <= n.
Proof.
  remember (length s + length t) as k eqn:Hk.
  revert s t n Hk. induction (lt_wf k) as [k _ IH]. intros s t n -> Hal.
  assert (IH' : forall s' t' n', length s' + length t' < length s + length t ->
                  alignment s' t' n' -> lev s' t' <= n').
  { intros s' t' n' Hlt Hal'. by eapply (IH _ Hlt). }
  clear IH. inversion Hal as [|a s0 t0 n0 H0|a b s0 t0 n0 H0|a s0 t0 n0 H0|b s0 t0 n0 H0];
    subst.
  - done.
  - rewrite lev_cons_eq. apply IH'; [simpl; lia | done].
  - destruct (decide (a = b)) as [->|Hab].
    + rewrite lev_cons_eq. etrans; [apply IH'; [simpl; lia | done] | lia].
    + rewrite lev_cons_ne by done.
      assert (lev s0 t0 <= n0) by (apply IH'; [simpl; lia | done]). lia.
  - destruct t as [|b t0].
    + rewrite lev_nil_r. apply alignment_length_l in Hal. simpl in *. lia.
    + destruct (decide (a = b)) as [->|Hab].
      * rewrite lev_cons_eq.
        destruct (alignment_drop_target _ _ _ _ H0) as (m & Hm & Hal').
        etrans; [apply (IH' _ _ m); [simpl; lia | done] | lia].
      * rewrite lev_cons_ne by done.
        assert (lev s0 (b :: t0) <= n0) by (apply IH'; [simpl; lia | done]). lia.
  - destruct s as [|a s0'].
    + simpl. apply alignment_length_r in Hal. simpl in *. lia.
    + destruct (decide (a = b)) as [->|Hab].
      * rewrite lev_cons_eq.
        destruct (alignment_drop_source _ _ _ _ H0) as (m & Hm & Hal').
        etrans; [apply (IH' _ _ m); [simpl; lia | done] | lia].
      * rewrite lev_cons_ne by done.
        assert (lev (a :: s0') t0 <= n0) by (apply IH'; [simpl; lia | done]). lia.
Qed.

Lemma lev_edit_distance s t : edit_distance s t (lev s t).
Proof. split; [apply lev_alignment | apply lev_minimal]. Qed.

Lemma edit_distance_unique s t d : edit_distance s t d -> d = lev s t.
Proof.
  intros [Hal Hmin]. apply Nat.le_antisymm.
  - apply Hmin, lev_alignment.
  - by apply lev_minimal.
Qed.

Lemma lev_sym s t : lev s t = lev t s.
Proof.
  apply Nat.le_antisymm; apply lev_minimal, alignment_sym, lev_alignment.
Qed.

Lemma lev_rev s t : lev (rev s) (rev t) = lev s t.
Proof.
  apply Nat.le_antisymm.
  - apply lev_minimal, alignment_rev, lev_alignment.
  - rewrite <- (rev_involutive s), <- (rev_involutive t) at 1.
    apply lev_minimal, alignment_rev, lev_alignment.
Qed.

Lemma lev_drop_target s b t : lev s t <= S (lev s (b :: t)).
Proof.
  destruct (alignment_drop_target _ _ _ _ (lev_alignment s (b :: t))) as (m & Hm & Hal).
  apply lev_minimal in Hal. lia.
Qed.

Lemma lev_drop_source a s t : lev s t <= S (lev (a :: s) t).
Proof. rewrite (lev_sym s), (lev_sym (a :: s)). apply lev_drop_target. Qed.

Lemma lev_refl s : lev s s = 0.
Proof. induction s; [done | by rewrite lev_cons_eq]. Qed.

Lemma alignment_zero s t n : alignment s t n -> n = 0 -> s = t.
Proof. induction 1; intros Hn; try done. by rewrite IHalignment. Qed.

Lemma lev_zero s t : lev s t = 0 <-> s = t.
Proof.
  split; [| intros ->; apply lev_refl].
  intros H0. eapply alignment_zero; [apply lev_alignment | done].
Qed.

Lemma lev_length_diff s t : length s <= length t + lev s t.
Proof. apply alignment_length_l, lev_alignment. Qed.

(** The recurrence on the last tokens, in the two forms the code uses:
    with the shortcut on equal tokens, and as a minimum of three. *)
Lemma lev_snoc_eq a s t : lev (s ++ [a]) (t ++ [a]) = lev s t.
Proof. by rewrite <- lev_rev, !rev_unit, lev_cons_eq, lev_rev. Qed.

Lemma lev_snoc_ne a b s t :
  a <> b ->
  lev (s ++ [a]) (t ++ [b])
  = S (Nat.min (Nat.min (lev s (t ++ [b])) (lev (s ++ [a]) t)) (lev s t)).
Proof.
  intros Hab. rewrite <- lev_rev, !rev_unit, lev_cons_ne by done.
  by rewrite <- (rev_unit t b), <- (rev_unit s a), !lev_rev.
Qed.

Lemma lev_snoc a b s t :
  lev (s ++ [a]) (t ++ [b])
  = Nat.min (Nat.min (lev s (t ++ [b]) + 1) (lev (s ++ [a]) t + 1))
            (lev s t + Metrics.differ a b).
Proof.
  unfold Metrics.differ. destruct (decide (a = b)) as [->|Hab].
  - rewrite lev_snoc_eq.
    pose proof (lev_drop_target (rev s) b (rev t)) as H1.
    pose proof (lev_drop_source b (rev s) (rev t)) as H2.
    rewrite <- (rev_unit t b), lev_rev in H1.
    rewrite <- (rev_unit s b), !lev_rev in H2. rewrite lev_rev in H1. lia.
  - rewrite lev_snoc_ne by done. lia.
Qed.

End Lev.

(** ** The rolling-row distance *)

Section RollingRows.
Context {A : Type} `{EqDecision A}.
Implicit Types s p : list A.
Import Py Metrics Spec.
#[local] Arguments lev_row : simpl never.

Lemma lev_row_lookup p s2 k j :
  j < k -> lev_row p s2 k !! j = Some (lev p (take j s2)).
Proof.
  intros Hj. unfold lev_row. rewrite list_lookup_fmap, lookup_seq_lt by done.
  done.
Qed.

Lemma lev_row_S p s2 k :
  lev_row p s2 (S k) = lev_row p s2 k ++ [lev p (take k s2)].
Proof. unfold lev_row. by rewrite seq_S, fmap_app. Qed.

Lemma lev_row_nil s2 k : k <= S (length s2) -> lev_row [] s2 k = seq 0 k.
Proof.
  intros Hk. unfold lev_row. rewrite <- (list_fmap_id (seq 0 k)) at 2.
  apply list_fmap_ext. intros i j Hj%lookup_seq. simpl.
  rewrite length_take. lia.
Qed.

Lemma row_step_Some (prev cur : list nat) (c1 c2 : A) j a b c :
  prev !! (j + 1) = Some a -> cur !! j = Some b -> prev !! j = Some c ->
  row_step prev c1 cur (j, c2)
  = Some (cur ++ [Nat.min (Nat.min (a + 1) (b + 1)) (c + differ c1 c2)]).
Proof. intros Ha Hb Hc. unfold row_step. by rewrite Ha, Hb, Hc. Qed.

Lemma inner_loop p c1 s2 done rest :
  s2 = done ++ rest ->
  for_each (row_step (lev_row p s2 (S (length s2))) c1)
    (enumerate_from (length done) rest)
    (lev_row (p ++ [c1]) s2 (S (length done)))
  = Some (lev_row (p ++ [c1]) s2 (S (length s2))).
Proof.
  revert done. induction rest as [|c2 rest IH]; intros done Hs2.
  - rewrite Hs2, app_nil_r. done.
  - assert (Hlen : length s2 = length done + S (length rest)).
    { rewrite Hs2, length_app. done. }
    assert (Htk : take (length done + 1) s2 = take (length done) s2 ++ [c2]).
    { rewrite Nat.add_1_r. apply take_S_r.
      rewrite Hs2, lookup_app_r, Nat.sub_diag by lia. done. }
    change (enumerate_from (length done) (c2 :: rest))
      with ((length done, c2) :: enumerate_from (S (length done)) rest).
    rewrite for_each_cons.
    erewrite row_step_Some by (apply lev_row_lookup; lia).
    rewrite Htk, <- lev_snoc, <- Htk, Nat.add_1_r.
    rewrite <- (lev_row_S (p ++ [c1]) s2 (S (length done))).
    specialize (IH (done ++ [c2])). rewrite length_app, Nat.add_1_r in IH.
    apply IH. by rewrite <- app_assoc.
Qed.

Lemma next_row_correct p c1 s2 :
  next_row s2 (lev_row p s2 (S (length s2))) (length p, c1)
  = Some (lev_row (p ++ [c1]) s2 (S (length s2))).
Proof.
  unfold next_row, enumerate.
  replace [length p + 1] with (lev_row (p ++ [c1]) s2 (S (length (@nil A)))).
  - by apply (inner_loop p c1 s2 []).
  - unfold lev_row. simpl. rewrite take_0, lev_nil_r, length_app. done.
Qed.

Lemma outer_loop s1 s2 p rest :
  s1 = p ++ rest ->
  for_each (next_row s2) (enumerate_from (length p) rest)
    (lev_row p s2 (S (length s2)))
  = Some (lev_row s1 s2 (S (length s2))).
Proof.
  revert p. induction rest as [|c1 rest IH]; intros p Hs1.
  - simpl. by rewrite Hs1, app_nil_r.
  - change (enumerate_from (length p) (c1 :: rest))
      with ((length p, c1) :: enumerate_from (S (length p)) rest).
    rewrite for_each_cons, next_row_correct.
    specialize (IH (p ++ [c1])). rewrite length_app, Nat.add_1_r in IH.
    apply IH. by rewrite <- app_assoc.
Qed.

Lemma levenshtein_rows_correct s1 s2 : levenshtein_rows s1 s2 = Some (lev s1 s2).
Proof.
  unfold levenshtein_rows. destruct (Nat.eqb_spec (length s2) 0) as [H0|H0].
  - apply nil_length_inv in H0 as ->. by rewrite lev_nil_r.
  - unfold enumerate. rewrite Nat.add_1_r.
    rewrite <- (lev_row_nil s2 (S (length s2))) by lia.
    pose proof (outer_loop s1 s2 [] s1 eq_refl) as Hloop.
    change (length (@nil A)) with 0 in Hloop. rewrite Hloop.
    change (last (lev_row s1 s2 (S (length s2))) = Some (lev s1 s2)).
    rewrite lev_row_S, last_snoc, firstn_all. done.
Qed.

(** The built-in distance is the edit distance, whatever the lengths. *)
Lemma levenshtein_distance_lev s1 s2 : _levenshtein_distance s1 s2 = Some (lev s1 s2).
Proof.
  unfold _levenshtein_distance. destruct (length s1 <? length s2).
  - rewrite levenshtein_rows_correct. f_equal. apply lev_sym.
  - apply levenshtein_rows_correct.
Qed.

End RollingRows.

(** ** Loops over a [range] and tables of rows *)

Section Loops.
Import Py Spec.

Lemma for_each_seq_inv {St} (body : St -> nat -> option St) (I : nat -> St -> Prop) a k st :
  I a st ->
  (forall i st, a <= i < a + k -> I i st -> exists st', body st i = Some st' /\ I (S i) st') ->
  exists st', for_each body (seq a k) st = Some st' /\ I (a + k) st'.
Proof.
  revert a st. induction k as [|k IH]; intros a st Ha Hstep.
  - exists st. rewrite Nat.add_0_r. done.
  - destruct (Hstep a st) as (st1 & Hb & H1); [lia | done |].
    destruct (IH (S a) st1) as (st' & Hrun & H'); [done | |].
    + intros i st2 Hi. apply Hstep. lia.
    + exists st'. change (seq a (S k)) with (a :: seq (S a) k).
      rewrite for_each_cons, Hb. simpl. split; [done |].
      by replace (a + S k) with (S a + k) by lia.
Qed.

Context {X : Type}.
Implicit Types t : list (list X).

Lemma shape_replicate m n (x : X) : shape m n (replicate (m + 1) (replicate (n + 1) x)).
Proof.
  split.
  - rewrite length_replicate. lia.
  - intros i row [-> _]%lookup_replicate. rewrite length_replicate. lia.
Qed.

Lemma shape_get2 m n t i j : shape m n t -> i <= m -> j <= n -> is_Some (get2 t i j).
Proof.
  intros [Hlen Hrows] Hi Hj. unfold get2.
  destruct (lookup_lt_is_Some_2 t i) as [row Hrow]; [lia |].
  rewrite Hrow. simpl. apply lookup_lt_is_Some_2.
  rewrite (Hrows _ _ Hrow). lia.
Qed.

Lemma shape_set2 m n t i j v :
  shape m n t -> i <= m -> j <= n ->
  exists t', set2 t i j v = Some t' /\ shape m n t' /\ get2 t' i j = Some v /\
    forall i' j', (i' <> i \/ j' <> j) -> get2 t' i' j' = get2 t i' j'.
Proof.
  intros [Hlen Hrows] Hi Hj. unfold set2.
  destruct (lookup_lt_is_Some_2 t i) as [row Hrow]; [lia |].
  pose proof (Hrows _ _ Hrow) as Hrowlen.
  rewrite Hrow. simpl. rewrite decide_True by lia.
  eexists. split; [done |]. split; [|split].
  - split; [by rewrite length_insert |].
    intros i' row'. destruct (decide (i = i')) as [<-|Hne].
    + rewrite list_lookup_insert_eq by lia. intros [= <-].
      by rewrite length_insert.
    + rewrite list_lookup_insert_ne by done. apply Hrows.
  - unfold get2. rewrite list_lookup_insert_eq by lia. simpl.
    apply list_lookup_insert_eq. lia.
  - intros i' j' Hne. unfold get2. destruct (decide (i = i')) as [<-|Hne'].
    + rewrite list_lookup_insert_eq, Hrow by lia. simpl.
      apply list_lookup_insert_ne. intros ->. by destruct Hne.
    + by rewrite list_lookup_insert_ne.
Qed.

Lemma table_ok_weaken m n (spec : nat -> nat -> X) (P Q : nat -> nat -> Prop) t :
  table_ok m n spec P t -> (forall i j, i <= m -> j <= n -> Q i j -> P i j) ->
  table_ok m n spec Q t.
Proof. intros [Hsh Hok] HQP. split; [done |]. intros i j Hi Hj HQ. by apply Hok, HQP. Qed.

Lemma table_ok_read m n (spec : nat -> nat -> X) P t i j :
  table_ok m n spec P t -> i <= m -> j <= n -> P i j -> get2 t i j = Some (spec i j).
Proof. intros [_ Hok]. apply Hok. Qed.

Lemma table_ok_write m n (spec : nat -> nat -> X) P t i j v :
  table_ok m n spec P t -> i <= m -> j <= n -> v = spec i j ->
  exists t', set2 t i j v = Some t' /\
    table_ok m n spec (fun i' j' => P i' j' \/ (i' = i /\ j' = j)) t'.
Proof.
  intros [Hsh Hok] Hi Hj ->.
  destruct (shape_set2 m n t i j (spec i j) Hsh Hi Hj) as (t' & Hset & Hsh' & Hget & Hother).
  exists t'. split; [done |]. split; [done |].
  intros i' j' Hi' Hj' [HP|[-> ->]]; [| done].
  destruct (decide (i' = i)) as [->|Hne]; [destruct (decide (j' = j)) as [->|Hne'] |].
  - done.
  - rewrite Hother by auto. by apply Hok.
  - rewrite Hother by auto. by apply Hok.
Qed.

End Loops.

(** ** The tables of [get_error_details] *)

Section Tables.
Import Py Metrics Spec.
Variables ref_chars hyp_chars : str.
Local Abbreviation m := (length ref_chars).
Local Abbreviation n := (length hyp_chars).
Local Abbreviation D := (dp_spec ref_chars hyp_chars).
Local Abbreviation O := (ops_spec ref_chars hyp_chars).

Local Abbreviation tables_ok := (Spec.tables_ok ref_chars hyp_chars).

Lemma dp_spec_row0 j : j <= n -> D 0 j = j.
Proof. intros Hj. unfold dp_spec. rewrite take_0, lev_nil_l, length_take. lia. Qed.

Lemma dp_spec_col0 i : i <= m -> D i 0 = i.
Proof. intros Hi. unfold dp_spec. rewrite take_0, lev_nil_r, length_take. lia. Qed.

Lemma ops_spec_col0 i r :
  ref_chars !! i = Some r -> O (S i) 0 = Some (delete, [r], []).
Proof. intros Hr. unfold ops_spec. simpl. rewrite Nat.sub_0_r, Hr. done. Qed.

Lemma ops_spec_row0 j h :
  hyp_chars !! j = Some h -> O 0 (S j) = Some (insert, [], [h]).
Proof. intros Hh. unfold ops_spec. simpl. rewrite Nat.sub_0_r, Hh. done. Qed.

Lemma ops_spec_match i j r :
  ref_chars !! i = Some r -> hyp_chars !! j = Some r ->
  O (S i) (S j) = Some (match_, [r], [r]).
Proof.
  intros Hr Hh. unfold ops_spec. simpl. rewrite !Nat.sub_0_r, Hr, Hh. simpl.
  by rewrite decide_True.
Qed.

Lemma ops_spec_differ i j r h :
  ref_chars !! i = Some r -> hyp_chars !! j = Some h -> r <> h ->
  O (S i) (S j) = snd <$> min_key fst (costs r h (D i (S j)) (D (S i) j) (D i j)).
Proof.
  intros Hr Hh Hne. unfold ops_spec.
  change (S i =? 0) with false. change (S j =? 0) with false.
  cbv iota. replace (S i - 1) with i by lia. replace (S j - 1) with j by lia.
  rewrite Hr, Hh. simpl. by rewrite decide_False.
Qed.

Lemma dp_spec_match i j r :
  ref_chars !! i = Some r -> hyp_chars !! j = Some r -> D (S i) (S j) = D i j.
Proof.
  intros Hr Hh. unfold dp_spec.
  rewrite (take_S_r _ _ _ Hr), (take_S_r _ _ _ Hh). apply lev_snoc_eq.
Qed.

Lemma dp_spec_differ i j r h :
  ref_chars !! i = Some r -> hyp_chars !! j = Some h -> r <> h ->
  D (S i) (S j) = S (Nat.min (Nat.min (D i (S j)) (D (S i) j)) (D i j)).
Proof.
  intros Hr Hh Hne. unfold dp_spec.
  rewrite (take_S_r _ _ _ Hr), (take_S_r _ _ _ Hh). by apply lev_snoc_ne.
Qed.

(** [min] over the three costs: the value is the least cost and the
    label is the first, in the order of the list, that has it. *)
Lemma min_key_costs r h up left diag :
  exists o, min_key fst (costs r h up left diag)
            = Some (S (Nat.min (Nat.min up left) diag), o) /\
    ( (o = (delete, [r], []) /\ up <= left /\ up <= diag)
      \/ (o = (insert, [], [h]) /\ left < up /\ left <= diag)
      \/ (o = (substitute, [r], [h]) /\ diag < up /\ diag < left) ).
Proof.
  unfold costs, min_key, min_from, fst.
  destruct (Nat.ltb_spec (left + 1) (up + 1));
    [destruct (Nat.ltb_spec (diag + 1) (left + 1))
    |destruct (Nat.ltb_spec (diag + 1) (up + 1))];
    eexists; (split; [f_equal; f_equal; lia |]); [right; right|right; left|right; right|left];
    (split; [done | lia]).
Qed.

Lemma init_column_loop :
  exists T, for_each (init_column ref_chars) (seq 0 (m + 1)) (init_tables m n) = Some T
    /\ tables_ok (fun _ j' => j' = 0) (fun _ j' => j' = 0) T.
Proof.
  destruct (for_each_seq_inv (init_column ref_chars)
    (fun i T => tables_ok (fun i' j' => j' = 0 /\ i' < i)
                          (fun i' j' => j' = 0 /\ (i' = 0 \/ i' < i)) T)
    0 (m + 1) (init_tables m n)) as (T & Hrun & [Hd Ho]).
  - split; (split; [apply shape_replicate |]).
    + intros i j _ _ [_ Hi]. lia.
    + intros i j _ _ [-> [->|Hi]]; [| lia]. unfold get2, init_tables, ops.
      rewrite lookup_replicate_2 by lia. simpl.
      rewrite lookup_replicate_2 by lia. done.
  - intros i T Hi [Hd Ho]. unfold init_column.
    destruct (table_ok_write _ _ _ _ _ i 0 i Hd) as (dp' & -> & Hd');
      [lia | lia | by rewrite dp_spec_col0 by lia |].
    simpl. destruct i as [|i].
    + simpl. eexists. split; [done |]. split; simpl.
      * eapply table_ok_weaken; [exact Hd' |]. cbv beta; intros; lia.
      * eapply table_ok_weaken; [exact Ho |]. cbv beta; intros; lia.
    + change (0 <? S i) with true. cbv iota. rewrite Nat.sub_succ, Nat.sub_0_r.
      destruct (lookup_lt_is_Some_2 ref_chars i) as [c Hc]; [lia |].
      rewrite Hc. simpl.
      destruct (table_ok_write _ _ _ _ _ (S i) 0 (Some (delete, [c], [])) Ho)
        as (ops' & -> & Ho'); [lia | lia | by rewrite (ops_spec_col0 _ _ Hc) |].
      simpl. eexists. split; [done |]. split; simpl.
      * eapply table_ok_weaken; [exact Hd' |]. cbv beta; intros; lia.
      * eapply table_ok_weaken; [exact Ho' |]. cbv beta; intros; lia.
  - exists T. split; [done |]. split.
    + eapply table_ok_weaken; [exact Hd |]. cbv beta; intros; lia.
    + eapply table_ok_weaken; [exact Ho |]. cbv beta; intros; lia.
Qed.

Lemma init_row_loop T0 :
  tables_ok (fun _ j' => j' = 0) (fun _ j' => j' = 0) T0 ->
  exists T, for_each (init_row hyp_chars) (seq 0 (n + 1)) T0 = Some T
    /\ tables_ok (filled 1 1) (filled 1 1) T.
Proof.
  intros [Hd0 Ho0].
  destruct (for_each_seq_inv (init_row hyp_chars)
    (fun j T => tables_ok (fun i' j' => j' = 0 \/ (i' = 0 /\ j' < j))
                          (fun i' j' => j' = 0 \/ (i' = 0 /\ j' < j)) T)
    0 (n + 1) T0) as (T & Hrun & [Hd Ho]).
  - split; (eapply table_ok_weaken; [eassumption |]); cbv beta; intros; lia.
  - intros j T Hj [Hd Ho]. unfold init_row.
    destruct (table_ok_write _ _ _ _ _ 0 j j Hd) as (dp' & -> & Hd');
      [lia | lia | by rewrite dp_spec_row0 by lia |].
    simpl. destruct j as [|j].
    + simpl. eexists. split; [done |]. split; simpl.
      * eapply table_ok_weaken; [exact Hd' |]. cbv beta; intros; lia.
      * eapply table_ok_weaken; [exact Ho |]. cbv beta; intros; lia.
    + change (0 <? S j) with true. cbv iota. rewrite Nat.sub_succ, Nat.sub_0_r.
      destruct (lookup_lt_is_Some_2 hyp_chars j) as [c Hc]; [lia |].
      rewrite Hc. simpl.
      destruct (table_ok_write _ _ _ _ _ 0 (S j) (Some (insert, [], [c])) Ho)
        as (ops' & -> & Ho'); [lia | lia | by rewrite (ops_spec_row0 _ _ Hc) |].
      simpl. eexists. split; [done |]. split; simpl.
      * eapply table_ok_weaken; [exact Hd' |]. cbv beta; intros; lia.
      * eapply table_ok_weaken; [exact Ho' |]. cbv beta; intros; lia.
  - exists T. unfold filled. split; [done |]. split.
    + eapply table_ok_weaken; [exact Hd |]. cbv beta; intros; lia.
    + eapply table_ok_weaken; [exact Ho |]. cbv beta; intros; lia.
Qed.

Lemma fill_cell_ok i j T :
  1 <= i <= m -> 1 <= j <= n ->
  tables_ok (filled i j) (filled i j) T ->
  exists T', fill_cell ref_chars hyp_chars i T j = Some T'
    /\ tables_ok (filled i (S j)) (filled i (S j)) T'.
Proof.
  intros Hi Hj [Hd Ho].
  destruct i as [|i]; [lia |]. destruct j as [|j]; [lia |].
  unfold fill_cell. rewrite !Nat.sub_succ, !Nat.sub_0_r.
  destruct (lookup_lt_is_Some_2 ref_chars i) as [r Hr]; [lia |].
  destruct (lookup_lt_is_Some_2 hyp_chars j) as [h Hh]; [lia |].
  rewrite Hr, Hh. cbn [mbind option_bind].
  assert (Hdiag : get2 (dp T) i j = Some (D i j)).
  { apply (table_ok_read _ _ _ _ _ _ _ Hd); unfold filled; lia. }
  assert (Hup : get2 (dp T) i (S j) = Some (D i (S j))).
  { apply (table_ok_read _ _ _ _ _ _ _ Hd); unfold filled; lia. }
  assert (Hleft : get2 (dp T) (S i) j = Some (D (S i) j)).
  { apply (table_ok_read _ _ _ _ _ _ _ Hd); unfold filled; lia. }
  destruct (decide (r = h)) as [<-|Hne].
  - rewrite Hdiag. simpl.
    destruct (table_ok_write _ _ _ _ _ (S i) (S j) (D i j) Hd) as (dp' & -> & Hd');
      [lia | lia | by rewrite (dp_spec_match _ _ _ Hr Hh) |].
    simpl.
    destruct (table_ok_write _ _ _ _ _ (S i) (S j) (Some (match_, [r], [r])) Ho)
      as (ops' & -> & Ho'); [lia | lia | by rewrite (ops_spec_match _ _ _ Hr Hh) |].
    simpl. eexists. split; [done |]. unfold filled in *. split; simpl.
    + eapply table_ok_weaken; [exact Hd' |]. cbv beta; intros; lia.
    + eapply table_ok_weaken; [exact Ho' |]. cbv beta; intros; lia.
  - rewrite Hup, Hleft, Hdiag. cbn [mbind option_bind].
    destruct (min_key_costs r h (D i (S j)) (D (S i) j) (D i j)) as (o & Hmin & _).
    pose proof (ops_spec_differ _ _ _ _ Hr Hh Hne) as HO.
    rewrite Hmin in HO |- *. cbn [mbind option_bind fmap option_fmap option_map snd] in HO |- *.
    destruct (table_ok_write _ _ _ _ _ (S i) (S j)
                (S (Nat.min (Nat.min (D i (S j)) (D (S i) j)) (D i j))) Hd)
      as (dp' & -> & Hd'); [lia | lia | by rewrite (dp_spec_differ _ _ _ _ Hr Hh) |].
    simpl.
    destruct (table_ok_write _ _ _ _ _ (S i) (S j) (Some o) Ho)
      as (ops' & -> & Ho'); [lia | lia | done |].
    simpl. eexists. split; [done |]. unfold filled in *. split; simpl.
    + eapply table_ok_weaken; [exact Hd' |]. cbv beta; intros; lia.
    + eapply table_ok_weaken; [exact Ho' |]. cbv beta; intros; lia.
Qed.

Lemma fill_row_ok i T :
  1 <= i <= m ->
  tables_ok (filled i 1) (filled i 1) T ->
  exists T', fill_row ref_chars hyp_chars T i = Some T'
    /\ tables_ok (filled (S i) 1) (filled (S i) 1) T'.
Proof.
  intros Hi HT. unfold fill_row.
  destruct (for_each_seq_inv (fill_cell ref_chars hyp_chars i)
    (fun j T => tables_ok (filled i j) (filled i j) T) 1 n T) as (T' & Hrun & [Hd Ho]).
  - done.
  - intros j T1 Hj HT1. apply fill_cell_ok; [done | lia | done].
  - exists T'. split; [done |]. unfold filled in *. split.
    + eapply table_ok_weaken; [exact Hd |]. cbv beta; intros; lia.
    + eapply table_ok_weaken; [exact Ho |]. cbv beta; intros; lia.
Qed.

(** The tables are built without an [IndexError], and they hold the
    distances between the prefixes and the labels that [ops_spec]
    gives. *)
Lemma build_tables_ok :
  exists T, build_tables ref_chars hyp_chars = Some T
    /\ tables_ok (fun _ _ => True) (fun _ _ => True) T.
Proof.
  unfold build_tables.
  destruct init_column_loop as (T1 & -> & H1). simpl.
  destruct (init_row_loop T1 H1) as (T2 & -> & H2). simpl.
  destruct (for_each_seq_inv (fill_row ref_chars hyp_chars)
    (fun i T => tables_ok (filled i 1) (filled i 1) T) 1 m T2) as (T & Hrun & [Hd Ho]).
  - done.
  - intros i T Hi HT. apply fill_row_ok; [lia | done].
  - exists T. split; [done |]. unfold filled in *. split.
    + eapply table_ok_weaken; [exact Hd |]. cbv beta; intros; lia.
    + eapply table_ok_weaken; [exact Ho |]. cbv beta; intros; lia.
Qed.

End Tables.

(** ** The backtrace *)

Section Backtrace.
Import Py Metrics Spec.
Variables ref_chars hyp_chars : str.
Variable T : tables.
Hypothesis HT : tables_ok ref_chars hyp_chars (fun _ _ => True) (fun _ _ => True) T.
Local Abbreviation m := (length ref_chars).
Local Abbreviation n := (length hyp_chars).
Local Abbreviation D := (dp_spec ref_chars hyp_chars).
Local Abbreviation O := (ops_spec ref_chars hyp_chars).

Lemma index_of_nat {X} (l : list X) (k : nat) : index l (Z.of_nat k) = l !! k.
Proof.
  unfold index. destruct (Z.leb_spec 0 (Z.of_nat k)); [| lia].
  by rewrite Nat2Z.id.
Qed.

Lemma backtrace_cell i j :
  i <= m -> j <= n ->
  (row ← index (ops T) (Z.of_nat i); index row (Z.of_nat j)) = Some (O i j).
Proof.
  intros Hi Hj. destruct HT as [_ Ho].
  rewrite <- (table_ok_read _ _ _ _ _ i j Ho Hi Hj I).
  unfold get2. rewrite index_of_nat. destruct (ops T !! i); [| done].
  simpl. apply index_of_nat.
Qed.

Lemma trace_ok_nil pos : trace_ok pos 0 0 [].
Proof. repeat split; constructor. Qed.

Lemma trace_ok_skip pos steps steps' d new :
  trace_ok (pos - 1) steps d new -> steps < steps' -> trace_ok pos steps' d new.
Proof.
  intros (Hlen & Hsort & Hall) Hst. split; [done |]. split; [done |].
  eapply Forall_impl; [exact Hall |]. cbv beta. intros; lia.
Qed.

Lemma trace_ok_cons pos steps steps' d e new :
  trace_ok (pos - 1) steps d new -> steps < steps' -> e_position e = pos ->
  trace_ok pos steps' (S d) (e :: new).
Proof.
  intros (Hlen & Hsort & Hall) Hst He. split; [simpl; lia |]. split.
  - unfold positions. rewrite fmap_cons. apply SSorted_cons; [done |].
    eapply Forall_impl; [exact Hall |]. cbv beta. intros; lia.
  - unfold positions. rewrite fmap_cons. apply Forall_cons. split; [lia |].
    eapply Forall_impl; [exact Hall |]. cbv beta. intros; lia.
Qed.

(** From cell [(i, j)] the loop stops after at most [i + j] iterations
    and appends as many entries as the distance of the two prefixes. *)
Lemma backtrace_from k :
  forall i j pos, i + j = k -> i <= m -> j <= n ->
  exists new, trace_ok pos (i + j) (D i j) new /\
    forall fuel errs, k < fuel ->
      backtrace fuel (ops T) (Z.of_nat i) (Z.of_nat j) pos errs = Returns (errs ++ new).
Proof.
  induction (lt_wf k) as [k _ IH]. intros i j pos Hk Hi Hj.
  destruct i as [|i]; [destruct j as [|j] |].
  - (* the origin: the loop condition fails *)
    exists []. split.
    + unfold dp_spec. rewrite !take_0. apply trace_ok_nil.
    + intros [|fuel] errs Hf; [lia |]. simpl. by rewrite app_nil_r.
  - (* first row: an insertion *)
    destruct (lookup_lt_is_Some_2 hyp_chars j) as [h Hh]; [lia |].
    destruct (IH j ltac:(lia) 0 j (pos - 1)%Z) as (new & Hnew & Hrun); [lia.. |].
    exists (entry pos insert [] [h] :: new). split.
    + rewrite dp_spec_row0 by lia. rewrite dp_spec_row0 in Hnew by lia.
      eapply trace_ok_cons; [exact Hnew | lia | done].
    + intros [|fuel] errs Hf; [lia |].
      cbn [backtrace]. rewrite backtrace_cell by lia.
      rewrite (ops_spec_row0 _ _ _ _ Hh).
      replace ((0 <? Z.of_nat 0) || (0 <? Z.of_nat (S j)))%Z with true
        by (symmetry; apply orb_true_iff; right; apply Z.ltb_lt; lia).
      cbv iota beta. rewrite decide_True by done.
      replace (Z.of_nat (S j) - 1)%Z with (Z.of_nat j) by lia.
      rewrite Hrun by lia. by rewrite <- app_assoc.
  - destruct (lookup_lt_is_Some_2 ref_chars i) as [r Hr]; [lia |].
    destruct j as [|j].
    + (* first column: a deletion *)
      destruct (IH i ltac:(lia) i 0 (pos - 1)%Z) as (new & Hnew & Hrun); [lia.. |].
      exists (entry pos delete [r] [] :: new). split.
      * rewrite dp_spec_col0 by lia. rewrite dp_spec_col0 in Hnew by lia.
        eapply trace_ok_cons; [exact Hnew | lia | done].
      * intros [|fuel] errs Hf; [lia |].
        cbn [backtrace]. rewrite backtrace_cell by lia.
        rewrite (ops_spec_col0 _ _ _ _ Hr).
        replace ((0 <? Z.of_nat (S i)) || (0 <? Z.of_nat 0))%Z with true
          by (symmetry; apply orb_true_iff; left; apply Z.ltb_lt; lia).
        cbv iota beta. rewrite decide_True by done.
        replace (Z.of_nat (S i) - 1)%Z with (Z.of_nat i) by lia.
        rewrite Hrun by lia. by rewrite <- app_assoc.
    + destruct (lookup_lt_is_Some_2 hyp_chars j) as [h Hh]; [lia |].
      assert (Hcond : ((0 <? Z.of_nat (S i)) || (0 <? Z.of_nat (S j)))%Z = true).
      { apply orb_true_iff; left; apply Z.ltb_lt; lia. }
      destruct (decide (r = h)) as [<-|Hne].
      * (* equal characters: no entry *)
        destruct (IH (i + j) ltac:(lia) i j (pos - 1)%Z) as (new & Hnew & Hrun); [lia.. |].
        exists new. split.
        -- rewrite (dp_spec_match _ _ _ _ _ Hr Hh).
           eapply trace_ok_skip; [exact Hnew | lia].
        -- intros [|fuel] errs Hf; [lia |].
           cbn [backtrace]. rewrite backtrace_cell by lia.
           rewrite (ops_spec_match _ _ _ _ _ Hr Hh), Hcond.
           cbv iota beta. rewrite decide_False by (intros Hx; by apply Hx).
           replace (Z.of_nat (S i) - 1)%Z with (Z.of_nat i) by lia.
           replace (Z.of_nat (S j) - 1)%Z with (Z.of_nat j) by lia.
           apply Hrun. lia.
      * (* different characters: the label of the least cost *)
        pose proof (ops_spec_differ _ _ _ _ _ _ Hr Hh Hne) as HO.
        pose proof (dp_spec_differ _ _ _ _ _ _ Hr Hh Hne) as HD.
        destruct (min_key_costs r h (D i (S j)) (D (S i) j) (D i j))
          as (o & Hmin & Hcase).
        rewrite Hmin in HO. cbn [fmap option_fmap option_map snd] in HO.
        destruct Hcase as [(-> & H1 & H2)|[(-> & H1 & H2)|(-> & H1 & H2)]].
        -- destruct (IH (i + S j) ltac:(lia) i (S j) (pos - 1)%Z)
             as (new & Hnew & Hrun); [lia.. |].
           exists (entry pos delete [r] [] :: new). split.
           ++ rewrite HD. replace (Nat.min (Nat.min (D i (S j)) (D (S i) j)) (D i j))
                with (D i (S j)) by lia.
              eapply trace_ok_cons; [exact Hnew | lia | done].
           ++ intros [|fuel] errs Hf; [lia |].
              cbn [backtrace]. rewrite backtrace_cell by lia. rewrite HO, Hcond.
              cbv iota beta. rewrite decide_True by done.
              replace (Z.of_nat (S i) - 1)%Z with (Z.of_nat i) by lia.
              rewrite Hrun by lia. by rewrite <- app_assoc.
        -- destruct (IH (S i + j) ltac:(lia) (S i) j (pos - 1)%Z)
             as (new & Hnew & Hrun); [lia.. |].
           exists (entry pos insert [] [h] :: new). split.
           ++ rewrite HD. replace (Nat.min (Nat.min (D i (S j)) (D (S i) j)) (D i j))
                with (D (S i) j) by lia.
              eapply trace_ok_cons; [exact Hnew | lia | done].
           ++ intros [|fuel] errs Hf; [lia |].
              cbn [backtrace]. rewrite backtrace_cell by lia. rewrite HO, Hcond.
              cbv iota beta. rewrite decide_True by done.
              replace (Z.of_nat (S j) - 1)%Z with (Z.of_nat j) by lia.
              rewrite Hrun by lia. by rewrite <- app_assoc.
        -- destruct (IH (i + j) ltac:(lia) i j (pos - 1)%Z)
             as (new & Hnew & Hrun); [lia.. |].
           exists (entry pos substitute [r] [h] :: new). split.
           ++ rewrite HD. replace (Nat.min (Nat.min (D i (S j)) (D (S i) j)) (D i j))
                with (D i j) by lia.
              eapply trace_ok_cons; [exact Hnew | lia | done].
           ++ intros [|fuel] errs Hf; [lia |].
              cbn [backtrace]. rewrite backtrace_cell by lia. rewrite HO, Hcond.
              cbv iota beta. rewrite decide_True by done.
              replace (Z.of_nat (S i) - 1)%Z with (Z.of_nat i) by lia.
              replace (Z.of_nat (S j) - 1)%Z with (Z.of_nat j) by lia.
              rewrite Hrun by lia. by rewrite <- app_assoc.
Qed.

End Backtrace.

(** ** [get_error_details] as a whole *)

Section ErrorDetails.
Import Py Metrics Spec.

Lemma StronglySorted_rev_gt_lt (l : list Z) :
  StronglySorted Z.gt l -> StronglySorted Z.lt (reverse l).
Proof.
  induction 1 as [|x l Hl IH Hx]; [constructor |].
  rewrite reverse_cons.
  apply StronglySorted_app_2; [| done | repeat constructor].
  intros x1 x2 Hx1 ->%list_elem_of_singleton.
  rewrite elem_of_reverse in Hx1.
  rewrite Forall_forall in Hx. specialize (Hx _ Hx1). lia.
Qed.

(** The list returned: as long as the distance, in increasing order of
    position, every position within the last [m + n] values of a
    counter that starts at [max(m, n)]; no exception, and any bound
    above [m + n] on the iterations of the backtrace gives it. *)
Lemma get_error_details_spec (reference hypothesis : str) :
  exists errors,
    get_error_details reference hypothesis = Some errors
    /\ (forall fuel, length reference + length hypothesis < fuel ->
          get_error_details_within fuel reference hypothesis = Returns errors)
    /\ length errors = lev reference hypothesis
    /\ StronglySorted Z.lt (positions errors)
    /\ Forall (fun p => Z.max (Z.of_nat (length reference)) (Z.of_nat (length hypothesis))
                        - Z.of_nat (length reference + length hypothesis) < p
                        <= Z.max (Z.of_nat (length reference)) (Z.of_nat (length hypothesis)))%Z
              (positions errors).
Proof.
  destruct (build_tables_ok reference hypothesis) as (T & HT & Hok).
  destruct (backtrace_from reference hypothesis T Hok
              (length reference + length hypothesis)
              (length reference) (length hypothesis)
              (Z.max (Z.of_nat (length reference)) (Z.of_nat (length hypothesis))))
    as (new & (Hlen & Hsort & Hall) & Hrun); [done.. |].
  assert (Hwithin : forall fuel, length reference + length hypothesis < fuel ->
            get_error_details_within fuel reference hypothesis = Returns (reverse new)).
  { intros fuel Hf. unfold get_error_details_within. rewrite HT.
    by rewrite (Hrun fuel [] Hf). }
  exists (reverse new). split; [| split; [done |]; split; [| split]].
  - unfold get_error_details. by rewrite Hwithin by lia.
  - rewrite length_reverse, Hlen. unfold dp_spec. by rewrite !firstn_all.
  - unfold positions in *. rewrite fmap_reverse. by apply StronglySorted_rev_gt_lt.
  - unfold positions in *. rewrite fmap_reverse. by apply Forall_reverse.
Qed.

End ErrorDetails.

(** ** The rates *)

Section Rates.
Import Py Metrics Spec.

Lemma true_div_S a b :
  true_div a (S b) = Some (inject_Z (Z.of_nat a) / inject_Z (Z.of_nat (S b)))%Q.
Proof. done. Qed.

Lemma simple_cer_eq (reference hypothesis : str) :
  _simple_cer reference hypothesis = Some (cer_closed reference hypothesis).
Proof.
  destruct reference as [|c r]; [by destruct hypothesis |].
  unfold _simple_cer. rewrite levenshtein_distance_lev. done.
Qed.

(** What [_simple_wer] computes: the distance between the two texts
    with their words joined by one space, character by character,
    over the number of words of the reference. *)
Lemma simple_wer_eq (reference hypothesis : str) :
  _simple_wer reference hypothesis = Some (wer_closed reference hypothesis).
Proof.
  unfold _simple_wer, wer_closed.
  destruct (split reference) as [|w ws]; [by destruct (split hypothesis) |].
  rewrite levenshtein_distance_lev. done.
Qed.

End Rates.

(** ** Dictionaries of counts *)

Section Counts.
Import Py Spec.
Context {K : Type} `{EqDecision K}.
Implicit Types (d : dict K nat) (g : K) (L : list K).

Local Abbreviation count_into d L :=
  (foldl (fun ngrams gram => dict_set ngrams gram (dict_get ngrams gram 0 + 1)) d L).

Lemma dict_in_spec g d : dict_in g d = true <-> g ∈ d.*1.
Proof.
  induction d as [|[k v] d IH]; [split; [done | by intros ?%elem_of_nil] |].
  cbn [dict_in]. rewrite fmap_cons, elem_of_cons. cbn [fst].
  destruct (decide (g = k)) as [->|Hne]; [by split; [left |] |].
  rewrite IH. split; [by right | by intros [? | ?]].
Qed.

Lemma dict_get_absent g d : g ∉ d.*1 -> dict_get d g 0 = 0.
Proof.
  induction d as [|[k v] d IH]; simpl; [done |].
  rewrite not_elem_of_cons. intros [Hne Hd]. rewrite decide_False by done. by apply IH.
Qed.

Lemma dict_get_present g v d : NoDup d.*1 -> (g, v) ∈ d -> dict_get d g 0 = v.
Proof.
  induction d as [|[k w] d IH]; simpl.
  - by intros _ ?%elem_of_nil.
  - rewrite NoDup_cons, elem_of_cons. intros [Hk Hd] [[= -> ->]|Hin].
    + by rewrite decide_True.
    + rewrite decide_False; [by apply IH |].
      intros ->. apply Hk. apply list_elem_of_fmap. by exists (k, v).
Qed.

Lemma dict_set_get g g' v d :
  dict_get (dict_set d g v) g' 0 = if decide (g' = g) then v else dict_get d g' 0.
Proof.
  induction d as [|[k w] d IH]; simpl.
  - destruct (decide (g' = g)); done.
  - destruct (decide (g = k)) as [->|Hgk]; simpl.
    + destruct (decide (g' = k)); done.
    + rewrite IH. destruct (decide (g' = k)) as [->|?]; [| done].
      by rewrite decide_False.
Qed.

Lemma dict_set_keys g v d :
  (dict_set d g v).*1 = if dict_in g d then d.*1 else d.*1 ++ [g].
Proof.
  induction d as [|[k w] d IH]; [done |].
  cbn [dict_set dict_in]. destruct (decide (g = k)) as [->|Hgk]; [done |].
  rewrite !fmap_cons, IH. by destruct (dict_in g d).
Qed.

Lemma dict_set_sum g v d :
  sum_list (dict_set d g v).*2 + dict_get d g 0 = sum_list d.*2 + v.
Proof.
  induction d as [|[k w] d IH]; [simpl; unfold id; lia |].
  cbn [dict_set dict_get]. destruct (decide (g = k)) as [->|Hgk].
  - rewrite !fmap_cons. simpl. unfold id. lia.
  - rewrite !fmap_cons. simpl in *. unfold id in *. lia.
Qed.

Lemma count_into_get d L g :
  dict_get (count_into d L) g 0 = dict_get d g 0 + occurrences g L.
Proof.
  revert d. induction L as [|x L IH]; intros d; simpl; [lia |].
  rewrite IH, dict_set_get. destruct (decide (g = x)) as [->|?]; lia.
Qed.

Lemma count_into_keys d L g : g ∈ (count_into d L).*1 <-> g ∈ d.*1 \/ g ∈ L.
Proof.
  revert d. induction L as [|x L IH]; intros d; simpl.
  - rewrite elem_of_nil. tauto.
  - rewrite IH, dict_set_keys, elem_of_cons.
    destruct (dict_in x d) eqn:Hx.
    + apply dict_in_spec in Hx. split; [tauto |].
      intros [?|[->|?]]; tauto.
    + rewrite elem_of_app, list_elem_of_singleton. tauto.
Qed.

Lemma count_into_NoDup d L : NoDup d.*1 -> NoDup (count_into d L).*1.
Proof.
  revert d. induction L as [|x L IH]; intros d Hd; simpl; [done |].
  apply IH. rewrite dict_set_keys. destruct (dict_in x d) eqn:Hx; [done |].
  apply NoDup_app. split; [done |]. split; [| apply NoDup_singleton].
  intros y Hy ->%list_elem_of_singleton.
  apply dict_in_spec in Hy. congruence.
Qed.

Lemma count_into_sum d L : sum_list (count_into d L).*2 = sum_list d.*2 + length L.
Proof.
  revert d. induction L as [|x L IH]; intros d; [simpl; lia |].
  cbn [foldl length]. rewrite IH. pose proof (dict_set_sum x (dict_get d x 0 + 1) d). lia.
Qed.

Lemma occurrences_absent g L : g ∉ L -> occurrences g L = 0.
Proof.
  induction L as [|x L IH]; simpl; [done |].
  rewrite not_elem_of_cons. intros [Hne HL]. rewrite decide_False by done. by rewrite IH.
Qed.

Lemma total_count_sum a d : foldl (fun acc '(_, count) => acc + count) a d = a + sum_list d.*2.
Proof.
  revert a. induction d as [|[k v] d IH]; intros a; [simpl; lia |].
  cbn [foldl]. rewrite IH, fmap_cons. simpl. unfold id. lia.
Qed.

Lemma match_count_sum (ref_ngrams : dict K nat) a d :
  foldl (fun acc '(gram, count) =>
           if dict_in gram ref_ngrams
           then acc + Nat.min count (dict_get ref_ngrams gram 0)
           else acc) a d
  = a + sum_list_with (fun '(gram, count) =>
                         if dict_in gram ref_ngrams
                         then Nat.min count (dict_get ref_ngrams gram 0) else 0) d.
Proof.
  revert a. induction d as [|[k v] d IH]; intros a; [simpl; lia |].
  cbn [foldl sum_list_with]. rewrite IH. destruct (dict_in k ref_ngrams); lia.
Qed.

(** The loop over the items of the hypothesis dictionary adds up the
    clipped matches. *)
Lemma match_count_clipped (ref_grams hyp_grams : list K) :
  sum_list_with (fun '(gram, count) =>
                   if dict_in gram (count_into [] ref_grams)
                   then Nat.min count (dict_get (count_into [] ref_grams) gram 0) else 0)
    (count_into [] hyp_grams)
  = clipped_matches ref_grams hyp_grams.
Proof.
  unfold clipped_matches.
  assert (Hnd : NoDup (count_into [] hyp_grams).*1) by (apply count_into_NoDup; constructor).
  rewrite <- (NoDup_Permutation (count_into [] hyp_grams).*1 (remove_dups hyp_grams)).
  - assert (Hall : forall g v, (g, v) ∈ count_into [] hyp_grams -> v = occurrences g hyp_grams).
    { intros g v Hin. rewrite <- (dict_get_present g v _ Hnd Hin).
      by rewrite count_into_get. }
    clear Hnd. revert Hall. generalize (count_into [] hyp_grams).
    intros d. induction d as [|[g v] d IH]; intros Hall; [done |].
    rewrite fmap_cons. cbn [sum_list_with fst]. rewrite IH.
    + f_equal. rewrite (Hall g v) by apply list_elem_of_here.
      rewrite count_into_get. cbn [dict_get].
      destruct (dict_in g (count_into [] ref_grams)) eqn:Hg; [done |].
      rewrite (occurrences_absent g ref_grams); [lia |].
      intros Hin. apply not_true_iff_false in Hg. apply Hg, dict_in_spec.
      apply count_into_keys. by right.
    + intros g' v' Hin. apply Hall. by apply list_elem_of_further.
  - done.
  - apply NoDup_remove_dups.
  - intros g. rewrite elem_of_remove_dups, count_into_keys, elem_of_nil. tauto.
Qed.

End Counts.

(** ** The n-gram precision score *)

Section Bleu.
Import Py Metrics Spec.

Lemma true_div_pos a b :
  0 < b -> true_div a b = Some (inject_Z (Z.of_nat a) / inject_Z (Z.of_nat b))%Q.
Proof. intros Hb. unfold true_div. destruct b; [lia | done]. Qed.

(** One pass of the loop of [_simple_bleu] appends the modified
    precision of that order. *)
Lemma ngram_score_eq (reference hypothesis : str) (n : nat) :
  ngram_score reference hypothesis n
  = Some (precision (split reference) (split hypothesis) n).
Proof.
  unfold ngram_score, get_ngrams, precision.
  set (ref_grams := ngram_list (split reference) n).
  set (hyp_grams := ngram_list (split hypothesis) n).
  pose proof (match_count_clipped ref_grams hyp_grams) as Hmatch.
  pose proof (count_into_sum (K:=list str) [] hyp_grams) as Htotal.
  pose proof (count_into_keys (K:=list str) [] hyp_grams) as Hkeys.
  revert Hmatch Htotal Hkeys.
  generalize (foldl (fun ngrams gram => dict_set ngrams gram (dict_get ngrams gram 0 + 1))
                [] hyp_grams).
  intros hyp_ngrams Hmatch Htotal Hkeys.
  destruct hyp_grams as [|g hyp_grams'] eqn:Hhyp.
  - destruct hyp_ngrams as [|[k v] d]; [done |].
    exfalso. destruct (Hkeys k) as [[?%elem_of_nil|?%elem_of_nil] _]; [| done..].
    rewrite fmap_cons. apply list_elem_of_here.
  - destruct hyp_ngrams as [|[k v] d] eqn:Hd.
    { exfalso. destruct (Hkeys g) as [_ Hg].
      eapply elem_of_nil, Hg. right. apply list_elem_of_here. }
    rewrite <- Hd in *. clear Hd.
    rewrite total_count_sum, match_count_sum, Hmatch, Htotal.
    change (sum_list ([] : list (list str * nat)).*2) with 0.
    rewrite !Nat.add_0_l.
    change (0 <? length (g :: hyp_grams')) with true. cbv iota.
    apply true_div_pos. simpl. lia.
Qed.

(** The list that [get_ngrams] walks through holds the word n-grams. *)
Lemma ngram_list_word_ngrams (words : list str) (n : nat) :
  1 <= n -> ngram_list words n = word_ngrams n words.
Proof.
  intros Hn. unfold ngram_list. induction words as [|w rest IH].
  - cbn [length word_ngrams].
    replace (Z.to_nat (Z.of_nat 0 - Z.of_nat n + 1)) with 0 by lia. done.
  - cbn [word_ngrams]. destruct (n <=? length (w :: rest)) eqn:Hle.
    + apply Nat.leb_le in Hle. cbn [length] in Hle.
      replace (Z.to_nat (Z.of_nat (length (w :: rest)) - Z.of_nat n + 1))
        with (S (Z.to_nat (Z.of_nat (length rest) - Z.of_nat n + 1)))
        by (cbn [length]; lia).
      cbn [seq fmap list_fmap drop]. f_equal.
      rewrite <- IH, <- fmap_S_seq, <- list_fmap_compose. done.
    + apply Nat.leb_gt in Hle. cbn [length] in Hle.
      replace (Z.to_nat (Z.of_nat (length (w :: rest)) - Z.of_nat n + 1)) with 0
        by (cbn [length]; lia).
      done.
Qed.

Lemma precision_modified (ref_words hyp_words : list str) (n : nat) :
  1 <= n -> precision ref_words hyp_words n = modified_precision ref_words hyp_words n.
Proof.
  intros Hn. unfold precision, modified_precision.
  by rewrite !ngram_list_word_ngrams.
Qed.

(** The word n-grams are the runs of [n] consecutive words. *)
Lemma elem_of_word_ngrams (words gram : list str) (n : nat) :
  1 <= n ->
  gram ∈ word_ngrams n words <-> length gram = n /\ occurs_in gram words.
Proof.
  intros Hn. unfold occurs_in. induction words as [|w rest IH].
  - cbn [word_ngrams]. split; [by intros ?%elem_of_nil |].
    intros (Hlen & before & after & Heq). symmetry in Heq.
    apply app_eq_nil in Heq as [_ Heq]. apply app_eq_nil in Heq as [-> _].
    simpl in Hlen. lia.
  - cbn [word_ngrams]. destruct (n <=? length (w :: rest)) eqn:Hle.
    + apply Nat.leb_le in Hle. rewrite elem_of_cons, IH. split.
      * intros [-> | (Hlen & before & after & ->)].
        -- split; [rewrite length_take; lia |].
           exists [], (drop n (w :: rest)). by rewrite app_nil_l, take_drop.
        -- split; [done |]. by exists (w :: before), after.
      * intros (Hlen & before & after & Heq). destruct before as [|b before].
        -- left. rewrite app_nil_l in Heq. rewrite Heq, <- Hlen.
           by rewrite take_app_length.
        -- right. injection Heq as _ ->. split; [done |]. by exists before, after.
    + apply Nat.leb_gt in Hle. split; [by intros ?%elem_of_nil |].
      intros (Hlen & before & after & Heq).
      apply (f_equal length) in Heq. rewrite !length_app in Heq. lia.
Qed.

Lemma word_ngrams_nil (words : list str) (n : nat) :
  1 <= n -> word_ngrams n words = [] <-> length words < n.
Proof.
  intros Hn. destruct words as [|w rest]; cbn [word_ngrams].
  - split; [simpl; lia | done].
  - destruct (n <=? length (w :: rest)) eqn:Hle.
    + apply Nat.leb_le in Hle. split; [done | lia].
    + apply Nat.leb_gt in Hle. done.
Qed.

Lemma positive_spec (s : Q) : positive s = true <-> (0 < s)%Q.
Proof.
  unfold positive. rewrite negb_true_iff, <- not_true_iff_false, Qle_bool_iff.
  split; [apply Qnot_le_lt | apply Qlt_not_le].
Qed.

Lemma mapM_total {X Y} (f : X -> option Y) (g : X -> Y) (l : list X) :
  (forall x, f x = Some (g x)) -> mapM f l = Some (g <$> l).
Proof.
  intros Hf. induction l as [|x l IH]; [done |].
  cbn [mapM]. rewrite Hf, IH. done.
Qed.

(** [_simple_bleu] in closed form. *)
Lemma simple_bleu_eq (reference hypothesis : str) :
  _simple_bleu reference hypothesis
  = Some (if positive (precision (split reference) (split hypothesis) 1)
             && positive (precision (split reference) (split hypothesis) 2)
             && positive (precision (split reference) (split hypothesis) 3)
             && positive (precision (split reference) (split hypothesis) 4)
          then (exp ((ln (Q2R (precision (split reference) (split hypothesis) 1))
                      + ln (Q2R (precision (split reference) (split hypothesis) 2))
                      + ln (Q2R (precision (split reference) (split hypothesis) 3))
                      + ln (Q2R (precision (split reference) (split hypothesis) 4))) / 4)
                * 100)%R
          else 0%R).
Proof.
  unfold _simple_bleu.
  rewrite (mapM_total _ (precision (split reference) (split hypothesis)))
    by apply ngram_score_eq.
  destruct (split hypothesis) as [|w ws] eqn:Hs; [done |].
  cbn [mbind option_bind seq fmap list_fmap forallb length foldl].
  set (p1 := precision (split reference) (w :: ws) 1).
  set (p2 := precision (split reference) (w :: ws) 2).
  set (p3 := precision (split reference) (w :: ws) 3).
  set (p4 := precision (split reference) (w :: ws) 4).
  f_equal.
  destruct (positive p1), (positive p2), (positive p3), (positive p4);
    cbn [andb]; try lra.
  f_equal. f_equal. simpl INR. lra.
Qed.

End Bleu.

(** ** Normalisation *)

Section Normalisation.
Import Py Spec.

Lemma single_spaced_weaken b s : single_spaced b s -> single_spaced false s.
Proof.
  destruct s as [|c s]; simpl; [done |].
  destruct (isspace c); [| done]. by intros (? & _ & ?).
Qed.

Lemma sub_blank_runs_single_spaced b s : single_spaced b (sub_blank_runs b s).
Proof.
  revert b. induction s as [|c s IH]; intros b; simpl; [done |].
  destruct (isspace c) eqn:Hc.
  - destruct b; [apply IH |]. simpl. change (isspace SPACE) with true. cbv iota.
    split; [done |]. split; [done |]. apply IH.
  - simpl. rewrite Hc. apply IH.
Qed.

Lemma sub_blank_runs_fixed b s : single_spaced b s -> sub_blank_runs b s = s.
Proof.
  revert b. induction s as [|c s IH]; intros b; simpl; [done |].
  destruct (isspace c).
  - intros (-> & -> & Hs). f_equal. by apply IH.
  - intros Hs. f_equal. by apply IH.
Qed.

Lemma replace_fixed b s : single_spaced b s -> replace IDEOGRAPHIC_SPACE SPACE s = s.
Proof.
  revert b. induction s as [|c s IH]; intros b; simpl; [done |].
  destruct (N.eqb_spec c IDEOGRAPHIC_SPACE) as [->|Hne].
  - change (isspace IDEOGRAPHIC_SPACE) with true. cbv iota. by intros [? _].
  - unfold replace in IH. destruct (isspace c).
    + intros (_ & _ & Hs). f_equal. by eapply IH.
    + intros Hs. f_equal. by eapply IH.
Qed.

Lemma lstrip_single_spaced b s : single_spaced b s -> single_spaced false (lstrip s).
Proof.
  revert b. induction s as [|c s IH]; intros b; simpl; [done |].
  destruct (isspace c) eqn:Hc.
  - intros (_ & _ & Hs). by eapply IH.
  - intros Hs. simpl. by rewrite Hc.
Qed.

Lemma rstrip_single_spaced b s : single_spaced b s -> single_spaced b (rstrip s).
Proof.
  revert b. induction s as [|c s IH]; intros b; simpl; [done |].
  destruct (isspace c) eqn:Hc.
  - intros (-> & -> & Hs). specialize (IH _ Hs).
    destruct (rstrip s) as [|k ks]; [done |].
    cbn [single_spaced]. change (isspace SPACE) with true. cbv iota. done.
  - intros Hs. specialize (IH _ Hs).
    destruct (rstrip s) as [|k ks]; cbn [single_spaced]; rewrite Hc; done.
Qed.

Lemma lstrip_no_leading_blank s : no_leading_blank (lstrip s).
Proof.
  induction s as [|c s IH]; simpl; [done |].
  destruct (isspace c) eqn:Hc; [done |]. simpl. done.
Qed.

Lemma rstrip_no_leading_blank s : no_leading_blank s -> no_leading_blank (rstrip s).
Proof.
  destruct s as [|c s]; simpl; [done |]. intros Hc.
  destruct (rstrip s); [by rewrite Hc |]. done.
Qed.

Lemma lstrip_fixed s : no_leading_blank s -> lstrip s = s.
Proof. destruct s as [|c s]; simpl; [done |]. by intros ->. Qed.

Lemma rstrip_idemp s : rstrip (rstrip s) = rstrip s.
Proof.
  induction s as [|c s IH]; simpl; [done |].
  destruct (rstrip s) as [|k ks] eqn:Hks.
  - destruct (isspace c) eqn:Hc; simpl; [done |]. by rewrite Hc.
  - change (rstrip (c :: k :: ks))
      with (match rstrip (k :: ks) with
            | [] => if isspace c then [] else [c]
            | kept => c :: kept
            end).
    by rewrite IH.
Qed.

Lemma strip_fixed s : strip (strip s) = strip s.
Proof.
  unfold strip.
  rewrite (lstrip_fixed (rstrip (lstrip s))).
  - apply rstrip_idemp.
  - apply rstrip_no_leading_blank, lstrip_no_leading_blank.
Qed.

End Normalisation.

(** ** Rounding *)

Section Rounding.
Import Py.
Open Scope Q_scope.

Lemma round_half_even_comp x y : x == y -> round_half_even x = round_half_even y.
Proof.
  intros Hxy. unfold round_half_even.
  rewrite (Qfloor_comp _ _ Hxy).
  assert (Hc : (x - inject_Z (Qfloor y) ?= 1 # 2) = (y - inject_Z (Qfloor y) ?= 1 # 2)).
  { apply Qcompare_comp; [by rewrite Hxy | done]. }
  by rewrite Hc.
Qed.

Lemma round_comp x y nd : x == y -> round x nd = round y nd.
Proof.
  intros Hxy. unfold round. f_equal. f_equal. apply round_half_even_comp.
  by rewrite Hxy.
Qed.

(** The rounded value is within one half of the argument. *)
Lemma round_half_even_near x :
  inject_Z (round_half_even x) - (1 # 2) <= x <= inject_Z (round_half_even x) + (1 # 2).
Proof.
  unfold round_half_even.
  pose proof (Qfloor_le x) as Hle. pose proof (Qlt_floor x) as Hlt.
  rewrite inject_Z_plus in Hlt. change (inject_Z 1) with 1 in Hlt.
  destruct (x - inject_Z (Qfloor x) ?= 1 # 2) eqn:Hc.
  - apply Qeq_alt in Hc.
    destruct (Z.even (Qfloor x)); rewrite ?inject_Z_plus; change (inject_Z 1) with 1;
      split; Lqa.lra.
  - apply Qlt_alt in Hc. split; Lqa.lra.
  - apply Qgt_alt in Hc. rewrite inject_Z_plus. change (inject_Z 1) with 1. split; Lqa.lra.
Qed.

Lemma max0_comp x y : x == y -> max0 x == max0 y.
Proof.
  intros Hxy. unfold max0.
  destruct (Qlt_le_dec 0 x), (Qlt_le_dec 0 y); try done; Lqa.lra.
Qed.

Lemma round_100 : round 100 2 == 100.
Proof. done. Qed.

Lemma max0_positive x : 0 < x -> max0 x = x.
Proof. intros Hx. unfold max0. destruct (Qlt_le_dec 0 x); [done | Lqa.lra]. Qed.

Lemma max0_positive_inv x : 0 < max0 x -> max0 x = x.
Proof. unfold max0. destruct (Qlt_le_dec 0 x); [done | Lqa.lra]. Qed.

Lemma rate_zero n : inject_Z (Z.of_nat 0) / inject_Z n == 0.
Proof. unfold Qdiv. change (inject_Z (Z.of_nat 0)) with 0. apply Qmult_0_l. Qed.

(** A rate of 0 gives an accuracy of 100. *)
Lemma accuracy_of_zero q : q == 0 -> round (max0 ((1 - q) * 100)) 2 == 100.
Proof.
  intros Hq. rewrite (round_comp _ 100); [apply round_100 |].
  rewrite (max0_comp _ 100) by (rewrite Hq; Lqa.lra).
  by rewrite max0_positive.
Qed.

(** An accuracy of 100 comes from a rate of at most 1/20000. *)
Lemma accuracy_100_rate q : round (max0 ((1 - q) * 100)) 2 == 100 -> q <= 1 # 20000.
Proof.
  unfold round. change (inject_Z (10 ^ Z.of_nat 2)) with 100.
  set (x := max0 ((1 - q) * 100)). intros Hr.
  assert (Hz : inject_Z (round_half_even (x * 100)) == 10000).
  { apply (Qmult_inj_r _ _ (/ 100)); [done |]. rewrite Hr. done. }
  pose proof (round_half_even_near (x * 100)) as [Hlo _]. rewrite Hz in Hlo.
  assert (Hx : 0 < x) by Lqa.lra.
  unfold x in *. rewrite (max0_positive_inv _ Hx) in Hlo. Lqa.lra.
Qed.

(** A quotient of two counts against a bound [1/k], without the
    division. *)
Lemma rate_bound (d n : nat) (k : positive) :
  (0 < n)%nat ->
  inject_Z (Z.of_nat d) / inject_Z (Z.of_nat n) <= 1 # k ->
  (Z.pos k * Z.of_nat d <= Z.of_nat n)%Z.
Proof.
  intros Hn Hq.
  assert (Hn' : 0 < inject_Z (Z.of_nat n)).
  { change 0 with (inject_Z 0). rewrite <- Zlt_Qlt. lia. }
  assert (Hd : inject_Z (Z.of_nat d)
               == inject_Z (Z.of_nat d) / inject_Z (Z.of_nat n) * inject_Z (Z.of_nat n)).
  { field. Lqa.lra. }
  assert (Hle : inject_Z (Z.of_nat d) <= (1 # k) * inject_Z (Z.of_nat n)).
  { rewrite Hd at 1. apply Qmult_le_compat_r; [done | Lqa.lra]. }
  assert (Hk' : (1 # k) * inject_Z (Z.pos k) == 1).
  { unfold Qeq, Qmult, inject_Z. simpl. lia. }
  assert (Hfin : inject_Z (Z.pos k) * inject_Z (Z.of_nat d)
                 <= inject_Z (Z.pos k) * ((1 # k) * inject_Z (Z.of_nat n))).
  { apply Qmult_le_l; [| done]. change 0 with (inject_Z 0). rewrite <- Zlt_Qlt. lia. }
  assert (Hn2 : inject_Z (Z.pos k) * ((1 # k) * inject_Z (Z.of_nat n))
                == inject_Z (Z.of_nat n)).
  { transitivity ((1 # k) * inject_Z (Z.pos k) * inject_Z (Z.of_nat n));
      [ring | rewrite Hk'; ring]. }
  rewrite Hn2 in Hfin.
  rewrite <- inject_Z_mult, <- Zle_Qle in Hfin. lia.
Qed.

Lemma rate_is_zero (d n : nat) :
  (0 < n)%nat -> inject_Z (Z.of_nat d) / inject_Z (Z.of_nat n) == 0 -> d = 0%nat.
Proof.
  intros Hn Hq.
  assert (Hn' : 0 < inject_Z (Z.of_nat n)).
  { change 0 with (inject_Z 0). rewrite <- Zlt_Qlt. lia. }
  assert (Hd : inject_Z (Z.of_nat d)
               == inject_Z (Z.of_nat d) / inject_Z (Z.of_nat n) * inject_Z (Z.of_nat n)).
  { field. Lqa.lra. }
  rewrite Hq, Qmult_0_l in Hd. change 0 with (inject_Z 0) in Hd.
  apply (proj1 (inject_Z_injective _ _)) in Hd. lia.
Qed.

End Rounding.

(** ** [compare] *)

Section Compare.
Import Py Metrics Comparator Spec.

Lemma StronglySorted_lt_le (l : list Z) : StronglySorted Z.lt l -> StronglySorted Z.le l.
Proof.
  induction 1 as [|x l Hl IH Hx]; constructor; [done |].
  eapply Forall_impl; [exact Hx |]. cbv beta. intros; lia.
Qed.

Lemma error_detail_positions (raw : list error_entry) :
  position <$> (error_detail_of <$> raw) = positions raw.
Proof. unfold positions. by rewrite <- list_fmap_compose. Qed.

Lemma accuracy_eq (reference hypothesis : str) :
  calculate_accuracy builtin reference hypothesis
  = Some (accuracy_closed reference hypothesis).
Proof.
  destruct reference as [|c r]; [by destruct hypothesis |].
  unfold calculate_accuracy, calculate_cer. cbn [jiwer_cer builtin].
  by rewrite simple_cer_eq.
Qed.

(** Whatever computes the rates, the [errors] of a result are the
    entries of [get_error_details] on the normalised texts. *)
Lemma compare_errors libs self reference hypothesis info result :
  compare libs self reference hypothesis info = Some result ->
  exists raw,
    get_error_details (_normalize_text self reference) (_normalize_text self hypothesis)
    = Some raw
    /\ errors result = error_detail_of <$> raw.
Proof.
  unfold compare. intros Hcmp.
  destruct (calculate_accuracy _ _ _); [| done].
  destruct (calculate_wer _ _ _); [| done].
  destruct (calculate_cer _ _ _); [| done].
  destruct (calculate_bleu _ _ _); [| done].
  destruct (get_error_details _ _) as [raw|]; [| done].
  injection Hcmp as <-. by exists raw.
Qed.

(** With the built-in rates [compare] returns a result, and its fields
    in closed form. *)
Lemma compare_builtin self reference hypothesis info :
  exists result,
    compare builtin self reference hypothesis info = Some result
    /\ accuracy result
       = accuracy_closed (_normalize_text self reference) (_normalize_text self hypothesis)
    /\ wer result
       = wer_closed (_normalize_text self reference) (_normalize_text self hypothesis)
    /\ cer result
       = cer_closed (_normalize_text self reference) (_normalize_text self hypothesis)
    /\ exists raw,
         get_error_details (_normalize_text self reference)
           (_normalize_text self hypothesis) = Some raw
         /\ length raw = lev (_normalize_text self reference)
                           (_normalize_text self hypothesis)
         /\ errors result = error_detail_of <$> raw.
Proof.
  unfold compare, calculate_wer, calculate_cer, calculate_bleu.
  cbn [jiwer_wer jiwer_cer sacrebleu_sentence_score builtin].
  rewrite accuracy_eq, simple_wer_eq, simple_cer_eq, simple_bleu_eq.
  destruct (get_error_details_spec (_normalize_text self reference)
              (_normalize_text self hypothesis)) as (raw & -> & _ & Hlen & _).
  cbn [mbind option_bind]. eexists. split; [done |].
  cbn [accuracy wer cer errors]. do 3 (split; [done |]).
  by exists raw.
Qed.

End Compare.

(** * The claims *)

Section Claims.
Import Py Metrics Comparator Spec.

(** C1, at the input where the code and the claim part: for the
    reference ['ab'] and the hypothesis ['cd'], one word each, the
    built-in WER is 2 (two characters differ between the joined texts),
    while the word-granularity edit distance is 1 and the reference has
    one word, which makes 1. *)
Example wer_counts_characters :
  calculate_wer builtin text_ab text_cd = Some (2 # 1)%Q
  /\ split text_ab = [text_ab] /\ split text_cd = [text_cd]
  /\ lev (split text_ab) (split text_cd) = 1
  /\ length (split text_ab) = 1.
Proof. vm_compute. done. Qed.

(** C3, at the input where the code and the claim part: for the
    reference ['abcd'] and the hypothesis ['cdef'] ([m = n = 4]) the
    backtrace takes six steps from a counter that starts at 4, and the
    entry of its last step has position -1. *)
Example position_below_zero :
  positions <$> get_error_details text_abcd text_cdef = Some [-1; 0; 3; 4]%Z.
Proof. vm_compute. done. Qed.

(** C4: in the tables of [get_error_details], at a cell [(i, j)] whose
    two characters differ, the value is one more than the least of the
    three neighbours and the label recorded is the first of deletion,
    insertion, substitution (in this order) whose neighbour has that
    least value. *)
Theorem tie_break_order (ref_chars hyp_chars : str) (T : tables) (i j : nat)
    (r h : char) (up left diag : nat) :
  build_tables ref_chars hyp_chars = Some T ->
  1 <= i <= length ref_chars -> 1 <= j <= length hyp_chars ->
  ref_chars !! (i - 1) = Some r -> hyp_chars !! (j - 1) = Some h -> r <> h ->
  get2 (dp T) (i - 1) j = Some up ->
  get2 (dp T) i (j - 1) = Some left ->
  get2 (dp T) (i - 1) (j - 1) = Some diag ->
  get2 (dp T) i j = Some (S (Nat.min (Nat.min up left) diag))
  /\ get2 (ops T) i j
     = Some (Some (if (up <=? left) && (up <=? diag) then (delete, [r], [])
                   else if left <=? diag then (insert, [], [h])
                   else (substitute, [r], [h]))).
Proof.
  intros HT Hi Hj Hr Hh Hne Hup Hleft Hdiag.
  destruct (build_tables_ok ref_chars hyp_chars) as (T' & HT' & Hd & Ho).
  rewrite HT in HT'. injection HT' as <-.
  destruct i as [|i]; [lia |]. destruct j as [|j]; [lia |].
  replace (S i - 1) with i in * by lia. replace (S j - 1) with j in * by lia.
  rewrite (table_ok_read _ _ _ _ _ i (S j) Hd) in Hup by (done || lia).
  rewrite (table_ok_read _ _ _ _ _ (S i) j Hd) in Hleft by (done || lia).
  rewrite (table_ok_read _ _ _ _ _ i j Hd) in Hdiag by (done || lia).
  rewrite (table_ok_read _ _ _ _ _ (S i) (S j) Hd) by (done || lia).
  rewrite (table_ok_read _ _ _ _ _ (S i) (S j) Ho) by (done || lia).
  injection Hup as <-. injection Hleft as <-. injection Hdiag as <-.
  rewrite (dp_spec_differ _ _ _ _ _ _ Hr Hh Hne), (ops_spec_differ _ _ _ _ _ _ Hr Hh Hne).
  split; [done |].
  destruct (min_key_costs r h (dp_spec ref_chars hyp_chars i (S j))
              (dp_spec ref_chars hyp_chars (S i) j) (dp_spec ref_chars hyp_chars i j))
    as (o & -> & Hcase).
  cbn [fmap option_fmap option_map snd]. do 2 f_equal.
  destruct Hcase as [(-> & H1 & H2)|[(-> & H1 & H2)|(-> & H1 & H2)]].
  - by rewrite (proj2 (Nat.leb_le _ _) H1), (proj2 (Nat.leb_le _ _) H2).
  - rewrite (proj2 (Nat.leb_gt _ _) H1), (proj2 (Nat.leb_le _ _) H2). done.
  - by rewrite (proj2 (Nat.leb_gt _ _) H1), (proj2 (Nat.leb_gt _ _) H2), andb_false_r.
Qed.

(** The three neighbours of cell [(2, 2)] of the tables of ['ab'] and
    ['ba'] all hold 1, and the label recorded there is the deletion. *)
Lemma tie_break_order_witness :
  get2 (dp tables_ab_ba) 2 2 = Some 2
  /\ get2 (ops tables_ab_ba) 2 2 = Some (Some (delete, [98%N], [])).
Proof.
  apply (tie_break_order text_ab text_ba tables_ab_ba 2 2 98%N 97%N 1 1 1).
  - vm_compute. reflexivity.
  - simpl. lia.
  - simpl. lia.
  - reflexivity.
  - reflexivity.
  - discriminate.
  - reflexivity.
  - reflexivity.
  - reflexivity.
Defined.

(** C5: the built-in CER is the character edit distance (the least
    number of insertions, deletions and substitutions) over the length
    of the reference when the reference is not empty, 1 for an empty
    reference and a hypothesis that is not empty, 0 when both are
    empty; it is a value in every case, never a division by zero. *)
Theorem cer_is_distance_over_length (reference hypothesis : str) :
  exists d,
    edit_distance reference hypothesis d
    /\ calculate_cer builtin reference hypothesis
       = Some (match reference, hypothesis with
               | [], [] => 0
               | [], _ => 1
               | _, _ => inject_Z (Z.of_nat d) / inject_Z (Z.of_nat (length reference))
               end)%Q.
Proof.
  exists (lev reference hypothesis). split; [apply lev_edit_distance |].
  apply simple_cer_eq.
Qed.

(** C9: [get_error_details] returns as many entries as
    [_levenshtein_distance] counts edit operations: the table with its
    backtrace and the rolling rows agree. *)
Theorem error_count_is_distance (reference hypothesis : str) :
  exists errors,
    get_error_details reference hypothesis = Some errors
    /\ _levenshtein_distance reference hypothesis = Some (length errors).
Proof.
  destruct (get_error_details_spec reference hypothesis)
    as (errors & Hget & _ & Hlen & _).
  exists errors. split; [done |]. rewrite Hlen. apply levenshtein_distance_lev.
Qed.

(** C10: normalising twice is normalising once, and without
    normalisation the text is returned as it is. *)
Theorem normalize_text_idempotent (text : str) :
  _normalize_text {| normalize := true |} (_normalize_text {| normalize := true |} text)
  = _normalize_text {| normalize := true |} text
  /\ _normalize_text {| normalize := false |} text = text.
Proof.
  split; [| done]. unfold _normalize_text. cbn [normalize negb].
  set (u := sub_blank_runs false (replace IDEOGRAPHIC_SPACE SPACE text)).
  assert (Hs : single_spaced false (strip u)).
  { unfold strip. apply rstrip_single_spaced.
    apply (lstrip_single_spaced false), sub_blank_runs_single_spaced. }
  rewrite (replace_fixed _ _ Hs), (sub_blank_runs_fixed _ _ Hs).
  apply strip_fixed.
Qed.

(** C6: the positions of the entries that [get_error_details] returns
    never decrease along the list (they increase), and so do the
    positions of the [errors] of every [ComparisonResult], whatever
    libraries compute the rates; with the built-in rates [compare]
    always returns such a result. *)
Theorem positions_non_decreasing :
  (forall reference hypothesis : str,
      exists errors,
        get_error_details reference hypothesis = Some errors
        /\ StronglySorted Z.le (positions errors))
  /\ (forall libs self reference hypothesis info,
         match compare libs self reference hypothesis info with
         | Some result => StronglySorted Z.le (position <$> errors result)
         | None => True
         end)
  /\ (forall self reference hypothesis info,
         is_Some (compare builtin self reference hypothesis info)).
Proof.
  split; [| split].
  - intros reference hypothesis.
    destruct (get_error_details_spec reference hypothesis)
      as (errors & Hget & _ & _ & Hsort & _).
    exists errors. split; [done |]. by apply StronglySorted_lt_le.
  - intros libs self reference hypothesis info.
    destruct (compare libs self reference hypothesis info) as [result|] eqn:Hcmp; [| done].
    apply compare_errors in Hcmp as (raw & Hraw & ->).
    rewrite error_detail_positions.
    destruct (get_error_details_spec (_normalize_text self reference)
                (_normalize_text self hypothesis))
      as (errors & Hget & _ & _ & Hsort & _).
    rewrite Hget in Hraw. injection Hraw as <-. by apply StronglySorted_lt_le.
  - intros self reference hypothesis info.
    destruct (compare_builtin self reference hypothesis info) as (result & -> & _).
    by eexists.
Qed.

(** C7: comparing a text with itself, with the built-in rates, gives
    an accuracy of 100, a WER and a CER of 0 and no error. *)
Theorem compare_same_text (self : TextComparator) (text : str) info :
  exists result,
    compare builtin self text text info = Some result
    /\ (accuracy result == 100)%Q /\ (wer result == 0)%Q /\ (cer result == 0)%Q
    /\ errors result = [].
Proof.
  destruct (compare_builtin self text text info)
    as (result & Hcmp & Hacc & Hwer & Hcer & raw & Hraw & Hlen & Herr).
  exists result. split; [done |].
  set (t := _normalize_text self text) in *.
  rewrite Hacc, Hwer, Hcer, Herr. unfold accuracy_closed, wer_closed, cer_closed.
  rewrite lev_refl in Hlen. apply nil_length_inv in Hlen as ->.
  split; [| split; [| split]]; [| | | done].
  - destruct t; [done |]. rewrite lev_refl. apply accuracy_of_zero, rate_zero.
  - destruct (split t); [done |]. rewrite lev_refl. apply rate_zero.
  - destruct t; [done |]. rewrite lev_refl. apply rate_zero.
Qed.

(** C2, the counterexample: a reference of 40000 characters and a
    hypothesis that differs from it in one character have a CER of
    1/40000, not 0, and an accuracy of 100.0: the rounding to two
    decimals takes 99.9975 to 100.0. *)
Lemma accuracy_100_with_an_error :
  exists a c,
    calculate_accuracy builtin long_reference long_hypothesis = Some a
    /\ calculate_cer builtin long_reference long_hypothesis = Some c
    /\ (a == 100)%Q /\ ~ (c == 0)%Q.
Proof.
  assert (Hlev : lev long_reference long_hypothesis = 1).
  { unfold long_reference, long_hypothesis.
    rewrite lev_cons_ne by done. by rewrite lev_refl, Nat.min_0_r. }
  assert (Hlen : Z.of_nat (length long_reference) = 40000%Z).
  { unfold long_reference. cbn [length].
    rewrite length_replicate, Nat2Z.inj_succ, N_nat_Z. done. }
  exists (accuracy_closed long_reference long_hypothesis),
         (cer_closed long_reference long_hypothesis).
  split; [apply accuracy_eq |]. split; [apply simple_cer_eq |].
  unfold accuracy_closed, cer_closed.
  change (match long_reference with [] => _ | _ :: _ => ?x end) with x.
  change (match long_reference with [] => _ | _ :: _ => ?x end) with x.
  rewrite Hlev, Hlen. split; [done |]. discriminate.
Qed.

(** C2, as the code has it: a CER of 0 gives an accuracy of 100.0 (so
    do two empty texts); an accuracy of 100.0 comes from a CER of at
    most 1/20000, that is [20000 * distance <= len(reference)]; hence
    for a reference of fewer than 20000 characters the accuracy is
    100.0 exactly when the CER is 0. *)
Theorem accuracy_100_iff_cer_rounds_to_0 (reference hypothesis : str) :
  exists a c,
    calculate_accuracy builtin reference hypothesis = Some a
    /\ calculate_cer builtin reference hypothesis = Some c
    /\ ((c == 0)%Q -> (a == 100)%Q)
    /\ ((a == 100)%Q ->
        (20000 * Z.of_nat (lev reference hypothesis) <= Z.of_nat (length reference))%Z)
    /\ ((Z.of_nat (length reference) < 20000)%Z -> ((a == 100)%Q <-> (c == 0)%Q)).
Proof.
  exists (accuracy_closed reference hypothesis), (cer_closed reference hypothesis).
  split; [apply accuracy_eq |]. split; [apply simple_cer_eq |].
  assert (Hzero : (cer_closed reference hypothesis == 0)%Q
                  -> (accuracy_closed reference hypothesis == 100)%Q).
  { unfold accuracy_closed, cer_closed.
    destruct reference as [|c0 r]; [by destruct hypothesis |].
    apply accuracy_of_zero. }
  assert (Hbound : (accuracy_closed reference hypothesis == 100)%Q
                   -> (20000 * Z.of_nat (lev reference hypothesis)
                       <= Z.of_nat (length reference))%Z).
  { unfold accuracy_closed.
    destruct reference as [|c0 r]; [by destruct hypothesis |].
    intros Ha%accuracy_100_rate.
    apply rate_bound in Ha; [done | simpl; lia]. }
  split; [done |]. split; [done |].
  intros Hshort. split; [| done].
  intros Ha. specialize (Hbound Ha).
  assert (Hd : lev reference hypothesis = 0) by lia.
  unfold cer_closed. rewrite Hd.
  destruct reference as [|c0 r]; [| apply rate_zero].
  destruct hypothesis; [done |]. simpl in Hd. lia.
Qed.

(** C8: the built-in score is [exp] of the mean of the logarithms of
    the four modified precisions, times 100, when the four are
    positive, and 0 otherwise; the precision of order [n] is taken over
    the word n-grams of the two texts, the runs of [n] consecutive
    whitespace-delimited words; the score is 0 for a hypothesis without
    a word and for one without n-grams of some order from 1 to 4, that
    is with fewer than 4 words. *)
Theorem bleu_geometric_mean (reference hypothesis : str) :
  let p := modified_precision (split reference) (split hypothesis) in
  calculate_bleu builtin reference hypothesis
  = Some (if positive (p 1) && positive (p 2) && positive (p 3) && positive (p 4)
          then (exp ((ln (Q2R (p 1%nat)) + ln (Q2R (p 2%nat))
                      + ln (Q2R (p 3%nat)) + ln (Q2R (p 4%nat))) / 4)
                * 100)%R
          else 0%R)
  /\ (forall n, positive (p n) = true <-> (0 < p n)%Q)
  /\ (split hypothesis = [] -> calculate_bleu builtin reference hypothesis = Some 0%R)
  /\ (forall n, 1 <= n <= 4 -> word_ngrams n (split hypothesis) = [] ->
        calculate_bleu builtin reference hypothesis = Some 0%R)
  /\ (length (split hypothesis) < 4 ->
      calculate_bleu builtin reference hypothesis = Some 0%R)
  /\ (forall n words gram, 1 <= n ->
        gram ∈ word_ngrams n words <-> length gram = n /\ occurs_in gram words)
  /\ (forall n words, 1 <= n -> length (word_ngrams n words) = length words + 1 - n).
Proof.
  intros p. subst p. cbv beta. unfold calculate_bleu.
  cbn [sacrebleu_sentence_score builtin].
  assert (Hclosed : _simple_bleu reference hypothesis
            = Some (if positive (modified_precision (split reference) (split hypothesis) 1)
                       && positive (modified_precision (split reference) (split hypothesis) 2)
                       && positive (modified_precision (split reference) (split hypothesis) 3)
                       && positive (modified_precision (split reference) (split hypothesis) 4)
                    then (exp ((ln (Q2R (modified_precision (split reference)
                                           (split hypothesis) 1))
                                + ln (Q2R (modified_precision (split reference)
                                             (split hypothesis) 2))
                                + ln (Q2R (modified_precision (split reference)
                                             (split hypothesis) 3))
                                + ln (Q2R (modified_precision (split reference)
                                             (split hypothesis) 4))) / 4)
                          * 100)%R
                    else 0%R)).
  { rewrite simple_bleu_eq. by rewrite !precision_modified by lia. }
  split; [exact Hclosed |]. split; [intros n; apply positive_spec |].
  assert (Hnone : forall n, 1 <= n <= 4 -> word_ngrams n (split hypothesis) = [] ->
            _simple_bleu reference hypothesis = Some 0%R).
  { intros n Hn Hgrams. rewrite Hclosed.
    assert (Hp : positive (modified_precision (split reference) (split hypothesis) n)
                 = false).
    { unfold modified_precision. by rewrite Hgrams. }
    assert (Hcases : n = 1 \/ n = 2 \/ n = 3 \/ n = 4) by lia.
    destruct Hcases as [-> | [-> | [-> | ->]]]; rewrite Hp;
      by rewrite ?andb_false_r, ?andb_false_l. }
  split; [intros Hs; apply (Hnone 1); [lia | by rewrite Hs] |].
  split; [exact Hnone |].
  split; [intros Hlen; apply (Hnone 4); [lia | apply word_ngrams_nil; [lia | done]] |].
  split; [intros n words gram Hn; by apply elem_of_word_ngrams |].
  intros n words Hn. rewrite <- ngram_list_word_ngrams by done.
  unfold ngram_list. rewrite length_fmap, length_seq. lia.
Qed.

End Claims.

(** * Further properties of the code *)

(** ** The distance as a metric *)

Section DistanceFacts.
Context {A : Type} `{EqDecision A}.
Implicit Types s t u : list A.
Import Metrics.

Lemma alignment_trans s t n :
  alignment s t n -> forall u m, alignment t u m -> exists k, k <= n + m /\ alignment s u k.
Proof.
  induction 1 as [|a s t n H1 IH|a b s t n H1 IH|a s t n H1 IH|b s t n H1 IH];
    intros u m H2.
  - exists m. split; [lia | done].
  - remember (a :: t) as w eqn:Hw. revert Hw.
    induction H2 as [|c t0 u m H2 IH2|c d t0 u m H2 IH2|c t0 u m H2 IH2|d t0 u m H2 IH2];
      intros Hw; try discriminate.
    + injection Hw as -> ->. destruct (IH _ _ H2) as (k & Hk & Hal).
      exists k. split; [lia | by apply al_keep].
    + injection Hw as -> ->. destruct (IH _ _ H2) as (k & Hk & Hal).
      exists (S k). split; [lia | by apply al_substitute].
    + injection Hw as -> ->. destruct (IH _ _ H2) as (k & Hk & Hal).
      exists (S k). split; [lia | by apply al_delete].
    + destruct (IH2 Hw) as (k & Hk & Hal).
      exists (S k). split; [lia | by apply al_insert].
  - remember (b :: t) as w eqn:Hw. revert Hw.
    induction H2 as [|c t0 u m H2 IH2|c d t0 u m H2 IH2|c t0 u m H2 IH2|d t0 u m H2 IH2];
      intros Hw; try discriminate.
    + injection Hw as -> ->. destruct (IH _ _ H2) as (k & Hk & Hal).
      exists (S k). split; [lia | by apply al_substitute].
    + injection Hw as -> ->. destruct (IH _ _ H2) as (k & Hk & Hal).
      exists (S k). split; [lia | by apply al_substitute].
    + injection Hw as -> ->. destruct (IH _ _ H2) as (k & Hk & Hal).
      exists (S k). split; [lia | by apply al_delete].
    + destruct (IH2 Hw) as (k & Hk & Hal).
      exists (S k). split; [lia | by apply al_insert].
  - destruct (IH _ _ H2) as (k & Hk & Hal).
    exists (S k). split; [lia | by apply al_delete].
  - destruct (alignment_drop_source _ _ _ _ H2) as (m' & Hm' & H2').
    destruct (IH _ _ H2') as (k & Hk & Hal).
    exists k. split; [lia | done].
Qed.

Lemma lev_triangle s t u : lev s u <= lev s t + lev t u.
Proof.
  destruct (alignment_trans _ _ _ (lev_alignment s t) _ _ (lev_alignment t u))
    as (k & Hk & Hal).
  apply lev_minimal in Hal. lia.
Qed.

Lemma lev_upper s t : lev s t <= Nat.max (length s) (length t).
Proof.
  assert (Hal : exists n, n <= Nat.max (length s) (length t) /\ alignment s t n).
  { revert t. induction s as [|a s IH]; intros t.
    - exists (length t). split; [simpl; lia | apply alignment_nil_l].
    - destruct t as [|b t].
      + exists (length (a :: s)). split; [simpl; lia | apply alignment_nil_r].
      + destruct (IH t) as (n & Hn & Hal).
        exists (S n). split; [simpl; lia | by apply al_substitute]. }
  destruct Hal as (n & Hn & Hal). apply lev_minimal in Hal. lia.
Qed.

(** X1: for two sequences of any tokens (characters of two strings,
    words of two lists), [_levenshtein_distance] returns, without an
    exception, the least number of single-token insertions, deletions
    and substitutions that turn the first into the second. *)
Theorem levenshtein_distance_minimal_edits s t :
  exists d, _levenshtein_distance s t = Some d /\ edit_distance s t d.
Proof.
  exists (lev s t). split; [apply levenshtein_distance_lev | apply lev_edit_distance].
Qed.

(** X2: [_levenshtein_distance] is a metric: it does not depend on the
    order of its two arguments, it is 0 exactly for equal sequences, and
    the distance from [s] to [u] is at most the distance from [s] to [t]
    plus the distance from [t] to [u]. *)
Theorem levenshtein_distance_metric s t u :
  _levenshtein_distance s t = _levenshtein_distance t s
  /\ (_levenshtein_distance s t = Some 0 <-> s = t)
  /\ exists dst dtu dsu,
       _levenshtein_distance s t = Some dst
       /\ _levenshtein_distance t u = Some dtu
       /\ _levenshtein_distance s u = Some dsu
       /\ dsu <= dst + dtu.
Proof.
  rewrite !levenshtein_distance_lev. split; [by rewrite lev_sym |]. split.
  - rewrite <- lev_zero. split; [by intros [= ->] | by intros ->].
  - exists (lev s t), (lev t u), (lev s u). repeat split. apply lev_triangle.
Qed.

(** X3: the distance is at least the difference of the two lengths and
    at most the greater of the two lengths; against an empty sequence it
    is the length of the other one. *)
Theorem levenshtein_distance_bounds s t :
  exists d,
    _levenshtein_distance s t = Some d
    /\ length s - length t <= d /\ length t - length s <= d
    /\ d <= Nat.max (length s) (length t)
    /\ _levenshtein_distance s [] = Some (length s)
    /\ _levenshtein_distance [] t = Some (length t).
Proof.
  exists (lev s t). rewrite !levenshtein_distance_lev, lev_nil_r, lev_nil_l.
  pose proof (lev_length_diff s t). pose proof (lev_length_diff t s) as Hts.
  rewrite (lev_sym t s) in Hts. pose proof (lev_upper s t).
  repeat split; lia.
Qed.

End DistanceFacts.

(** ** The entries as an edit script *)

Section Trace.
Import Py Metrics Spec.
Variables ref_chars hyp_chars : str.
Variable T : tables.
Hypothesis HT : tables_ok ref_chars hyp_chars (fun _ _ => True) (fun _ _ => True) T.
Local Abbreviation m := (length ref_chars).
Local Abbreviation n := (length hyp_chars).
Local Abbreviation D := (dp_spec ref_chars hyp_chars).
Local Abbreviation O := (ops_spec ref_chars hyp_chars).

(** Whatever the bound on the iterations, a backtrace that returns has
    appended the entries of an [edit_trace]. *)
Lemma backtrace_edit_trace fuel :
  forall i j pos errs res, i <= m -> j <= n ->
  backtrace fuel (ops T) (Z.of_nat i) (Z.of_nat j) pos errs = Returns res ->
  exists new, res = errs ++ new /\ edit_trace ref_chars hyp_chars i j pos new.
Proof.
  induction fuel as [|fuel IH]; intros i j pos errs res Hi Hj Hrun; [done |].
  cbn [backtrace] in Hrun. rewrite (backtrace_cell _ _ _ HT) in Hrun by lia.
  destruct i as [|i]; [destruct j as [|j] |].
  - simpl in Hrun. injection Hrun as <-. exists []. split; [by rewrite app_nil_r | constructor].
  - destruct (lookup_lt_is_Some_2 hyp_chars j) as [h Hh]; [lia |].
    rewrite (ops_spec_row0 _ _ _ _ Hh) in Hrun.
    replace ((0 <? Z.of_nat 0) || (0 <? Z.of_nat (S j)))%Z with true in Hrun
      by (symmetry; apply orb_true_iff; right; apply Z.ltb_lt; lia).
    cbv iota beta in Hrun. rewrite decide_True in Hrun by done.
    replace (Z.of_nat (S j) - 1)%Z with (Z.of_nat j) in Hrun by lia.
    apply IH in Hrun as (new & -> & Htr); [| lia..].
    exists (entry pos insert [] [h] :: new). split; [by rewrite <- app_assoc |].
    by apply trace_insert.
  - destruct (lookup_lt_is_Some_2 ref_chars i) as [r Hr]; [lia |].
    assert (Hcond : ((0 <? Z.of_nat (S i)) || (0 <? Z.of_nat j))%Z = true).
    { apply orb_true_iff; left; apply Z.ltb_lt; lia. }
    rewrite Hcond in Hrun. destruct j as [|j].
    + rewrite (ops_spec_col0 _ _ _ _ Hr) in Hrun.
      cbv iota beta in Hrun. rewrite decide_True in Hrun by done.
      replace (Z.of_nat (S i) - 1)%Z with (Z.of_nat i) in Hrun by lia.
      apply IH in Hrun as (new & -> & Htr); [| lia..].
      exists (entry pos delete [r] [] :: new). split; [by rewrite <- app_assoc |].
      by apply trace_delete.
    + destruct (lookup_lt_is_Some_2 hyp_chars j) as [h Hh]; [lia |].
      destruct (decide (r = h)) as [<-|Hne].
      * rewrite (ops_spec_match _ _ _ _ _ Hr Hh) in Hrun.
        cbv iota beta in Hrun. rewrite decide_False in Hrun by (intros Hx; by apply Hx).
        replace (Z.of_nat (S i) - 1)%Z with (Z.of_nat i) in Hrun by lia.
        replace (Z.of_nat (S j) - 1)%Z with (Z.of_nat j) in Hrun by lia.
        apply IH in Hrun as (new & -> & Htr); [| lia..].
        exists new. split; [done |]. by eapply trace_match.
      * rewrite (ops_spec_differ _ _ _ _ _ _ Hr Hh Hne) in Hrun.
        destruct (min_key_costs r h (D i (S j)) (D (S i) j) (D i j)) as (o & Hmin & Hcase).
        rewrite Hmin in Hrun. cbn [fmap option_fmap option_map snd] in Hrun.
        destruct Hcase as [(-> & _)|[(-> & _)|(-> & _)]];
          cbv iota beta in Hrun; rewrite decide_True in Hrun by done.
        -- replace (Z.of_nat (S i) - 1)%Z with (Z.of_nat i) in Hrun by lia.
           apply IH in Hrun as (new & -> & Htr); [| lia..].
           exists (entry pos delete [r] [] :: new). split; [by rewrite <- app_assoc |].
           by apply trace_delete.
        -- replace (Z.of_nat (S j) - 1)%Z with (Z.of_nat j) in Hrun by lia.
           apply IH in Hrun as (new & -> & Htr); [| lia..].
           exists (entry pos insert [] [h] :: new). split; [by rewrite <- app_assoc |].
           by apply trace_insert.
        -- replace (Z.of_nat (S i) - 1)%Z with (Z.of_nat i) in Hrun by lia.
           replace (Z.of_nat (S j) - 1)%Z with (Z.of_nat j) in Hrun by lia.
           apply IH in Hrun as (new & -> & Htr); [| lia..].
           exists (entry pos substitute [r] [h] :: new). split; [by rewrite <- app_assoc |].
           by apply trace_substitute.
Qed.

End Trace.

Section TraceFacts.
Import Py Metrics Spec.

(** The list that [get_error_details] returns is, read from its end,
    the trace of a backtrace from [(m, n)] with the counter at
    [max(m, n)]. *)
Lemma get_error_details_trace (reference hypothesis : str) :
  exists errors,
    get_error_details reference hypothesis = Some errors
    /\ length errors = lev reference hypothesis
    /\ edit_trace reference hypothesis (length reference) (length hypothesis)
         (Z.max (Z.of_nat (length reference)) (Z.of_nat (length hypothesis)))
         (reverse errors).
Proof.
  destruct (get_error_details_spec reference hypothesis)
    as (errors & Hget & Hwithin & Hlen & _).
  exists errors. split; [done |]. split; [done |].
  specialize (Hwithin (S (length reference + length hypothesis)) ltac:(lia)).
  unfold get_error_details_within in Hwithin.
  destruct (build_tables_ok reference hypothesis) as (T & HT & Hok).
  rewrite HT in Hwithin.
  destruct (backtrace _ _ _ _ _ _) as [res| |] eqn:Hrun; [| done..].
  injection Hwithin as <-. rewrite reverse_involutive.
  apply (backtrace_edit_trace _ _ _ Hok) in Hrun as (new & -> & Htr); [done | lia..].
Qed.

Lemma edit_trace_shape ref_chars hyp_chars i j pos new :
  edit_trace ref_chars hyp_chars i j pos new ->
  Forall (entry_shape ref_chars hyp_chars) new.
Proof.
  induction 1 as [pos|i j pos r new Hr _ IH|i j pos h new Hh _ IH
                 |i j pos r h new Hr Hh Hne _ IH|i j pos r new Hr Hh _ IH];
    [constructor | | | | done]; constructor; try done.
  - left. repeat split. exists r. split; [done |]. by eapply list_elem_of_lookup_2.
  - right; left. repeat split. exists h. split; [done |]. by eapply list_elem_of_lookup_2.
  - right; right. do 2 (split; [done |]). exists r, h.
    repeat split; [done | by eapply list_elem_of_lookup_2..].
Qed.

Lemma count_type_cons t e errors :
  count_type t (e :: errors)
  = (if decide (e_type e = t) then 1 else 0) + count_type t errors.
Proof.
  unfold count_type. rewrite filter_cons. by destruct (decide (e_type e = t)).
Qed.

Lemma count_type_reverse t errors : count_type t (reverse errors) = count_type t errors.
Proof. unfold count_type. by rewrite filter_reverse, length_reverse. Qed.

Lemma edit_trace_counts ref_chars hyp_chars i j pos new :
  edit_trace ref_chars hyp_chars i j pos new ->
  count_type delete new + j = count_type insert new + i
  /\ count_type delete new + count_type substitute new <= i
  /\ count_type insert new + count_type substitute new <= j
  /\ count_type delete new + count_type insert new + count_type substitute new = length new.
Proof.
  induction 1; rewrite ?count_type_cons; simpl; unfold count_type in *; simpl; lia.
Qed.

Lemma edit_trace_sublists ref_chars hyp_chars i j pos new :
  edit_trace ref_chars hyp_chars i j pos new ->
  reference_chars (reverse new) `sublist_of` take i ref_chars
  /\ hypothesis_chars (reverse new) `sublist_of` take j hyp_chars.
Proof.
  unfold reference_chars, hypothesis_chars.
  induction 1 as [pos|i j pos r new Hr _ [IHr IHh]|i j pos h new Hh _ [IHr IHh]
                 |i j pos r h new Hr Hh Hne _ [IHr IHh]|i j pos r new Hr Hh _ [IHr IHh]];
    rewrite ?reverse_cons, ?bind_app, ?bind_cons, ?(take_S_r _ _ _ Hr),
      ?(take_S_r _ _ _ Hh); cbn [e_reference e_hypothesis entry mbind list_bind app].
  - split; apply sublist_nil_l.
  - rewrite !app_nil_r. split; [by apply sublist_app | done].
  - rewrite !app_nil_r. split; [done | by apply sublist_app].
  - split; by apply sublist_app.
  - split; by apply sublist_inserts_r.
Qed.

Lemma edit_trace_first_row ref_chars hyp_chars j :
  forall pos new,
  edit_trace ref_chars hyp_chars 0 j pos new ->
  reverse new
  = imap (fun k c => entry (pos - Z.of_nat j + 1 + Z.of_nat k) insert [] [c])
      (take j hyp_chars).
Proof.
  induction j as [|j IH]; intros pos new Htr;
    inversion Htr as [| |i' j' pos' h new' Hh Htr'| |]; subst.
  - done.
  - rewrite reverse_cons, (IH _ _ Htr'), (take_S_r _ _ _ Hh), imap_app.
    assert (Hj : j <= length hyp_chars).
    { apply Nat.lt_le_incl. eapply lookup_lt_Some. eassumption. }
    cbn [imap]. rewrite length_take, Nat.min_l, Nat.add_0_r by done.
    f_equal; [apply imap_ext; intros; f_equal; lia | do 2 f_equal; lia].
Qed.

Lemma edit_trace_first_column ref_chars hyp_chars i :
  forall pos new,
  edit_trace ref_chars hyp_chars i 0 pos new ->
  reverse new
  = imap (fun k c => entry (pos - Z.of_nat i + 1 + Z.of_nat k) delete [c] [])
      (take i ref_chars).
Proof.
  induction i as [|i IH]; intros pos new Htr;
    inversion Htr as [|i' j' pos' r new' Hr Htr'| | |]; subst.
  - done.
  - rewrite reverse_cons, (IH _ _ Htr'), (take_S_r _ _ _ Hr), imap_app.
    assert (Hi : i <= length ref_chars).
    { apply Nat.lt_le_incl. eapply lookup_lt_Some. eassumption. }
    cbn [imap]. rewrite length_take, Nat.min_l, Nat.add_0_r by done.
    f_equal; [apply imap_ext; intros; f_equal; lia | do 2 f_equal; lia].
Qed.

End TraceFacts.

(** ** What [get_error_details] lists *)

Section ErrorListing.
Import Py Metrics Spec.

(** X4: every entry that [get_error_details] returns is a deletion of
    one character of the reference (label ['脱落'], empty hypothesis
    side), an insertion of one character of the hypothesis (label
    ['挿入'], empty reference side) or a substitution of a character of
    the reference by a different character of the hypothesis (label
    ['置換（同音異字の可能性）']); no entry has the type ['match'] or the
    label ['不明']. *)
Theorem error_entries_shape (reference hypothesis : str) :
  exists errors,
    get_error_details reference hypothesis = Some errors
    /\ Forall (entry_shape reference hypothesis) errors
    /\ Forall (fun e => e_type e <> match_ /\ e_error_type e <> UNKNOWN) errors.
Proof.
  destruct (get_error_details_trace reference hypothesis) as (errors & Hget & _ & Htr).
  apply edit_trace_shape in Htr. rewrite Forall_reverse in Htr.
  exists errors. split; [done |]. split; [done |].
  eapply Forall_impl; [exact Htr |].
  intros e [(-> & -> & _)|[(-> & -> & _)|(-> & -> & _)]];
    (split; [done | compute; discriminate]).
Qed.

(** X5: in the list returned, deletions exceed insertions by exactly
    [len(reference) - len(hypothesis)]; deletions and substitutions
    together are at most [len(reference)], insertions and substitutions
    at most [len(hypothesis)]; the three kinds add up to the edit
    distance. *)
Theorem error_entries_balance (reference hypothesis : str) :
  exists errors,
    get_error_details reference hypothesis = Some errors
    /\ count_type delete errors + length hypothesis
       = count_type insert errors + length reference
    /\ count_type delete errors + count_type substitute errors <= length reference
    /\ count_type insert errors + count_type substitute errors <= length hypothesis
    /\ _levenshtein_distance reference hypothesis
       = Some (count_type delete errors + count_type insert errors
               + count_type substitute errors).
Proof.
  destruct (get_error_details_trace reference hypothesis) as (errors & Hget & Hlen & Htr).
  apply edit_trace_counts in Htr. rewrite !count_type_reverse, length_reverse in Htr.
  destruct Htr as (H1 & H2 & H3 & H4).
  exists errors. rewrite levenshtein_distance_lev, H4, Hlen. done.
Qed.

(** X6: read along the list, the reference characters of the entries
    (those deleted or replaced) occur in the reference in this order,
    and their hypothesis characters (those inserted or put in place)
    occur in the hypothesis in this order. *)
Theorem error_entries_in_text_order (reference hypothesis : str) :
  exists errors,
    get_error_details reference hypothesis = Some errors
    /\ reference_chars errors `sublist_of` reference
    /\ hypothesis_chars errors `sublist_of` hypothesis.
Proof.
  destruct (get_error_details_trace reference hypothesis) as (errors & Hget & _ & Htr).
  apply edit_trace_sublists in Htr. rewrite reverse_involutive, !firstn_all in Htr.
  by exists errors.
Qed.

(** X7: every position in the list is greater than
    [-min(len(reference), len(hypothesis))] and at most
    [max(len(reference), len(hypothesis))]. *)
Theorem error_positions_range (reference hypothesis : str) :
  exists errors,
    get_error_details reference hypothesis = Some errors
    /\ Forall (fun p => - Z.min (Z.of_nat (length reference)) (Z.of_nat (length hypothesis)) < p
                        <= Z.max (Z.of_nat (length reference)) (Z.of_nat (length hypothesis)))%Z
         (positions errors).
Proof.
  destruct (get_error_details_spec reference hypothesis)
    as (errors & Hget & _ & _ & _ & Hall).
  exists errors. split; [done |].
  eapply Forall_impl; [exact Hall |]. cbv beta. intros; lia.
Qed.

(** X8: against an empty reference the list is one insertion per
    character of the hypothesis, in order, with positions 1, 2, ...;
    against an empty hypothesis it is one deletion per character of the
    reference, in order, with positions 1, 2, ... *)
Theorem error_entries_empty_side (text : str) :
  get_error_details [] text
  = Some (imap (fun k c => entry (Z.of_nat (S k)) insert [] [c]) text)
  /\ get_error_details text []
     = Some (imap (fun k c => entry (Z.of_nat (S k)) delete [c] []) text).
Proof.
  split.
  - destruct (get_error_details_trace [] text) as (errors & -> & _ & Htr).
    apply edit_trace_first_row in Htr. rewrite reverse_involutive, firstn_all in Htr.
    f_equal. rewrite Htr. apply imap_ext. intros k c _. simpl. f_equal. lia.
  - destruct (get_error_details_trace text []) as (errors & -> & _ & Htr).
    apply edit_trace_first_column in Htr. rewrite reverse_involutive, firstn_all in Htr.
    f_equal. rewrite Htr. apply imap_ext. intros k c _. simpl. f_equal. lia.
Qed.

End ErrorListing.

(** ** Words *)

Section Words.
Import Py Metrics Comparator Spec.

Lemma split_from_words cur s :
  Forall (fun c => isspace c = false) cur -> Forall is_word (split_from cur s).
Proof.
  revert cur. induction s as [|c s IH]; intros cur Hcur; simpl.
  - destruct cur; [constructor |]. constructor; [by split | constructor].
  - destruct (isspace c) eqn:Hc.
    + destruct cur as [|k cur]; [by apply IH |].
      constructor; [by split | by apply IH].
    + apply IH. apply Forall_app. split; [done |]. by constructor.
Qed.

Lemma split_from_nonempty cur s : cur <> [] -> split_from cur s <> [].
Proof.
  revert cur. induction s as [|c s IH]; intros cur Hcur; simpl.
  - by destruct cur.
  - destruct (isspace c); [by destruct cur |]. apply IH. by destruct cur.
Qed.

Lemma join_cons w ws :
  ws <> [] -> join [SPACE] (w :: ws) = w ++ SPACE :: join [SPACE] ws.
Proof. by destruct ws. Qed.

(** Two words followed by the end or by a space: equal texts have equal
    words. *)
Lemma word_prefix_inj (w1 w2 rest1 rest2 : str) :
  Forall (fun c => isspace c = false) w1 -> Forall (fun c => isspace c = false) w2 ->
  (rest1 = [] \/ exists r, rest1 = SPACE :: r) ->
  (rest2 = [] \/ exists r, rest2 = SPACE :: r) ->
  w1 ++ rest1 = w2 ++ rest2 -> w1 = w2 /\ rest1 = rest2.
Proof.
  intros H1. revert w2. induction H1 as [|a w1 Ha H1 IH]; intros w2 H2 Hr1 Hr2 Heq.
  - destruct H2 as [|b w2 Hb H2]; [done |]. simpl in Heq.
    destruct Hr1 as [->|[r ->]]; [done |]. injection Heq as <- _. done.
  - destruct H2 as [|b w2 Hb H2]; simpl in Heq.
    + destruct Hr2 as [->|[r ->]]; [done |]. injection Heq as -> _. done.
    + injection Heq as -> Heq. destruct (IH _ H2 Hr1 Hr2 Heq) as [-> ->]. done.
Qed.

Lemma join_inj (ws1 ws2 : list str) :
  Forall is_word ws1 -> Forall is_word ws2 ->
  join [SPACE] ws1 = join [SPACE] ws2 -> ws1 = ws2.
Proof.
  intros H1. revert ws2. induction H1 as [|w1 ws1 [Hne1 Hw1] H1 IH]; intros ws2 H2 Heq.
  - destruct H2 as [|w2 ws2 [Hne2 Hw2] H2]; [done |].
    destruct ws2; simpl in Heq; [by subst |]. by destruct w2.
  - destruct H2 as [|w2 ws2 [Hne2 Hw2] H2].
    { destruct ws1; simpl in Heq; [by subst |]. by destruct w1. }
    assert (Hrest : forall ws : list str,
              (match ws with [] => [] | _ => SPACE :: join [SPACE] ws end = []
               \/ exists r, match ws with [] => [] | _ => SPACE :: join [SPACE] ws end
                            = SPACE :: r)).
    { intros []; [by left | right; by eexists]. }
    assert (Hjoin : forall (w : str) ws,
              join [SPACE] (w :: ws)
              = w ++ match ws with [] => [] | _ => SPACE :: join [SPACE] ws end).
    { intros w []; [by rewrite app_nil_r | done]. }
    rewrite !Hjoin in Heq.
    destruct (word_prefix_inj _ _ _ _ Hw1 Hw2 (Hrest ws1) (Hrest ws2) Heq) as [-> Hr].
    f_equal. destruct ws1 as [|v1 ws1], ws2 as [|v2 ws2]; try done.
    injection Hr as Hr. by apply IH.
Qed.

(** Joining the words of a text that is single-spaced and has no blank
    at either end gives the text back. *)
Lemma join_split_from b cur s :
  single_spaced b s -> no_trailing_blank s -> (cur = [] -> no_leading_blank s) ->
  join [SPACE] (split_from cur s) = cur ++ s.
Proof.
  revert b cur. induction s as [|c s IH]; intros b cur Hs Ht Hl.
  - simpl. destruct cur; [done |]. by rewrite app_nil_r.
  - assert (Ht' : no_trailing_blank s).
    { destruct s as [|d s]; [done |]. unfold no_trailing_blank in *.
      by rewrite last_cons_cons in Ht. }
    simpl in Hs |- *. destruct (isspace c) eqn:Hc.
    + destruct Hs as (-> & -> & Hs).
      destruct cur as [|k cur]; [specialize (Hl eq_refl); simpl in Hl; congruence |].
      destruct s as [|d s].
      { unfold no_trailing_blank in Ht. simpl in Ht. congruence. }
      assert (Hd : isspace d = false).
      { simpl in Hs. destruct (isspace d); [by destruct Hs as (_ & ? & _) | done]. }
      rewrite join_cons.
      * rewrite (IH true []); [done | done | done | done].
      * simpl. rewrite Hd. by apply split_from_nonempty.
    + rewrite (IH false (cur ++ [c])); [by rewrite <- app_assoc | done | done |].
      by destruct cur.
Qed.

Lemma rstrip_no_trailing_blank s : no_trailing_blank (rstrip s).
Proof.
  induction s as [|c s IH]; simpl; [done |].
  destruct (rstrip s) as [|k ks] eqn:Hks.
  - destruct (isspace c) eqn:Hc; [done | by unfold no_trailing_blank].
  - unfold no_trailing_blank in *. by rewrite last_cons_cons.
Qed.

(** The shape of a normalised text. *)
Lemma normalize_text_shape (text : str) :
  single_spaced false (_normalize_text {| normalize := true |} text)
  /\ no_leading_blank (_normalize_text {| normalize := true |} text)
  /\ no_trailing_blank (_normalize_text {| normalize := true |} text).
Proof.
  unfold _normalize_text, strip. cbn [normalize negb]. split; [| split].
  - apply rstrip_single_spaced.
    apply (lstrip_single_spaced false), sub_blank_runs_single_spaced.
  - apply rstrip_no_leading_blank, lstrip_no_leading_blank.
  - apply rstrip_no_trailing_blank.
Qed.

Lemma split_from_replace cur s :
  split_from cur (replace IDEOGRAPHIC_SPACE SPACE s) = split_from cur s.
Proof.
  revert cur. induction s as [|c s IH]; intros cur; [done |].
  unfold replace in *. cbn [map split_from].
  destruct (N.eqb_spec c IDEOGRAPHIC_SPACE) as [->|Hne].
  - change (isspace SPACE) with true. change (isspace IDEOGRAPHIC_SPACE) with true.
    cbv iota. by rewrite !IH.
  - by rewrite !IH.
Qed.

Lemma split_from_sub_blank_runs s :
  (forall cur, split_from cur (sub_blank_runs false s) = split_from cur s)
  /\ split_from [] (sub_blank_runs true s) = split_from [] s.
Proof.
  induction s as [|c s [IH1 IH2]]; [done |].
  cbn [sub_blank_runs]. destruct (isspace c) eqn:Hc.
  - split.
    + intros cur. cbn [split_from]. change (isspace SPACE) with true. cbv iota.
      by rewrite Hc, IH2.
    + cbn [split_from]. by rewrite Hc.
  - split; [intros cur |]; cbn [split_from]; by rewrite Hc, IH1.
Qed.

Lemma split_from_lstrip s : split_from [] (lstrip s) = split_from [] s.
Proof.
  induction s as [|c s IH]; [done |]. cbn [lstrip split_from].
  destruct (isspace c) eqn:Hc; [done |]. cbn [split_from]. by rewrite Hc.
Qed.

Lemma split_from_rstrip cur s : split_from cur (rstrip s) = split_from cur s.
Proof.
  revert cur. induction s as [|c s IH]; intros cur; [done |].
  assert (Hstep : split_from cur (rstrip (c :: s)) = split_from cur (c :: rstrip s)).
  { cbn [rstrip]. destruct (rstrip s); [| done].
    cbn [split_from]. destruct (isspace c) eqn:Hc; [by destruct cur |].
    cbn [split_from]. by rewrite Hc. }
  rewrite Hstep. cbn [split_from]. by rewrite !IH.
Qed.

Lemma split_normalize_text (self : TextComparator) (text : str) :
  split (_normalize_text self text) = split text.
Proof.
  unfold _normalize_text. destruct (normalize self); [| done]. cbn [negb].
  unfold split, strip.
  rewrite split_from_rstrip, split_from_lstrip.
  rewrite (proj1 (split_from_sub_blank_runs _)). apply split_from_replace.
Qed.

Lemma bleu_normalize_text (self : TextComparator) (reference hypothesis : str) :
  calculate_bleu builtin (_normalize_text self reference) (_normalize_text self hypothesis)
  = calculate_bleu builtin reference hypothesis.
Proof.
  unfold calculate_bleu. cbn [sacrebleu_sentence_score builtin].
  unfold _simple_bleu, ngram_score, get_ngrams.
  by rewrite !split_normalize_text.
Qed.

(** X9: normalisation does not change the words of a text: [split]
    gives the same list before and after [_normalize_text], whatever
    the [normalize] flag. *)
Theorem normalize_text_keeps_words (self : TextComparator) (text : str) :
  split (_normalize_text self text) = split text.
Proof. apply split_normalize_text. Qed.

(** X10: the built-in WER and the built-in n-gram score read their two
    texts only through [split], so they are the same on the raw texts
    and on the normalised texts. *)
Theorem wer_and_bleu_ignore_normalisation (self : TextComparator)
    (reference hypothesis : str) :
  calculate_wer builtin (_normalize_text self reference) (_normalize_text self hypothesis)
  = calculate_wer builtin reference hypothesis
  /\ calculate_bleu builtin (_normalize_text self reference)
       (_normalize_text self hypothesis)
     = calculate_bleu builtin reference hypothesis.
Proof.
  unfold calculate_wer, calculate_bleu. cbn [jiwer_wer sacrebleu_sentence_score builtin].
  split.
  - unfold _simple_wer. by rewrite !split_normalize_text.
  - fold (calculate_bleu builtin (_normalize_text self reference)
            (_normalize_text self hypothesis)).
    apply bleu_normalize_text.
Qed.

(** X11: words, as [split] yields them, are not empty and contain no
    blank; the built-in WER is 0 exactly when the two texts have the
    same words in the same order. *)
Theorem wer_zero_iff_same_words (reference hypothesis : str) :
  Forall is_word (split reference)
  /\ exists w,
       calculate_wer builtin reference hypothesis = Some w
       /\ ((w == 0)%Q <-> split reference = split hypothesis).
Proof.
  split; [apply split_from_words; constructor |].
  exists (wer_closed reference hypothesis). split; [apply simple_wer_eq |].
  unfold wer_closed.
  pose proof (split_from_words [] reference (Forall_nil_2 _)) as Hr.
  pose proof (split_from_words [] hypothesis (Forall_nil_2 _)) as Hh.
  fold (split reference) in Hr. fold (split hypothesis) in Hh.
  destruct (split reference) as [|w ws] eqn:Hsr.
  - destruct (split hypothesis); [done |]. split; [discriminate | discriminate].
  - split.
    + intros Hz%rate_is_zero; [| simpl; lia].
      apply lev_zero in Hz. by apply join_inj.
    + intros <-. rewrite lev_refl. apply rate_zero.
Qed.

(** X12: [" ".join(text.split())] is the text again for a normalised
    text, and such a text has no word exactly when it is empty; so after
    normalisation the built-in WER and CER of [compare] are quotients of
    one and the same integer, the character distance [d] of the two
    normalised texts: the WER is [d / len(words)] and the CER is
    [d / len(reference)], and for an empty reference the two are equal. *)
Theorem wer_of_normalised_texts (reference hypothesis : str) info :
  let r := _normalize_text {| normalize := true |} reference in
  let h := _normalize_text {| normalize := true |} hypothesis in
  join [SPACE] (split r) = r
  /\ (split r = [] <-> r = [])
  /\ exists result d,
       compare builtin {| normalize := true |} reference hypothesis info = Some result
       /\ _levenshtein_distance r h = Some d
       /\ match r with
          | [] => wer result = cer result
          | _ :: _ =>
              true_div d (length (split r)) = Some (wer result)
              /\ true_div d (length r) = Some (cer result)
          end.
Proof.
  intros r h.
  assert (Hjoin : forall text,
            join [SPACE] (split (_normalize_text {| normalize := true |} text))
            = _normalize_text {| normalize := true |} text).
  { intros text. destruct (normalize_text_shape text) as (Hs & Hl & Ht).
    unfold split. by rewrite (join_split_from false []). }
  assert (Hempty : forall text,
            split (_normalize_text {| normalize := true |} text) = []
            <-> _normalize_text {| normalize := true |} text = []).
  { intros text. split; [| by intros ->].
    intros Hsplit. by rewrite <- Hjoin, Hsplit. }
  split; [apply Hjoin |]. split; [apply Hempty |].
  destruct (compare_builtin {| normalize := true |} reference hypothesis info)
    as (result & Hcmp & _ & Hwer & Hcer & _).
  exists result, (lev r h). split; [done |].
  split; [apply levenshtein_distance_lev |].
  rewrite Hwer, Hcer. unfold wer_closed, cer_closed. fold r h.
  pose proof (Hjoin reference) as Hjr. pose proof (Hjoin hypothesis) as Hjh.
  pose proof (Hempty reference) as Her. pose proof (Hempty hypothesis) as Heh.
  fold r in Hjr, Her. fold h in Hjh, Heh. clearbody r h. rewrite Hjh.
  destruct r as [|c r'].
  - rewrite (proj2 Her eq_refl). destruct h as [|c h'].
    + by rewrite (proj2 Heh eq_refl).
    + destruct (split (c :: h')); [| done].
      by pose proof (proj1 Heh eq_refl).
  - destruct (split (c :: r')) as [|w ws].
    { by pose proof (proj1 Her eq_refl). }
    rewrite Hjr. split; apply true_div_S.
Qed.

(** X13: a normalised text has no blank at either end, every blank in
    it is an ordinary space, and no two spaces are adjacent. *)
Theorem normalize_text_is_single_spaced (text : str) :
  let t := _normalize_text {| normalize := true |} text in
  strip t = t
  /\ Forall (fun c => isspace c = true -> c = SPACE) t
  /\ (forall before after, t <> before ++ SPACE :: SPACE :: after)
  /\ no_leading_blank t /\ no_trailing_blank t.
Proof.
  intros t. destruct (normalize_text_shape text) as (Hs & Hl & Ht). fold t in Hs, Hl, Ht.
  split; [| split; [| split; [| done]]].
  - unfold t, _normalize_text. cbn [normalize negb]. apply strip_fixed.
  - clear Hl Ht. revert Hs. generalize false. induction t as [|c s IH]; intros b Hs.
    + constructor.
    + simpl in Hs. destruct (isspace c) eqn:Hc.
      * destruct Hs as (-> & _ & Hs). constructor; [done | by eapply IH].
      * constructor; [congruence | by eapply IH].
  - clear Hl Ht. intros before after ->. revert Hs. generalize false.
    induction before as [|c s IH]; intros b Hs.
    + simpl in Hs. change (isspace SPACE) with true in Hs. by destruct Hs as (_ & _ & _ & ? & _).
    + simpl in Hs. destruct (isspace c); [destruct Hs as (_ & _ & Hs) |]; by eapply IH.
Qed.

End Words.

(** ** Ranges of the rates *)

Section RateFacts.
Import Py Metrics Comparator Spec.

Lemma rate_nonneg (d n : nat) : (0 <= inject_Z (Z.of_nat d) / inject_Z (Z.of_nat (S n)))%Q.
Proof.
  apply Qle_shift_div_l.
  - change 0%Q with (inject_Z 0). rewrite <- Zlt_Qlt. lia.
  - rewrite Qmult_0_l. change 0%Q with (inject_Z 0). rewrite <- Zle_Qle. lia.
Qed.

Lemma rate_le_1 (d n : nat) :
  d <= S n -> (inject_Z (Z.of_nat d) / inject_Z (Z.of_nat (S n)) <= 1)%Q.
Proof.
  intros Hd. apply Qle_shift_div_r.
  - change 0%Q with (inject_Z 0). rewrite <- Zlt_Qlt. lia.
  - rewrite Qmult_1_l, <- Zle_Qle. lia.
Qed.

Lemma rate_ge_1 (d n : nat) :
  S n <= d -> (1 <= inject_Z (Z.of_nat d) / inject_Z (Z.of_nat (S n)))%Q.
Proof.
  intros Hd. apply Qle_shift_div_l.
  - change 0%Q with (inject_Z 0). rewrite <- Zlt_Qlt. lia.
  - rewrite Qmult_1_l, <- Zle_Qle. lia.
Qed.

Lemma cer_closed_zero_iff (reference hypothesis : str) :
  (cer_closed reference hypothesis == 0)%Q <-> reference = hypothesis.
Proof.
  unfold cer_closed. destruct reference as [|c r].
  - destruct hypothesis; split; done.
  - split.
    + intros Hz%rate_is_zero; [| simpl; lia]. by apply lev_zero.
    + intros <-. rewrite lev_refl. apply rate_zero.
Qed.

Lemma cer_closed_nonneg (reference hypothesis : str) :
  (0 <= cer_closed reference hypothesis)%Q.
Proof.
  unfold cer_closed. destruct reference as [|c r]; [by destruct hypothesis |].
  apply rate_nonneg.
Qed.

Lemma round_range x : (0 <= x -> x <= 100 -> 0 <= round x 2 /\ round x 2 <= 100)%Q.
Proof.
  intros H0 H100. unfold round. change (inject_Z (10 ^ Z.of_nat 2)) with 100%Q.
  pose proof (round_half_even_near (x * 100)) as [Hlo Hhi].
  set (z := round_half_even (x * 100)) in *.
  assert (Hz0 : (0 <= z)%Z).
  { assert (Hlt : (inject_Z (-1) < inject_Z z)%Q).
    { change (inject_Z (-1)) with (-1)%Q. Lqa.lra. }
    rewrite <- Zlt_Qlt in Hlt. lia. }
  assert (Hz1 : (z <= 10000)%Z).
  { assert (Hlt : (inject_Z z < inject_Z 10001)%Q).
    { change (inject_Z 10001) with 10001%Q. Lqa.lra. }
    rewrite <- Zlt_Qlt in Hlt. lia. }
  rewrite Zle_Qle in Hz0, Hz1.
  change (inject_Z 0) with 0%Q in Hz0. change (inject_Z 10000) with 10000%Q in Hz1.
  split.
  - apply Qle_shift_div_l; [done | Lqa.lra].
  - apply Qle_shift_div_r; [done | Lqa.lra].
Qed.

Lemma max0_range x : (x <= 100 -> 0 <= max0 x /\ max0 x <= 100)%Q.
Proof. intros Hx. unfold max0. destruct (Qlt_le_dec 0 x); split; Lqa.lra. Qed.

Lemma max0_nonpositive x : (x <= 0)%Q -> max0 x = 0%Q.
Proof. intros Hx. unfold max0. destruct (Qlt_le_dec 0 x); [Lqa.lra | done]. Qed.

(** X14: the built-in CER is never negative and is 0 exactly when the
    two texts are equal; it is at most 1 when the hypothesis is not
    longer than the reference, and exactly 1 when one of the two texts
    is empty and the other is not. *)
Theorem cer_range (reference hypothesis : str) :
  exists c,
    calculate_cer builtin reference hypothesis = Some c
    /\ (0 <= c)%Q
    /\ ((c == 0)%Q <-> reference = hypothesis)
    /\ (length hypothesis <= length reference -> (c <= 1)%Q)
    /\ (reference <> hypothesis -> reference = [] \/ hypothesis = [] -> (c == 1)%Q).
Proof.
  exists (cer_closed reference hypothesis). split; [apply simple_cer_eq |].
  split; [apply cer_closed_nonneg |]. split; [apply cer_closed_zero_iff |].
  unfold cer_closed. split.
  - intros Hlen. destruct reference as [|c r].
    + destruct hypothesis; [done | simpl in Hlen; lia].
    + pose proof (lev_upper (c :: r) hypothesis) as Hup.
      change (length (c :: r)) with (S (length r)) in *.
      apply rate_le_1. lia.
  - intros Hne [-> | ->].
    + by destruct hypothesis.
    + destruct reference as [|c r]; [done |]. rewrite lev_nil_r.
      change (length (c :: r)) with (S (length r)).
      apply Qle_antisym; [by apply rate_le_1 | by apply rate_ge_1].
Qed.

Lemma wer_closed_nonneg (reference hypothesis : str) :
  (0 <= wer_closed reference hypothesis)%Q.
Proof.
  unfold wer_closed. destruct (split reference) as [|w ws].
  - destruct (split hypothesis); Lqa.lra.
  - change (length (w :: ws)) with (S (length ws)). apply rate_nonneg.
Qed.

Lemma accuracy_closed_range (reference hypothesis : str) :
  (0 <= accuracy_closed reference hypothesis)%Q
  /\ (accuracy_closed reference hypothesis <= 100)%Q
  /\ ((1 <= cer_closed reference hypothesis)%Q
      -> (accuracy_closed reference hypothesis == 0)%Q).
Proof.
  pose proof (cer_closed_nonneg reference hypothesis) as Hc.
  unfold accuracy_closed, cer_closed in *.
  destruct reference as [|c0 r]; [by destruct hypothesis |].
  set (q := (inject_Z (Z.of_nat (lev (c0 :: r) hypothesis))
             / inject_Z (Z.of_nat (length (c0 :: r))))%Q) in *.
  assert (Hle : ((1 - q) * 100 <= 100)%Q) by Lqa.lra.
  destruct (max0_range _ Hle) as [Hm0 Hm1].
  destruct (round_range _ Hm0 Hm1) as [Hr0 Hr1].
  split; [done |]. split; [done |].
  intros Hq. rewrite max0_nonpositive by Lqa.lra. done.
Qed.

(** X15: the accuracy is always between 0 and 100, and it is 0 whenever
    the built-in CER is 1 or more. *)
Theorem accuracy_range (reference hypothesis : str) :
  exists a c,
    calculate_accuracy builtin reference hypothesis = Some a
    /\ calculate_cer builtin reference hypothesis = Some c
    /\ (0 <= a)%Q /\ (a <= 100)%Q
    /\ ((1 <= c)%Q -> (a == 0)%Q).
Proof.
  exists (accuracy_closed reference hypothesis), (cer_closed reference hypothesis).
  split; [apply accuracy_eq |]. split; [apply simple_cer_eq |].
  apply accuracy_closed_range.
Qed.

End RateFacts.

(** ** The n-gram score: range, and a text against itself *)

Section CountFacts.
Import Py Spec.
Context {K : Type} `{EqDecision K}.
Implicit Types (d : dict K nat) (g : K) (L : list K).

Local Abbreviation count_into d L :=
  (foldl (fun ngrams gram => dict_set ngrams gram (dict_get ngrams gram 0 + 1)) d L).

Lemma sum_list_with_le {X} (f1 f2 : X -> nat) (l : list X) :
  (forall x, x ∈ l -> f1 x <= f2 x) -> sum_list_with f1 l <= sum_list_with f2 l.
Proof.
  induction l as [|x l IH]; intros Hle; [done |]. cbn [sum_list_with].
  pose proof (Hle x (list_elem_of_here _ _)).
  assert (sum_list_with f1 l <= sum_list_with f2 l); [| lia].
  apply IH. intros y Hy. apply Hle. by apply list_elem_of_further.
Qed.

Lemma sum_list_with_eq {X} (f1 f2 : X -> nat) (l : list X) :
  (forall x, x ∈ l -> f1 x = f2 x) -> sum_list_with f1 l = sum_list_with f2 l.
Proof.
  intros Heq. apply Nat.le_antisymm; apply sum_list_with_le; intros x Hx;
    rewrite (Heq x Hx); done.
Qed.

Lemma sum_list_with_pos {X} (f : X -> nat) (l : list X) :
  0 < sum_list_with f l <-> exists x, x ∈ l /\ 0 < f x.
Proof.
  induction l as [|x l IH]; cbn [sum_list_with].
  - split; [lia | by intros (x & ?%elem_of_nil & _)].
  - split.
    + intros Hpos. destruct (decide (0 < f x)) as [Hx|Hx].
      * exists x. split; [apply list_elem_of_here | done].
      * destruct (proj1 IH) as (y & Hy & Hfy); [lia |].
        exists y. split; [by apply list_elem_of_further | done].
    + intros (y & [-> | Hy]%elem_of_cons & Hfy); [lia |].
      assert (0 < sum_list_with f l); [| lia]. apply IH. by exists y.
Qed.

Lemma sum_list_values d : sum_list_with snd d = sum_list d.*2.
Proof. induction d as [|[k v] d IH]; [done |]. rewrite fmap_cons. simpl. by rewrite IH. Qed.

Lemma occurrences_pos g L : 0 < occurrences g L <-> g ∈ L.
Proof.
  induction L as [|x L IH]; cbn [occurrences].
  - split; [lia | by intros ?%elem_of_nil].
  - rewrite elem_of_cons. destruct (decide (g = x)) as [->|Hne].
    + split; [by left | lia].
    + rewrite Nat.add_0_l, IH. split; [by right | by intros [? | ?]].
Qed.

(** No more matches than n-grams in the hypothesis. *)
Lemma clipped_matches_le (ref_grams hyp_grams : list K) :
  clipped_matches ref_grams hyp_grams <= length hyp_grams.
Proof.
  rewrite <- match_count_clipped.
  pose proof (count_into_sum [] hyp_grams) as Hsum.
  change (sum_list ([] : dict K nat).*2) with 0 in Hsum. rewrite Nat.add_0_l in Hsum.
  rewrite <- Hsum, <- sum_list_values.
  apply sum_list_with_le. intros [g v] _. cbn [snd].
  destruct (dict_in g _); lia.
Qed.

(** Every n-gram of a text matches when the text is its own reference. *)
Lemma clipped_matches_self (grams : list K) : clipped_matches grams grams = length grams.
Proof.
  rewrite <- match_count_clipped.
  pose proof (count_into_sum [] grams) as Hsum.
  change (sum_list ([] : dict K nat).*2) with 0 in Hsum. rewrite Nat.add_0_l in Hsum.
  rewrite <- Hsum, <- sum_list_values.
  assert (Hnd : NoDup (count_into [] grams).*1) by (apply count_into_NoDup; constructor).
  apply sum_list_with_eq. intros [g v] Hin. cbn [snd].
  rewrite (dict_get_present g v _ Hnd Hin).
  assert (Hg : dict_in g (count_into [] grams) = true).
  { apply dict_in_spec, list_elem_of_fmap. by exists (g, v). }
  rewrite Hg. lia.
Qed.

(** There is a match exactly when the two texts share an n-gram. *)
Lemma clipped_matches_pos (ref_grams hyp_grams : list K) :
  0 < clipped_matches ref_grams hyp_grams
  <-> exists g, g ∈ hyp_grams /\ g ∈ ref_grams.
Proof.
  unfold clipped_matches. rewrite sum_list_with_pos. split.
  - intros (g & Hg & Hmin). rewrite elem_of_remove_dups in Hg.
    exists g. split; [done |]. apply occurrences_pos. lia.
  - intros (g & Hh & Hr). exists g. rewrite elem_of_remove_dups. split; [done |].
    apply occurrences_pos in Hh, Hr. lia.
Qed.

End CountFacts.

Section BleuFacts.
Import Py Metrics Comparator Spec.

Lemma ngram_list_length (words : list str) (n : nat) :
  length (ngram_list words n) = Z.to_nat (Z.of_nat (length words) - Z.of_nat n + 1).
Proof. unfold ngram_list. by rewrite length_fmap, length_seq. Qed.

Lemma ngram_list_nil (words : list str) (n : nat) :
  ngram_list words n = [] <-> length words < n.
Proof. rewrite <- length_zero_iff_nil, ngram_list_length. lia. Qed.

Lemma rate_pos (d n : nat) :
  (0 < inject_Z (Z.of_nat d) / inject_Z (Z.of_nat (S n)))%Q <-> 0 < d.
Proof.
  assert (Hn : (0 < inject_Z (Z.of_nat (S n)))%Q).
  { change 0%Q with (inject_Z 0). rewrite <- Zlt_Qlt. lia. }
  split.
  - intros Hpos. destruct d; [| lia]. rewrite rate_zero in Hpos. by apply Qlt_irrefl in Hpos.
  - intros Hd. apply Qlt_shift_div_l; [done |]. rewrite Qmult_0_l.
    change 0%Q with (inject_Z 0). rewrite <- Zlt_Qlt. lia.
Qed.

Lemma precision_range (ref_words hyp_words : list str) (n : nat) :
  (0 <= precision ref_words hyp_words n)%Q /\ (precision ref_words hyp_words n <= 1)%Q.
Proof.
  unfold precision.
  pose proof (clipped_matches_le (ngram_list ref_words n) (ngram_list hyp_words n)) as Hle.
  destruct (ngram_list hyp_words n) as [|g gs]; [split; Lqa.lra |].
  change (length (g :: gs)) with (S (length gs)) in *.
  split; [apply rate_nonneg | by apply rate_le_1].
Qed.

Lemma precision_pos (ref_words hyp_words : list str) (n : nat) :
  (0 < precision ref_words hyp_words n)%Q
  <-> exists gram, gram ∈ ngram_list hyp_words n /\ gram ∈ ngram_list ref_words n.
Proof.
  unfold precision. rewrite <- clipped_matches_pos.
  destruct (ngram_list hyp_words n) as [|g gs] eqn:Hg.
  - split; [intros Hlt; by apply Qlt_irrefl in Hlt |].
    pose proof (clipped_matches_le (ngram_list ref_words n) []) as Hle. simpl in Hle. lia.
  - change (length (g :: gs)) with (S (length gs)). apply rate_pos.
Qed.

Lemma precision_self (words : list str) (n : nat) :
  ngram_list words n <> [] -> (precision words words n == 1)%Q.
Proof.
  intros Hne. unfold precision.
  destruct (ngram_list words n) as [|g gs]; [done |].
  rewrite clipped_matches_self. unfold Qdiv. apply Qmult_inv_r. intros Hz. change 0%Q with (inject_Z 0) in Hz.
  apply (proj1 (inject_Z_injective _ _)) in Hz. simpl in Hz. lia.
Qed.

Lemma ln_le_0 x : (0 < x)%R -> (x <= 1)%R -> (ln x <= 0)%R.
Proof.
  intros H0 [Hlt | ->]; [| rewrite ln_1; lra].
  left. rewrite <- ln_1. by apply ln_increasing.
Qed.

Lemma exp_le_1 x : (x <= 0)%R -> (exp x <= 1)%R.
Proof.
  intros [Hlt | ->]; [| rewrite exp_0; lra].
  left. rewrite <- exp_0. by apply exp_increasing.
Qed.

Lemma ln_precision_le_0 (ref_words hyp_words : list str) (n : nat) :
  positive (precision ref_words hyp_words n) = true ->
  (ln (Q2R (precision ref_words hyp_words n)) <= 0)%R.
Proof.
  intros Hpos%positive_spec. destruct (precision_range ref_words hyp_words n) as [_ Hle].
  apply Qreals.Qlt_Rlt in Hpos. apply Qreals.Qle_Rle in Hle.
  rewrite RMicromega.Q2R_0 in Hpos. rewrite RMicromega.Q2R_1 in Hle.
  by apply ln_le_0.
Qed.

Lemma compare_fields libs self reference hypothesis info result :
  compare libs self reference hypothesis info = Some result ->
  calculate_accuracy libs (_normalize_text self reference) (_normalize_text self hypothesis)
  = Some (accuracy result)
  /\ calculate_wer libs (_normalize_text self reference) (_normalize_text self hypothesis)
     = Some (wer result)
  /\ calculate_cer libs (_normalize_text self reference) (_normalize_text self hypothesis)
     = Some (cer result)
  /\ calculate_bleu libs (_normalize_text self reference) (_normalize_text self hypothesis)
     = Some (bleu result)
  /\ Comparator.reference result = reference
  /\ Comparator.hypothesis result = hypothesis
  /\ source_info result = info.
Proof.
  unfold compare. intros Hcmp.
  destruct (calculate_accuracy _ _ _); [| done].
  destruct (calculate_wer _ _ _); [| done].
  destruct (calculate_cer _ _ _); [| done].
  destruct (calculate_bleu _ _ _); [| done].
  destruct (get_error_details _ _) as [raw|]; [| done].
  by injection Hcmp as <-.
Qed.

(** The closed form of the score lies between 0 and 100 and is
    positive exactly when the four precisions are. *)
Lemma simple_bleu_bounds (reference hypothesis : str) :
  exists b,
    _simple_bleu reference hypothesis = Some b
    /\ (0 <= b)%R /\ (b <= 100)%R
    /\ ((0 < b)%R
        <-> forall n, 1 <= n <= 4 ->
              positive (precision (split reference) (split hypothesis) n) = true).
Proof.
  rewrite simple_bleu_eq. eexists. split; [done |].
  set (p := precision (split reference) (split hypothesis)).
  assert (Hzero : forall n, 1 <= n <= 4 -> positive (p n) = false ->
            ~ (forall n, 1 <= n <= 4 -> positive (p n) = true)).
  { intros n Hn Hp Hall. specialize (Hall n Hn). congruence. }
  destruct (positive (p 1)) eqn:H1; cbn [andb];
    [| split; [lra | split; [lra | split; [intros ?; lra |]]];
       intros Hall; exfalso; by apply (Hzero 1); [lia | |]].
  destruct (positive (p 2)) eqn:H2; cbn [andb];
    [| split; [lra | split; [lra | split; [intros ?; lra |]]];
       intros Hall; exfalso; by apply (Hzero 2); [lia | |]].
  destruct (positive (p 3)) eqn:H3; cbn [andb];
    [| split; [lra | split; [lra | split; [intros ?; lra |]]];
       intros Hall; exfalso; by apply (Hzero 3); [lia | |]].
  destruct (positive (p 4)) eqn:H4; cbn [andb];
    [| split; [lra | split; [lra | split; [intros ?; lra |]]];
       intros Hall; exfalso; by apply (Hzero 4); [lia | |]].
  apply ln_precision_le_0 in H1 as Hl1, H2 as Hl2, H3 as Hl3, H4 as Hl4.
  fold p in Hl1, Hl2, Hl3, Hl4.
  set (s := ((ln (Q2R (p 1%nat)) + ln (Q2R (p 2%nat))
               + ln (Q2R (p 3%nat)) + ln (Q2R (p 4%nat))) / 4)%R).
  pose proof (exp_pos s) as Hpos.
  assert (Hle : (exp s <= 1)%R) by (apply exp_le_1; unfold s; lra).
  split; [lra |]. split; [lra |]. split; [| lra].
  intros _ n Hn.
  assert (Hcases : n = 1 \/ n = 2 \/ n = 3 \/ n = 4) by lia.
  by destruct Hcases as [-> | [-> | [-> | ->]]].
Qed.

(** X16: the built-in n-gram score lies between 0 and 100, and it is
    positive exactly when, for every order [n] from 1 to 4, some run of
    [n] consecutive words of the hypothesis is also a run of
    consecutive words of the reference. *)
Theorem bleu_range (reference hypothesis : str) :
  exists b,
    calculate_bleu builtin reference hypothesis = Some b
    /\ (0 <= b)%R /\ (b <= 100)%R
    /\ ((0 < b)%R
        <-> forall n, 1 <= n <= 4 ->
              exists gram, length gram = n
                           /\ occurs_in gram (split hypothesis)
                           /\ occurs_in gram (split reference)).
Proof.
  unfold calculate_bleu. cbn [sacrebleu_sentence_score builtin].
  destruct (simple_bleu_bounds reference hypothesis) as (b & Hb & H0 & H100 & Hpos).
  exists b. do 3 (split; [done |]). rewrite Hpos.
  assert (Hshared : forall n, 1 <= n ->
            positive (precision (split reference) (split hypothesis) n) = true
            <-> exists gram, length gram = n
                             /\ occurs_in gram (split hypothesis)
                             /\ occurs_in gram (split reference)).
  { intros n Hn. rewrite positive_spec, precision_pos.
    rewrite !ngram_list_word_ngrams by done. split.
    - intros (gram & Hh & Hr). apply elem_of_word_ngrams in Hh as [Hlen Hh]; [| done].
      apply elem_of_word_ngrams in Hr as [_ Hr]; [| done]. by exists gram.
    - intros (gram & Hlen & Hh & Hr). exists gram.
      split; by apply elem_of_word_ngrams. }
  split; intros Hall n Hn; specialize (Hall n Hn); apply Hshared; [lia | done | lia | done].
Qed.

(** X17: the built-in n-gram score of a text against itself is 100
    when the text has at least four words and 0 when it has fewer, and
    so is the [bleu] of comparing a text with itself. *)
Theorem bleu_same_text (self : TextComparator) (text : str) info :
  calculate_bleu builtin text text
  = Some (if 4 <=? length (split text) then 100%R else 0%R)
  /\ exists result,
       compare builtin self text text info = Some result
       /\ bleu result = (if 4 <=? length (split text) then 100%R else 0%R).
Proof.
  assert (Hbleu : calculate_bleu builtin text text
                  = Some (if 4 <=? length (split text) then 100%R else 0%R)).
  { unfold calculate_bleu. cbn [sacrebleu_sentence_score builtin].
    rewrite simple_bleu_eq. f_equal.
    destruct (4 <=? length (split text)) eqn:Hlen.
    - apply Nat.leb_le in Hlen.
      assert (Hone : forall n, 1 <= n <= 4 -> (precision (split text) (split text) n == 1)%Q).
      { intros n Hn. apply precision_self. rewrite ngram_list_nil. lia. }
      assert (Hpos : forall n, 1 <= n <= 4 ->
                positive (precision (split text) (split text) n) = true).
      { intros n Hn. apply positive_spec. rewrite (Hone n Hn). done. }
      assert (Hln : forall n, 1 <= n <= 4 ->
                ln (Q2R (precision (split text) (split text) n)) = 0%R).
      { intros n Hn. rewrite (Qreals.Qeq_eqR _ _ (Hone n Hn)), RMicromega.Q2R_1. apply ln_1. }
      rewrite !Hpos, !Hln by lia. cbn [andb].
      replace ((0 + 0 + 0 + 0) / 4)%R with 0%R by lra. rewrite exp_0. lra.
    - apply Nat.leb_gt in Hlen.
      assert (Hp : positive (precision (split text) (split text) 4) = false).
      { unfold precision. by rewrite (proj2 (ngram_list_nil (split text) 4)). }
      rewrite Hp. by rewrite !andb_false_r. }
  split; [done |].
  destruct (compare_builtin self text text info) as (result & Hcmp & _).
  exists result. split; [done |].
  apply compare_fields in Hcmp as (_ & _ & _ & Hb & _).
  rewrite bleu_normalize_text, Hbleu in Hb. by injection Hb as <-.
Qed.

End BleuFacts.

(** ** [compare]: when it reports no error, and normalised inputs *)

Section CompareFacts.
Import Py Metrics Comparator Spec.

Lemma normalize_text_fixed (self : TextComparator) (text : str) :
  _normalize_text self (_normalize_text self text) = _normalize_text self text.
Proof.
  destruct self as [[|]]; [| done].
  unfold _normalize_text. cbn [normalize negb].
  set (u := sub_blank_runs false (replace IDEOGRAPHIC_SPACE SPACE text)).
  assert (Hs : single_spaced false (strip u)).
  { unfold strip. apply rstrip_single_spaced.
    apply (lstrip_single_spaced false), sub_blank_runs_single_spaced. }
  rewrite (replace_fixed _ _ Hs), (sub_blank_runs_fixed _ _ Hs).
  apply strip_fixed.
Qed.

(** X18: with the built-in rates, [compare] reports no error exactly
    when the two normalised texts are equal, which is also exactly when
    its CER is 0; the WER is then 0 and the accuracy 100. *)
Theorem compare_no_error_iff (self : TextComparator) (reference hypothesis : str) info :
  exists result,
    compare builtin self reference hypothesis info = Some result
    /\ (errors result = []
        <-> _normalize_text self reference = _normalize_text self hypothesis)
    /\ ((cer result == 0)%Q
        <-> _normalize_text self reference = _normalize_text self hypothesis)
    /\ (_normalize_text self reference = _normalize_text self hypothesis ->
        (wer result == 0)%Q /\ (accuracy result == 100)%Q).
Proof.
  destruct (compare_builtin self reference hypothesis info)
    as (result & Hcmp & Hacc & Hwer & Hcer & raw & _ & Hlen & Herr).
  exists result. split; [done |].
  set (r := _normalize_text self reference) in *.
  set (h := _normalize_text self hypothesis) in *. clearbody r h.
  split; [| split].
  - rewrite Herr, <- lev_zero, <- Hlen. destruct raw; [done |].
    split; [discriminate | simpl; lia].
  - rewrite Hcer. apply cer_closed_zero_iff.
  - intros <-. rewrite Hwer, Hacc. unfold wer_closed, accuracy_closed. split.
    + destruct (split r); [done |]. rewrite lev_refl. apply rate_zero.
    + destruct r; [done |]. rewrite lev_refl. apply accuracy_of_zero, rate_zero.
Qed.

(** X19: normalising the two texts beforehand changes nothing in what
    [compare] measures, whatever libraries compute the rates: the
    call on the normalised texts raises exactly when the call on the
    raw texts does, and otherwise gives the same accuracy, WER, CER,
    n-gram score and errors; only the texts stored in the result
    differ. *)
Theorem compare_of_normalised_texts (libs : Libraries) (self : TextComparator)
    (reference hypothesis : str) info :
  match compare libs self reference hypothesis info,
        compare libs self (_normalize_text self reference)
          (_normalize_text self hypothesis) info with
  | Some raw, Some normalised =>
      accuracy raw = accuracy normalised /\ wer raw = wer normalised
      /\ cer raw = cer normalised /\ bleu raw = bleu normalised
      /\ errors raw = errors normalised
      /\ Comparator.reference raw = reference
      /\ Comparator.reference normalised = _normalize_text self reference
      /\ Comparator.hypothesis raw = hypothesis
      /\ Comparator.hypothesis normalised = _normalize_text self hypothesis
  | None, None => True
  | _, _ => False
  end.
Proof.
  unfold compare. rewrite !normalize_text_fixed.
  destruct (calculate_accuracy _ _ _); [| done].
  destruct (calculate_wer _ _ _); [| done].
  destruct (calculate_cer _ _ _); [| done].
  destruct (calculate_bleu _ _ _); [| done].
  destruct (get_error_details _ _) as [raw|]; [| done].
  done.
Qed.

End CompareFacts.

(** ** [compare_batch] *)

Section Batch.
Import Py Metrics Comparator Spec.

Lemma compare_batch_loop (self : TextComparator)
    (items : list (str * str * option (dict str str))) (acc : list ComparisonResult) :
  exists results,
    for_each (fun results '((ref, hyp), info) =>
                result ← compare builtin self ref hyp info;
                Some (results ++ [result])) items acc
    = Some (acc ++ results)
    /\ Forall2 (fun item result =>
                  compare builtin self item.1.1 item.1.2 item.2 = Some result)
         items results.
Proof.
  revert acc. induction items as [|[[ref hyp] info] items IH]; intros acc.
  - exists []. by rewrite app_nil_r.
  - destruct (compare_builtin self ref hyp info) as (result & Hcmp & _).
    destruct (IH (acc ++ [result])) as (results & Hloop & Hall).
    exists (result :: results). split.
    + cbn [for_each]. rewrite Hcmp. cbn [mbind option_bind].
      rewrite Hloop. by rewrite <- app_assoc.
    + by constructor.
Qed.

Lemma compare_batch_items (self : TextComparator) (pairs : list (str * str))
    (source_infos : option (list (option (dict str str)))) :
  exists results,
    compare_batch builtin self pairs source_infos = Some results
    /\ Forall2 (fun item result =>
                  compare builtin self item.1.1 item.1.2 item.2 = Some result)
         (zip pairs (match source_infos with
                     | None => replicate (length pairs) None
                     | Some infos => infos
                     end)) results.
Proof.
  unfold compare_batch.
  destruct (compare_batch_loop self
              (zip pairs (match source_infos with
                          | None => replicate (length pairs) None
                          | Some infos => infos
                          end)) []) as (results & Hloop & Hall).
  exists results. by rewrite Hloop.
Qed.

Lemma lookup_zip_Some {X Y} (l : list X) (k : list Y) (i : nat) (x : X) (y : Y) :
  zip l k !! i = Some (x, y) <-> l !! i = Some x /\ k !! i = Some y.
Proof.
  revert k i. induction l as [|a l IH]; intros [|b k] [|i]; simpl;
    try (split; [done | by intros [? ?]]).
  - split; [by intros [= -> ->] | by intros [[= ->] [= ->]]].
  - apply IH.
Qed.

(** X20: with the built-in rates [compare_batch] always returns a
    list.  Without [source_infos] it has one result per pair; with
    [source_infos] it has as many results as the shorter of the two
    lists, the pairs beyond it being dropped without an error.  The
    result at index [k] is [compare] of the pair at index [k] with the
    source information at index [k] ([None] without [source_infos]),
    so the order of the pairs is kept. *)
Theorem compare_batch_results (self : TextComparator) (pairs : list (str * str))
    (source_infos : option (list (option (dict str str)))) :
  exists results,
    compare_batch builtin self pairs source_infos = Some results
    /\ length results
       = match source_infos with
         | None => length pairs
         | Some infos => Nat.min (length pairs) (length infos)
         end
    /\ forall k result,
         results !! k = Some result ->
         exists ref hyp,
           pairs !! k = Some (ref, hyp)
           /\ compare builtin self ref hyp
                (match source_infos with
                 | None => None
                 | Some infos => default None (infos !! k)
                 end) = Some result
           /\ Comparator.reference result = ref
           /\ Comparator.hypothesis result = hyp.
Proof.
  destruct (compare_batch_items self pairs source_infos) as (results & Hbatch & Hall).
  exists results. split; [done |]. split.
  - apply Forall2_length in Hall. rewrite <- Hall, length_zip.
    destruct source_infos; [done |]. rewrite length_replicate. lia.
  - intros k result Hk.
    destruct (Forall2_lookup_r _ _ _ _ _ Hall Hk) as ([[ref hyp] info] & Hitem & Hcmp).
    apply lookup_zip_Some in Hitem as [Hpair Hinfo]. cbn [fst snd] in Hcmp.
    exists ref, hyp. split; [done |].
    assert (Hsame : match source_infos with
                    | None => None
                    | Some infos => default None (infos !! k)
                    end = info).
    { destruct source_infos as [infos|]; [by rewrite Hinfo |].
      apply lookup_replicate in Hinfo as [-> _]. done. }
    rewrite Hsame. split; [done |].
    apply compare_fields in Hcmp as (_ & _ & _ & _ & Href & Hhyp & _). done.
Qed.

End Batch.

(** ** [summarize] *)

Section Summarize.
Import Py Metrics Comparator Spec.

Local Abbreviation count_into d L :=
  (foldl (fun ngrams gram => dict_set ngrams gram (dict_get ngrams gram 0 + 1)) d L).

Lemma count_error_fold (breakdown : dict str nat) (total : nat) (errs : list ErrorDetail) :
  foldl count_error (breakdown, total) errs
  = (count_into breakdown (error_type <$> errs), total + length errs).
Proof.
  revert breakdown total. induction errs as [|e errs IH]; intros breakdown total.
  - simpl. f_equal. lia.
  - cbn [foldl count_error fmap list_fmap length]. rewrite IH. f_equal. lia.
Qed.

Lemma count_errors_from (breakdown : dict str nat) (total : nat)
    (results : list ComparisonResult) :
  foldl (fun st result => foldl count_error st (errors result)) (breakdown, total) results
  = (count_into breakdown (error_type <$> concat (errors <$> results)),
     total + length (concat (errors <$> results))).
Proof.
  revert breakdown total. induction results as [|r results IH]; intros breakdown total.
  - simpl. f_equal. lia.
  - cbn [foldl fmap list_fmap concat]. rewrite count_error_fold, IH.
    rewrite fmap_app, foldl_app, length_app. f_equal. lia.
Qed.

Lemma summarize_returns (self : TextComparator) (results : list ComparisonResult) :
  exists summary,
    summarize self results = Some summary
    /\ total_items summary = length results
    /\ total_errors summary = length (concat (errors <$> results))
    /\ error_breakdown summary
       = count_into [] (error_type <$> concat (errors <$> results))
    /\ (results <> [] ->
        avg_accuracy summary
        = round (foldl Qplus 0%Q (accuracy <$> results)
                 / inject_Z (Z.of_nat (length results))) 2
        /\ avg_wer summary
           = round (foldl Qplus 0%Q (wer <$> results)
                    / inject_Z (Z.of_nat (length results))) 4
        /\ avg_cer summary
           = round (foldl Qplus 0%Q (cer <$> results)
                    / inject_Z (Z.of_nat (length results))) 4
        /\ avg_bleu summary
           = round_R (foldl Rplus 0%R (bleu <$> results) / INR (length results)) 2).
Proof.
  destruct results as [|r results]; [by eexists |].
  unfold summarize, count_errors. rewrite count_errors_from.
  unfold div_count, div_count_R. change (length (r :: results) =? 0) with false.
  cbn [mbind option_bind]. eexists. split; [done |].
  cbn [total_items total_errors error_breakdown avg_accuracy avg_wer avg_cer avg_bleu].
  done.
Qed.

(** X21: [summarize] always returns a summary.  [total_items] is the
    number of results and [total_errors] the number of errors of all
    results together; [error_breakdown] has one key for each label that
    occurs among these errors and no other, each key once, its value is
    the number of errors with that label (a label that does not occur
    reads as 0 with [get]), and the values add up to [total_errors]. *)
Theorem summarize_counts (self : TextComparator) (results : list ComparisonResult) :
  let labels := error_type <$> concat (errors <$> results) in
  exists summary,
    summarize self results = Some summary
    /\ total_items summary = length results
    /\ total_errors summary = length labels
    /\ (forall label,
          dict_get (error_breakdown summary) label 0 = occurrences label labels)
    /\ (forall label, dict_in label (error_breakdown summary) = true <-> label ∈ labels)
    /\ NoDup (error_breakdown summary).*1
    /\ sum_list (error_breakdown summary).*2 = total_errors summary.
Proof.
  intros labels.
  destruct (summarize_returns self results) as (summary & Hsum & Hitems & Htotal & Hbd & _).
  exists summary. rewrite Hbd, Htotal. fold labels.
  split; [done |]. split; [done |].
  split; [unfold labels; by rewrite length_fmap |].
  split; [intros label; by rewrite count_into_get |].
  split.
  { intros label. rewrite dict_in_spec, count_into_keys, elem_of_nil. tauto. }
  split; [apply count_into_NoDup; constructor |].
  rewrite count_into_sum. unfold labels. by rewrite length_fmap.
Qed.

End Summarize.

(** ** Averages of a summary, and a batch summarised *)

Section Averages.
Import Py Metrics Comparator Spec.

Lemma sum_lower (lo : Q) (l : list Q) (a : Q) :
  Forall (fun x => lo <= x)%Q l ->
  (a + lo * inject_Z (Z.of_nat (length l)) <= foldl Qplus a l)%Q.
Proof.
  revert a. induction l as [|x l IH]; intros a Hall.
  - cbn [foldl length]. change (inject_Z (Z.of_nat 0)) with 0%Q. Lqa.lra.
  - apply Forall_cons in Hall as [Hx Hl]. cbn [foldl length].
    specialize (IH (a + x)%Q Hl).
    rewrite Nat2Z.inj_succ, <- Z.add_1_r, inject_Z_plus. change (inject_Z 1) with 1%Q.
    Lqa.lra.
Qed.

Lemma sum_upper (hi : Q) (l : list Q) (a : Q) :
  Forall (fun x => x <= hi)%Q l ->
  (foldl Qplus a l <= a + hi * inject_Z (Z.of_nat (length l)))%Q.
Proof.
  revert a. induction l as [|x l IH]; intros a Hall.
  - cbn [foldl length]. change (inject_Z (Z.of_nat 0)) with 0%Q. Lqa.lra.
  - apply Forall_cons in Hall as [Hx Hl]. cbn [foldl length].
    specialize (IH (a + x)%Q Hl).
    rewrite Nat2Z.inj_succ, <- Z.add_1_r, inject_Z_plus. change (inject_Z 1) with 1%Q.
    Lqa.lra.
Qed.

Lemma count_positive {X} (l : list X) :
  l <> [] -> (0 < inject_Z (Z.of_nat (length l)))%Q.
Proof.
  intros Hne. change 0%Q with (inject_Z 0). rewrite <- Zlt_Qlt.
  destruct l; [done | simpl; lia].
Qed.

Lemma mean_lower (lo : Q) (l : list Q) :
  l <> [] -> Forall (fun x => lo <= x)%Q l ->
  (lo <= foldl Qplus 0 l / inject_Z (Z.of_nat (length l)))%Q.
Proof.
  intros Hne Hall. apply Qle_shift_div_l; [by apply count_positive |].
  pose proof (sum_lower lo l 0 Hall). Lqa.lra.
Qed.

Lemma mean_upper (hi : Q) (l : list Q) :
  l <> [] -> Forall (fun x => x <= hi)%Q l ->
  (foldl Qplus 0 l / inject_Z (Z.of_nat (length l)) <= hi)%Q.
Proof.
  intros Hne Hall. apply Qle_shift_div_r; [by apply count_positive |].
  pose proof (sum_upper hi l 0 Hall). Lqa.lra.
Qed.

Lemma sum_bounds_R (lo hi : R) (l : list R) (a : R) :
  Forall (fun x => lo <= x /\ x <= hi)%R l ->
  (a + lo * INR (length l) <= foldl Rplus a l
   /\ foldl Rplus a l <= a + hi * INR (length l))%R.
Proof.
  revert a. induction l as [|x l IH]; intros a Hall.
  - cbn [foldl length]. change (INR 0) with 0%R. lra.
  - apply Forall_cons in Hall as [Hx Hl]. cbn [foldl].
    specialize (IH (a + x)%R Hl). change (length (x :: l)) with (S (length l)).
    rewrite S_INR. lra.
Qed.

Lemma mean_bounds_R (lo hi : R) (l : list R) :
  l <> [] -> Forall (fun x => lo <= x /\ x <= hi)%R l ->
  (lo <= foldl Rplus 0 l / INR (length l) /\ foldl Rplus 0 l / INR (length l) <= hi)%R.
Proof.
  intros Hne Hall. pose proof (sum_bounds_R lo hi l 0 Hall) as [Hlo Hhi].
  assert (Hn : (0 < INR (length l))%R).
  { apply lt_0_INR. destruct l; [done | simpl; lia]. }
  split.
  - apply Rmult_le_reg_r with (INR (length l)); [done |].
    unfold Rdiv. rewrite Rmult_assoc, Rinv_l by lra. lra.
  - apply Rmult_le_reg_r with (INR (length l)); [done |].
    unfold Rdiv. rewrite Rmult_assoc, Rinv_l by lra. lra.
Qed.

Lemma round_nonneg (x : Q) (ndigits : nat) : (0 <= x)%Q -> (0 <= round x ndigits)%Q.
Proof.
  intros Hx. unfold round.
  assert (Hp : (0 < inject_Z (10 ^ Z.of_nat ndigits))%Q).
  { change 0%Q with (inject_Z 0). rewrite <- Zlt_Qlt. apply Z.pow_pos_nonneg; lia. }
  set (s := inject_Z (10 ^ Z.of_nat ndigits)) in *.
  pose proof (round_half_even_near (x * s)) as [Hlo Hhi].
  set (z := round_half_even (x * s)) in *.
  assert (Hxs : (0 <= x * s)%Q) by (apply Qmult_le_0_compat; Lqa.lra).
  assert (Hz : (0 <= z)%Z).
  { assert (Hlt : (inject_Z (-1) < inject_Z z)%Q).
    { change (inject_Z (-1)) with (-1)%Q. Lqa.lra. }
    rewrite <- Zlt_Qlt in Hlt. lia. }
  apply Qle_shift_div_l; [done |]. rewrite Qmult_0_l.
  change 0%Q with (inject_Z 0). by rewrite <- Zle_Qle.
Qed.

Lemma round_half_even_R_near (x : R) :
  (IZR (round_half_even_R x) - 1 / 2 <= x
   /\ x <= IZR (round_half_even_R x) + 1 / 2)%R.
Proof.
  unfold round_half_even_R. destruct (base_Int_part x) as [Hle Hgt].
  destruct (Rcompare_spec (x - IZR (Int_part x)) (1 / 2)) as [Heq|Hlt|Hgt'].
  - destruct (Z.even (Int_part x)); rewrite ?plus_IZR; lra.
  - lra.
  - rewrite plus_IZR. lra.
Qed.

Lemma round_R_range (x : R) :
  (0 <= x)%R -> (x <= 100)%R -> (0 <= round_R x 2 /\ round_R x 2 <= 100)%R.
Proof.
  intros H0 H100. unfold round_R. change (10 ^ Z.of_nat 2)%Z with 100%Z.
  pose proof (round_half_even_R_near (x * 100)) as [Hlo Hhi].
  set (z := round_half_even_R (x * 100)) in *.
  assert (Hz0 : (0 <= z)%Z).
  { assert (Hlt : (IZR (-1) < IZR z)%R) by lra. apply lt_IZR in Hlt. lia. }
  assert (Hz1 : (z <= 10000)%Z).
  { assert (Hlt : (IZR z < IZR 10001)%R) by lra. apply lt_IZR in Hlt. lia. }
  apply IZR_le in Hz0, Hz1. lra.
Qed.

(** What [summarize] needs of the results for its averages to be in
    range. *)
Lemma summarize_ranges (self : TextComparator) (results : list ComparisonResult) :
  Forall (fun result =>
            (0 <= accuracy result)%Q /\ (accuracy result <= 100)%Q
            /\ (0 <= wer result)%Q /\ (0 <= cer result)%Q
            /\ (0 <= bleu result)%R /\ (bleu result <= 100)%R) results ->
  exists summary,
    summarize self results = Some summary
    /\ (0 <= avg_accuracy summary)%Q /\ (avg_accuracy summary <= 100)%Q
    /\ (0 <= avg_wer summary)%Q /\ (0 <= avg_cer summary)%Q
    /\ (0 <= avg_bleu summary)%R /\ (avg_bleu summary <= 100)%R.
Proof.
  intros Hall.
  destruct (summarize_returns self results) as (summary & Hsum & _ & _ & _ & Havg).
  exists summary. split; [done |].
  destruct (decide (results = [])) as [-> | Hne].
  { injection Hsum as <-. cbn [avg_accuracy avg_wer avg_cer avg_bleu].
    repeat split; first [Lqa.lra | lra]. }
  destruct (Havg Hne) as (-> & -> & -> & ->).
  assert (Hlen : forall X (f : ComparisonResult -> X), f <$> results <> []).
  { intros X f. destruct results; done. }
  assert (Hacc : (0 <= foldl Qplus 0 (accuracy <$> results)
                       / inject_Z (Z.of_nat (length results))
                  /\ foldl Qplus 0 (accuracy <$> results)
                     / inject_Z (Z.of_nat (length results)) <= 100)%Q).
  { rewrite <- (length_fmap accuracy). split.
    - apply mean_lower; [apply Hlen |]. apply Forall_fmap.
      eapply Forall_impl; [exact Hall |]. cbv beta. intros r Hr. apply Hr.
    - apply mean_upper; [apply Hlen |]. apply Forall_fmap.
      eapply Forall_impl; [exact Hall |]. cbv beta. intros r Hr. apply Hr. }
  destruct Hacc as [Ha0 Ha1]. destruct (round_range _ Ha0 Ha1) as [Hr0 Hr1].
  split; [done |]. split; [done |].
  split.
  { apply round_nonneg. rewrite <- (length_fmap wer).
    apply mean_lower; [apply Hlen |]. apply Forall_fmap.
    eapply Forall_impl; [exact Hall |]. cbv beta. intros r Hr. apply Hr. }
  split.
  { apply round_nonneg. rewrite <- (length_fmap cer).
    apply mean_lower; [apply Hlen |]. apply Forall_fmap.
    eapply Forall_impl; [exact Hall |]. cbv beta. intros r Hr. apply Hr. }
  assert (Hbleu : Forall (fun x => 0 <= x /\ x <= 100)%R (bleu <$> results)).
  { apply Forall_fmap. eapply Forall_impl; [exact Hall |].
    cbv beta. intros r Hr. split; apply Hr. }
  destruct (mean_bounds_R 0 100 _ (Hlen _ bleu) Hbleu) as [Hb0 Hb1].
  rewrite length_fmap in Hb0, Hb1. by apply round_R_range.
Qed.

End Averages.

Section BatchSummary.
Import Py Metrics Comparator Spec.

Local Abbreviation count_into d L :=
  (foldl (fun ngrams gram => dict_set ngrams gram (dict_get ngrams gram 0 + 1)) d L).

(** What the built-in rates give for one result of [compare]. *)
Lemma compare_builtin_result self reference hypothesis info result :
  compare builtin self reference hypothesis info = Some result ->
  ((0 <= accuracy result)%Q /\ (accuracy result <= 100)%Q
   /\ (0 <= wer result)%Q /\ (0 <= cer result)%Q
   /\ (0 <= bleu result)%R /\ (bleu result <= 100)%R)
  /\ length (errors result)
     = lev (_normalize_text self reference) (_normalize_text self hypothesis)
  /\ Forall (fun e => error_type e ∈ [DELETION; INSERTION; SUBSTITUTION]) (errors result).
Proof.
  intros Hcmp.
  destruct (compare_builtin self reference hypothesis info)
    as (result' & Hcmp' & Hacc & Hwer & Hcer & raw & Hraw & Hlen & Herr).
  rewrite Hcmp in Hcmp'. injection Hcmp' as <-.
  apply compare_fields in Hcmp as (_ & _ & _ & Hbleu & _).
  unfold calculate_bleu in Hbleu. cbn [sacrebleu_sentence_score builtin] in Hbleu.
  destruct (simple_bleu_bounds (_normalize_text self reference)
              (_normalize_text self hypothesis)) as (b & Hb & Hb0 & Hb100 & _).
  rewrite Hb in Hbleu. injection Hbleu as ->.
  destruct (accuracy_closed_range (_normalize_text self reference)
              (_normalize_text self hypothesis)) as (Ha0 & Ha100 & _).
  split; [| split].
  - rewrite Hacc, Hwer, Hcer.
    split; [done |]. split; [done |].
    split; [apply wer_closed_nonneg |]. split; [apply cer_closed_nonneg | done].
  - by rewrite Herr, length_fmap.
  - destruct (get_error_details_trace (_normalize_text self reference)
                (_normalize_text self hypothesis)) as (raw' & Hraw' & _ & Htr).
    rewrite Hraw in Hraw'. injection Hraw' as <-.
    apply edit_trace_shape in Htr. rewrite Forall_reverse in Htr.
    rewrite Herr. apply Forall_fmap. eapply Forall_impl; [exact Htr |].
    intros e Hshape. cbn [compose error_detail_of error_type].
    destruct Hshape as [(_ & -> & _)|[(_ & -> & _)|(_ & -> & _)]].
    + apply list_elem_of_here.
    + apply list_elem_of_further, list_elem_of_here.
    + do 2 apply list_elem_of_further. apply list_elem_of_here.
Qed.

Lemma sum_list_with_zip {X Y} (f : X -> nat) (l : list X) (k : list Y) :
  sum_list_with (fun item => f item.1) (zip l k)
  = sum_list_with f (take (length k) l).
Proof.
  revert k. induction l as [|x l IH]; intros [|y k]; try done.
  cbn [zip zip_with sum_list_with length take fst]. by rewrite IH.
Qed.

Lemma Forall2_right {X Y} (P : X -> Y -> Prop) (Q : Y -> Prop) (l : list X) (k : list Y) :
  Forall2 P l k -> (forall x y, P x y -> Q y) -> Forall Q k.
Proof. induction 1; intros HPQ; constructor; eauto. Qed.

Lemma Forall2_total_length {X Y E} (f : X -> nat) (g : Y -> list E)
    (l : list X) (k : list Y) :
  Forall2 (fun x y => length (g y) = f x) l k ->
  length (concat (g <$> k)) = sum_list_with f l.
Proof.
  induction 1 as [|x y l k Hxy _ IH]; [done |].
  cbn [fmap list_fmap concat sum_list_with]. by rewrite length_app, Hxy, IH.
Qed.

(** X22: when the accuracy and the n-gram score of every result lie
    between 0 and 100 and no WER or CER is negative, [summarize] gives
    averages within the same bounds: the rounding does not take them
    out of range. *)
Theorem summarize_average_ranges (self : TextComparator) (results : list ComparisonResult) :
  Forall (fun result =>
            (0 <= accuracy result)%Q /\ (accuracy result <= 100)%Q
            /\ (0 <= wer result)%Q /\ (0 <= cer result)%Q
            /\ (0 <= bleu result)%R /\ (bleu result <= 100)%R) results ->
  exists summary,
    summarize self results = Some summary
    /\ (0 <= avg_accuracy summary)%Q /\ (avg_accuracy summary <= 100)%Q
    /\ (0 <= avg_wer summary)%Q /\ (0 <= avg_cer summary)%Q
    /\ (0 <= avg_bleu summary)%R /\ (avg_bleu summary <= 100)%R.
Proof. apply summarize_ranges. Qed.

(** Two results, one perfect and one with every rate at its worst. *)
Lemma summarize_average_ranges_witness :
  exists summary,
    summarize {| normalize := true |}
      [ {| Comparator.reference := [97%N]; Comparator.hypothesis := [97%N];
           accuracy := 100; wer := 0; cer := 0; bleu := 0;
           errors := []; source_info := None |};
        {| Comparator.reference := [97%N]; Comparator.hypothesis := [98%N; 99%N];
           accuracy := 0; wer := 2; cer := 2; bleu := 100;
           errors := []; source_info := None |} ]
    = Some summary
    /\ (0 <= avg_accuracy summary)%Q /\ (avg_accuracy summary <= 100)%Q
    /\ (0 <= avg_wer summary)%Q /\ (0 <= avg_cer summary)%Q
    /\ (0 <= avg_bleu summary)%R /\ (avg_bleu summary <= 100)%R.
Proof.
  apply (summarize_average_ranges {| normalize := true |}).
  repeat constructor; cbn; first [discriminate | lra].
Defined.

(** X23: a batch compared with the built-in rates and then summarised.
    Both calls return; [total_items] is the number of results;
    [total_errors] is the sum of the character edit distances of the
    normalised pairs that were compared; the average accuracy and the
    average n-gram score lie between 0 and 100, the average WER and CER
    are not negative; and [error_breakdown] has no key besides the
    three labels ['脱落'], ['挿入'] and ['置換（同音異字の可能性）']. *)
Theorem batch_summary (self : TextComparator) (pairs : list (str * str))
    (source_infos : option (list (option (dict str str)))) :
  exists results summary,
    compare_batch builtin self pairs source_infos = Some results
    /\ summarize self results = Some summary
    /\ total_items summary = length results
    /\ total_errors summary
       = sum_list_with (fun pair => lev (_normalize_text self pair.1)
                                        (_normalize_text self pair.2))
           (take (length results) pairs)
    /\ (0 <= avg_accuracy summary)%Q /\ (avg_accuracy summary <= 100)%Q
    /\ (0 <= avg_wer summary)%Q /\ (0 <= avg_cer summary)%Q
    /\ (0 <= avg_bleu summary)%R /\ (avg_bleu summary <= 100)%R
    /\ (forall label, dict_in label (error_breakdown summary) = true ->
          label ∈ [DELETION; INSERTION; SUBSTITUTION]).
Proof.
  destruct (compare_batch_items self pairs source_infos) as (results & Hbatch & Hall).
  set (infos := match source_infos with
                | None => replicate (length pairs) None
                | Some infos => infos
                end) in *.
  assert (Heach : Forall2 (fun item result =>
            ((0 <= accuracy result)%Q /\ (accuracy result <= 100)%Q
             /\ (0 <= wer result)%Q /\ (0 <= cer result)%Q
             /\ (0 <= bleu result)%R /\ (bleu result <= 100)%R)
            /\ length (errors result)
               = lev (_normalize_text self item.1.1) (_normalize_text self item.1.2)
            /\ Forall (fun e => error_type e ∈ [DELETION; INSERTION; SUBSTITUTION])
                 (errors result)) (zip pairs infos) results).
  { eapply Forall2_impl; [exact Hall |]. intros item result Hcmp.
    by apply compare_builtin_result in Hcmp. }
  assert (Hranges : Forall (fun result =>
            (0 <= accuracy result)%Q /\ (accuracy result <= 100)%Q
            /\ (0 <= wer result)%Q /\ (0 <= cer result)%Q
            /\ (0 <= bleu result)%R /\ (bleu result <= 100)%R) results).
  { eapply Forall2_right; [exact Heach |]. by intros item result [Hr _]. }
  assert (Hlabels : Forall (fun e => error_type e ∈ [DELETION; INSERTION; SUBSTITUTION])
                      (concat (errors <$> results))).
  { apply Forall_concat, Forall_fmap.
    eapply Forall2_right; [exact Heach |]. by intros item result (_ & _ & Hl). }
  assert (Htotal : length (concat (errors <$> results))
                   = sum_list_with (fun item => lev (_normalize_text self item.1.1)
                                                    (_normalize_text self item.1.2))
                       (zip pairs infos)).
  { apply Forall2_total_length.
    eapply Forall2_impl; [exact Heach |]. by intros item result (_ & Hlen & _). }
  assert (Hcount : length results = Nat.min (length pairs) (length infos)).
  { apply Forall2_length in Hall. by rewrite <- Hall, length_zip. }
  destruct (summarize_ranges self results Hranges) as (summary & Hsum & Hbounds).
  destruct (summarize_returns self results) as (summary' & Hsum' & Hitems & Herrors & Hbd & _).
  rewrite Hsum in Hsum'. injection Hsum' as <-.
  exists results, summary. do 3 (split; [done |]).
  split.
  { rewrite Herrors, Htotal.
    rewrite (sum_list_with_zip
               (fun pair => lev (_normalize_text self pair.1) (_normalize_text self pair.2))).
    rewrite Hcount, Nat.min_comm, <- take_take, firstn_all. done. }
  destruct Hbounds as (? & ? & ? & ? & ? & ?). do 6 (split; [done |]).
  intros label Hin. rewrite Hbd in Hin.
  apply dict_in_spec, count_into_keys in Hin as [Hin | Hin]; [by apply elem_of_nil in Hin |].
  apply list_elem_of_fmap in Hin as (e & -> & He).
  rewrite Forall_forall in Hlabels. by apply Hlabels.
Qed.

End BatchSummary.
